(** * nif.py: Portuguese fiscal identification numbers

    A shallow embedding of the class [Nif] of [src/nif.py], read with the
    semantics of Python 3 (where subscripting with a slice goes through
    [__getitem__] / [__setitem__]; the [__getslice__] / [__setslice__] hooks
    of the file are only consulted by Python 2 and are not part of this
    model).

    Python objects are mutable and shared, and the class leans on that: the
    catalogue [_COMBINATIONS] is a list of list objects, [_fair_combinations]
    hands some of those very objects out again, [generate] assigns into the
    object it drew, and a [Nif] built from a list or from another [Nif] keeps
    a reference to it.  The embedding therefore has an explicit store of list
    objects and of instances, and every method is a computation in a small
    state-and-exception monad over that store. *)

From Stdlib Require Import ZArith String Ascii List DecimalString Lia Bool.
From stdpp Require Import base list.
Import ListNotations.

Local Open Scope Z_scope.

(** ** Python values used by the class *)

(** The exceptions that the modelled code can raise.  [RecursionError] is
    what Python raises when a chain of [Nif]-inside-[Nif] delegations exceeds
    the interpreter's recursion limit (the [fuel] of the recursive methods
    below).  [DanglingRef] has no Python counterpart: it is returned when an
    address is looked up that the store does not hold, which no store built
    by the class ever does. *)
Inductive exn : Set :=
| IndexError
| TypeError
| ValueError
| RecursionError
| DanglingRef.

(** A slice [start:stop] (no step); an omitted bound is [None]. *)
Record pyslice : Set := Slice { start : option Z; stop : option Z }.

(** What stands between the brackets of a subscript. *)
Inductive index : Set :=
| IInt (i : Z)
| ISlice (sl : pyslice).

(** What a subscript read returns: one element, or a new list. *)
Inductive value : Set :=
| VInt (z : Z)
| VList (l : list Z).

(** A subscript assignment [x[i] = v] or [x[a:b] = vs]. *)
Inductive assignment : Set :=
| AssignAt (i : Z) (v : Z)
| AssignRange (sl : pyslice) (vs : list Z).

(** ** Python list primitives *)

Module PyList.

(** Position addressed by an integer subscript on a list of length [len]:
    negative subscripts count from the end, anything else out of
    [-len, len) is an [IndexError]. *)
Definition norm_index (len : nat) (i : Z) : option nat :=
  let j := if i <? 0 then i + Z.of_nat len else i in
  if (0 <=? j) && (j <? Z.of_nat len) then Some (Z.to_nat j) else None.

(** One bound of a slice, clamped into [0, len]. *)
Definition clamp (len : nat) (default : Z) (b : option Z) : Z :=
  match b with
  | None => default
  | Some i => if i <? 0 then Z.max (i + Z.of_nat len) 0
              else Z.min i (Z.of_nat len)
  end.

(** The half-open range [lo, hi) selected by a slice; [hi] is never below
    [lo]. *)
Definition bounds (len : nat) (sl : pyslice) : nat * nat :=
  let lo := clamp len 0 (start sl) in
  let hi := clamp len (Z.of_nat len) (stop sl) in
  (Z.to_nat lo, Z.to_nat (Z.max lo hi)).

(** [l[i]] *)
Definition getitem (l : list Z) (i : Z) : exn + Z :=
  match norm_index (length l) i with
  | Some k => match l !! k with Some x => inr x | None => inl IndexError end
  | None => inl IndexError
  end.

(** [l[a:b]] *)
Definition getslice (l : list Z) (sl : pyslice) : list Z :=
  let '(lo, hi) := bounds (length l) sl in
  take (hi - lo) (drop lo l).

(** [l[i] = v] *)
Definition setitem (l : list Z) (i : Z) (v : Z) : exn + list Z :=
  match norm_index (length l) i with
  | Some k => inr (<[k := v]> l)
  | None => inl IndexError
  end.

(** [l[a:b] = vs]: the selected range is replaced by [vs], whatever the
    two lengths are. *)
Definition setslice (l : list Z) (sl : pyslice) (vs : list Z) : list Z :=
  let '(lo, hi) := bounds (length l) sl in
  take lo l ++ vs ++ drop hi l.

(** [enumerate(l)], counting from [k]. *)
Fixpoint enumerate_from (k : nat) (l : list Z) : list (nat * Z) :=
  match l with
  | [] => []
  | x :: l' => (k, x) :: enumerate_from (S k) l'
  end.

Definition enumerate (l : list Z) : list (nat * Z) := enumerate_from 0 l.

End PyList.

(** [str(z)] for an integer. *)
Definition py_str (z : Z) : string := NilZero.string_of_int (Z.to_int z).

(** [int(c)] for a one-character string: the ASCII digits convert, any other
    character is a [ValueError]. *)
Definition py_int (c : ascii) : option Z :=
  let n := Z.of_N (N_of_ascii c) in
  if (48 <=? n) && (n <=? 57) then Some (n - 48) else None.

(** [''.join(map(str, l))] *)
Definition join_str (l : list Z) : string := String.concat "" (map py_str l).

(** [list(map(int, list(num)))]; [None] when some [int(c)] raises. *)
Fixpoint ints_of_string (num : string) : option (list Z) :=
  match num with
  | EmptyString => Some []
  | String c rest =>
      match py_int c, ints_of_string rest with
      | Some d, Some l => Some (d :: l)
      | _, _ => None
      end
  end.

(** ** Class constants *)

Definition _BASE_LENGTH : Z := 8.

(** ** The checksum: [Nif._eval_sum] (a static method, no store involved) *)

Definition _eval_sum (elements : list Z) : Z :=
  let _ruler (x : Z) (y : nat * Z) := x + (9 - Z.of_nat (fst y)) * snd y in
  let sum :=
    fold_left _ruler
      (PyList.enumerate
         (PyList.getslice elements (Slice None (Some _BASE_LENGTH)))) 0
    mod 11 in
  if sum <? 2 then 0 else 11 - sum.

(** The checksum as the specification words it: weight digit [i] by [9 - i]
    for [i] in [0..7], add up, reduce modulo 11. *)
Definition weighted_sum (base : list Z) : Z :=
  fold_right Z.add 0
    (map (fun i : nat => (9 - Z.of_nat i) * nth i base 0) (seq 0 8)).

Definition eval_checksum_spec (base : list Z) : Z :=
  let a := weighted_sum base mod 11 in
  if a <? 2 then 0 else 11 - a.

(** The weight that [_ruler] gives to an enumerated digit. *)
Definition weight (y : nat * Z) : Z := (9 - Z.of_nat (fst y)) * snd y.

(** ** The store *)

(** The attribute [self._nif] holds a reference: to a list object, or (when
    the constructor was given a [Nif]) to another instance. *)
Inductive ref : Set :=
| RList (a : nat)
| RNif (n : nat).

(** An instance: its [_nif] attribute, and the [_balanced] attribute that
    [generate] creates on first use ([None] while [hasattr] is false). *)
Record instance : Set := Instance {
  _nif : ref;
  _balanced : option (list nat)
}.

(** List objects and instances live at addresses (their position in the
    store); allocation appends.  [entropy] is the sequence of raw random
    draws the run will see and [cursor] how many were consumed. *)
Record store : Type := Store {
  lists : list (list Z);
  insts : list instance;
  entropy : nat -> nat;
  cursor : nat
}.

(** The literal of lines 13-26. *)
Definition COMBINATIONS_literal : list (list Z) :=
  [ [1]; [2];
    [5];
    [6];
    [7;0];
    [7;1];
    [7;7];
    [7;9];
    [8];
    [9;0]; [9;1];
    [9;8];
    [9;9] ].

(** [Nif._COMBINATIONS]: the outer list is never assigned to, so it is the
    fixed sequence of the addresses of its thirteen entries. *)
Definition _COMBINATIONS : list nat := seq 0 13.

(** The class attribute [Nif._nif = []], one list object shared by every
    instance that never assigned its own [_nif]. *)
Definition class_nif : nat := 13.

(** The store right after the class statement has run. *)
Definition init_store (rng : nat -> nat) : store :=
  {| lists := COMBINATIONS_literal ++ [[]];
     insts := [];
     entropy := rng;
     cursor := 0 |}.

(** ** State and exceptions *)

Definition M (A : Type) : Type := store -> store * (exn + A).

Definition ret {A} (x : A) : M A := fun s => (s, inr x).

Definition raise {A} (e : exn) : M A := fun s => (s, inl e).

Definition bind {A B} (m : M A) (k : A -> M B) : M B :=
  fun s =>
    match m s with
    | (s', inr x) => k x s'
    | (s', inl e) => (s', inl e)
    end.

Notation "'let!' x ':=' c 'in' k" := (bind c (fun x => k))
  (at level 10, x name, c at level 200, k at level 200).
Notation "'run!' c 'in' k" := (bind c (fun _ => k))
  (at level 10, c at level 200, k at level 200).

Definition lift {A} (r : exn + A) : M A :=
  match r with inr x => ret x | inl e => raise e end.

(** Reading and writing the store. *)
Definition get_list (a : nat) : M (list Z) :=
  fun s => match lists s !! a with
           | Some l => (s, inr l)
           | None => (s, inl DanglingRef)
           end.

(** The store with the list object at [a] holding [l]. *)
Definition set_digits (s : store) (a : nat) (l : list Z) : store :=
  {| lists := <[a := l]> (lists s); insts := insts s;
     entropy := entropy s; cursor := cursor s |}.

Definition put_list (a : nat) (l : list Z) : M unit :=
  fun s => (set_digits s a l, inr tt).

(** A new list object. *)
Definition alloc_list (l : list Z) : M nat :=
  fun s => ({| lists := lists s ++ [l]; insts := insts s;
               entropy := entropy s; cursor := cursor s |},
            inr (length (lists s))).

Definition get_inst (self : nat) : M instance :=
  fun s => match insts s !! self with
           | Some o => (s, inr o)
           | None => (s, inl DanglingRef)
           end.

Definition put_inst (self : nat) (o : instance) : M unit :=
  fun s => ({| lists := lists s; insts := <[self := o]> (insts s);
               entropy := entropy s; cursor := cursor s |}, inr tt).

Definition alloc_inst (o : instance) : M nat :=
  fun s => ({| lists := lists s; insts := insts s ++ [o];
               entropy := entropy s; cursor := cursor s |},
            inr (length (insts s))).

(** [self._nif] and [self._nif = r] *)
Definition attr_nif (self : nat) : M ref :=
  let! o := get_inst self in ret (_nif o).

Definition set_attr_nif (self : nat) (r : ref) : M unit :=
  let! o := get_inst self in
  put_inst self {| _nif := r; _balanced := _balanced o |}.

(** [rand(n)], that is [random.randrange(n)]: some integer of [0, n), here
    the next raw draw reduced modulo [n]; an empty range is a
    [ValueError]. *)
Definition rand (n : Z) : M Z :=
  fun s =>
    if n <=? 0 then (s, inl ValueError)
    else ({| lists := lists s; insts := insts s; entropy := entropy s;
             cursor := S (cursor s) |},
          inr (Z.of_nat (entropy s (cursor s)) mod n)).

(** [[rand(n) for _ in range(k)]] *)
Fixpoint rand_list (n : Z) (k : nat) : M (list Z) :=
  match k with
  | O => ret []
  | S k' => let! d := rand n in let! ds := rand_list n k' in ret (d :: ds)
  end.

(** [foldl] (that is [functools.reduce]) with an effectful function. *)
Fixpoint foldl {A B} (f : A -> B -> M A) (l : list B) (a : A) : M A :=
  match l with
  | [] => ret a
  | b :: l' => let! a' := f a b in foldl f l' a'
  end.

(** [a[sl] = vs] on the list object at address [a]. *)
Definition list_setslice (a : nat) (sl : pyslice) (vs : list Z) : M unit :=
  let! l := get_list a in put_list a (PyList.setslice l sl vs).

(** ** Subscripts on [self._nif]

    [self._nif] is a list or a [Nif]; a subscript on it is a list operation
    in the first case and a call of the other instance's [__getitem__] /
    [__setitem__] in the second.  The recursive methods take the depth of
    delegation they may still use. *)

(** [r[item]] *)
Definition subscript_load (getitem : nat -> index -> M value)
    (r : ref) (item : index) : M value :=
  match r with
  | RList a =>
      let! l := get_list a in
      match item with
      | IInt i => let! x := lift (PyList.getitem l i) in ret (VInt x)
      | ISlice sl => ret (VList (PyList.getslice l sl))
      end
  | RNif n => getitem n item
  end.

(** [r[...] = ...] *)
Definition subscript_store (setitem : nat -> assignment -> M unit)
    (r : ref) (asg : assignment) : M unit :=
  match r with
  | RList a =>
      match asg with
      | AssignAt i v =>
          let! l := get_list a in
          let! l' := lift (PyList.setitem l i v) in
          put_list a l'
      | AssignRange sl vs => list_setslice a sl vs
      end
  | RNif n => setitem n asg
  end.

(** [len(r)]: [Nif] defines no [__len__]. *)
Definition len (r : ref) : M Z :=
  match r with
  | RList a => let! l := get_list a in ret (Z.of_nat (length l))
  | RNif _ => raise TypeError
  end.

(** The elements that iterating over [r] yields. *)
Definition iterate (iter : nat -> M (list Z)) (r : ref) : M (list Z) :=
  match r with
  | RList a => get_list a
  | RNif n => iter n
  end.

(** ** Methods of [Nif] *)

(** [__iter__]: [return (i for i in self._nif)] *)
Fixpoint __iter__ (fuel : nat) (self : nat) : M (list Z) :=
  match fuel with
  | O => raise RecursionError
  | S fuel' => let! r := attr_nif self in iterate (__iter__ fuel') r
  end.

(** [__getitem__]: [return self._nif[item]] *)
Fixpoint __getitem__ (fuel : nat) (self : nat) (item : index) : M value :=
  match fuel with
  | O => raise RecursionError
  | S fuel' =>
      let! r := attr_nif self in subscript_load (__getitem__ fuel') r item
  end.

(** [__str__]: [return ''.join(map(str,self._nif))] *)
Definition __str__ (fuel : nat) (self : nat) : M string :=
  let! r := attr_nif self in
  let! els := iterate (__iter__ fuel) r in
  ret (join_str els).

(** [eval_sum]: [return Nif._eval_sum(self._nif[:Nif._BASE_LENGTH])] *)
Definition eval_sum (fuel : nat) (self : nat) : M Z :=
  let! r := attr_nif self in
  let! v := subscript_load (__getitem__ fuel) r
              (ISlice (Slice None (Some _BASE_LENGTH))) in
  match v with
  | VList l => ret (_eval_sum l)
  | VInt _ => raise TypeError
  end.

(** [get_sum_digit]: [return self._nif[Nif._BASE_LENGTH]] *)
Definition get_sum_digit (fuel : nat) (self : nat) : M value :=
  let! r := attr_nif self in
  subscript_load (__getitem__ fuel) r (IInt _BASE_LENGTH).

(** [set_sum_digit]: [self._nif[Nif._BASE_LENGTH:] = [value]], given the
    [__setitem__] to delegate to. *)
Definition set_sum_digit_via (setitem : nat -> assignment -> M unit)
    (self : nat) (value : Z) : M unit :=
  let! r := attr_nif self in
  subscript_store setitem r
    (AssignRange (Slice (Some _BASE_LENGTH) None) [value]).

(** [fix_sum]: [self.set_sum_digit(self.eval_sum())] *)
Definition fix_sum_via (setitem : nat -> assignment -> M unit)
    (fuel : nat) (self : nat) : M unit :=
  let! v := eval_sum fuel self in
  set_sum_digit_via setitem self v.

(** [__setitem__].  A slice goes through the guard
    [-Nif._BASE_LENGTH < index.start < Nif._BASE_LENGTH] (with an omitted
    start the comparison of an [int] with [None] is a [TypeError]); an
    integer subscript is handed to [self._nif] as it is.  Both end with
    [self.fix_sum()]. *)
Fixpoint __setitem__ (fuel : nat) (self : nat) (asg : assignment) : M unit :=
  match fuel with
  | O => raise RecursionError
  | S fuel' =>
      match asg with
      | AssignRange sl _ =>
          match start sl with
          | None => raise TypeError
          | Some st =>
              if (- _BASE_LENGTH <? st) && (st <? _BASE_LENGTH) then
                run! (let! r := attr_nif self in
                      subscript_store (__setitem__ fuel') r asg) in
                fix_sum_via (__setitem__ fuel') fuel' self
              else raise IndexError
          end
      | AssignAt _ _ =>
          run! (let! r := attr_nif self in
                subscript_store (__setitem__ fuel') r asg) in
          fix_sum_via (__setitem__ fuel') fuel' self
      end
  end.

Definition set_sum_digit (fuel : nat) (self : nat) (value : Z) : M unit :=
  set_sum_digit_via (__setitem__ fuel) self value.

Definition fix_sum (fuel : nat) (self : nat) : M unit :=
  fix_sum_via (__setitem__ fuel) fuel self.

(** [_fair_combinations].  [gen(c)] is ten new one-element lists [[c[0]]]
    when [len(c)==1], and otherwise the list holding [c] itself: the list
    object of the catalogue, not a copy. *)
Fixpoint gen_copies (c : nat) (k : nat) : M (list nat) :=
  match k with
  | O => ret []
  | S k' =>
      let! l := get_list c in
      let! x := lift (PyList.getitem l 0) in
      let! a := alloc_list [x] in
      let! rest := gen_copies c k' in
      ret (a :: rest)
  end.

Definition gen (c : nat) : M (list nat) :=
  let! l := get_list c in
  if (length l =? 1)%nat then gen_copies c 10 else ret [c].

(** [norm]: [[w for y in x for w in y]], the [y] being computed as they are
    reached. *)
Fixpoint norm (x : list (M (list nat))) : M (list nat) :=
  match x with
  | [] => ret []
  | y :: x' => let! ws := y in let! more := norm x' in ret (ws ++ more)
  end.

Definition _fair_combinations : M (list nat) :=
  norm (map gen _COMBINATIONS).

(** [generate], in the three steps of its docstring.  Lines 99-101: the
    fairness list, computed on first use and kept in [self._balanced]. *)
Definition balanced (self : nat) : M (list nat) :=
  let! o := get_inst self in
  match _balanced o with
  | Some comb => ret comb
  | None =>
      let! b := _fair_combinations in
      run! put_inst self {| _nif := _nif o; _balanced := Some b |} in
      ret b
  end.

(** Lines 102-105: [_nif] is the drawn element of [comb] itself, and the
    two slice assignments extend that list object in place. *)
Definition draw (comb : list nat) : M nat :=
  let! k := rand (Z.of_nat (length comb)) in
  let! nif := match comb !! Z.to_nat k with
              | Some a => ret a
              | None => raise IndexError
              end in
  let! l := get_list nif in
  let lnif := Z.of_nat (length l) in
  let! ds := rand_list 9 (Z.to_nat (_BASE_LENGTH - lnif)) in
  run! list_setslice nif (Slice (Some lnif) None) ds in
  let! l' := get_list nif in
  run! list_setslice nif (Slice (Some _BASE_LENGTH) None) [_eval_sum l'] in
  ret nif.

(** Line 106: [self._nif = list(_nif)], a copy. *)
Definition generate (self : nat) : M unit :=
  let! comb := balanced self in
  let! nif := draw comb in
  let! l := get_list nif in
  let! copy := alloc_list l in
  set_attr_nif self (RList copy).

(** [is_valid] *)
Definition validator (fuel : nat) (self : nat) (x : bool) (y : nat) : M bool :=
  if x then ret true
  else
    let! s := __str__ fuel self in
    let! ly := get_list y in
    ret (String.prefix (join_str ly) s).

Definition is_valid (fuel : nat) (self : nat) : M bool :=
  let! r := attr_nif self in
  let! n := len r in
  if negb (n =? _BASE_LENGTH + 1) then ret false
  else
    let! rule2 := foldl (validator fuel self) _COMBINATIONS false in
    if negb rule2 then ret false
    else
      let! d := get_sum_digit fuel self in
      let! d' := match d with
                 | VInt z => ret z
                 | VList _ => raise TypeError
                 end in
      let! e := eval_sum fuel self in
      ret (d' =? e).

(** The constructor's argument [num]: [None], a [Nif], a list (by
    reference), or a string. *)
Inductive arg : Set :=
| ANone
| ANif (n : nat)
| AList (a : nat)
| AStr (num : string).

(** Lines 53-57 of [__init__], the fill mode: pad the base with draws of
    [rand(9)], then append the checksum.  [length] is the number of digits
    the string had. *)
Definition fill_digits (fuel : nat) (self : nat) : M unit :=
  let! r := attr_nif self in
  let! length := len r in
  run! (if length <? 8 then
          let! ds := rand_list 9 (Z.to_nat (8 - length)) in
          let! r := attr_nif self in
          subscript_store (__setitem__ fuel) r
            (AssignRange (Slice (Some length) None) ds)
        else ret tt) in
  if length <? 9 then
    let! v := eval_sum fuel self in
    let! r := attr_nif self in
    subscript_store (__setitem__ fuel) r
      (AssignRange (Slice (Some 8) None) [v])
  else ret tt.

(** [__init__].  A falsy [num] ([None], the empty list, the empty string)
    leaves the instance without a [_nif] of its own. *)
Definition __init__ (fuel : nat) (self : nat) (num : arg) (fill : bool)
  : M unit :=
  match num with
  | ANone => ret tt
  | ANif n => set_attr_nif self (RNif n)
  | AList a =>
      let! l := get_list a in
      match l with
      | [] => ret tt
      | _ :: _ => set_attr_nif self (RList a)
      end
  | AStr num =>
      match num with
      | EmptyString => ret tt
      | String _ _ =>
          let! l := match ints_of_string num with
                    | Some l => ret l
                    | None => raise ValueError
                    end in
          let! a := alloc_list l in
          run! set_attr_nif self (RList a) in
          if fill then fill_digits fuel self else ret tt
      end
  end.

(** [Nif(num, fill)]: a new instance, which sees the class attribute [_nif]
    until it assigns its own, then [__init__]. *)
Definition Nif (fuel : nat) (num : arg) (fill : bool) : M nat :=
  let! self := alloc_inst {| _nif := RList class_nif; _balanced := None |} in
  run! __init__ fuel self num fill in
  ret self.

(** ** Reading a store *)

(** The digits of a list object, and of the catalogue entries. *)
Definition digits_at (s : store) (a : nat) : list Z :=
  default [] (lists s !! a).

Definition catalogue (s : store) : list (list Z) :=
  map (digits_at s) _COMBINATIONS.

(** The instance [self] keeps its digits in a list object of its own, the
    one at [a], which holds [l]. *)
Definition list_backed (s : store) (self a : nat) (l : list Z) : Prop :=
  exists o, insts s !! self = Some o /\ _nif o = RList a /\
            lists s !! a = Some l.

(** ** What the methods compute on the digits

    Pure counterparts of the methods for an instance that keeps its digits
    in a list; the lemmas below relate each of them to the method. *)

(** The digits after [fix_sum]: everything from position 8 on is replaced
    by the checksum of the digits before. *)
Definition with_sum (l : list Z) : list Z :=
  take 8 l ++ [_eval_sum l].

(** The outcome of [__setitem__] on the digits. *)
Definition assign (l : list Z) (asg : assignment) : exn + list Z :=
  match asg with
  | AssignAt i v =>
      match PyList.setitem l i v with
      | inr l' => inr (with_sum l')
      | inl e => inl e
      end
  | AssignRange sl vs =>
      match start sl with
      | None => inl TypeError
      | Some st =>
          if (- _BASE_LENGTH <? st) && (st <? _BASE_LENGTH)
          then inr (with_sum (PyList.setslice l sl vs))
          else inl IndexError
      end
  end.

(** The three rules of [is_valid] on the digits, against the catalogue
    entries as they currently are. *)
Definition rule2 (cat : list (list Z)) (l : list Z) : bool :=
  existsb (fun y => String.prefix (join_str y) (join_str l)) cat.

Definition valid_digits (cat : list (list Z)) (l : list Z) : bool :=
  (Z.of_nat (length l) =? _BASE_LENGTH + 1) && rule2 cat l &&
  (nth 8 l 0 =? _eval_sum l).

(** A decimal digit. *)
Definition is_digit (d : Z) : Prop := 0 <= d <= 9.

(** ** Stores and conditions used in the statements *)

(** The store after [Nif(num)] for a non-empty string of digits [l]: one
    more list object holding [l] and one more instance referring to it. *)
Definition store_with_nif (s : store) (l : list Z) : store :=
  {| lists := lists s ++ [l];
     insts := insts s ++ [{| _nif := RList (length (lists s));
                             _balanced := None |}];
     entropy := entropy s; cursor := cursor s |}.

(** What makes an assignment go through with the base still at full
    length: an existing position, or a range that starts inside the guard's
    window and leaves at least eight digits behind. *)
Definition keeps_base (l : list Z) (asg : assignment) : Prop :=
  match asg with
  | AssignAt i _ => - Z.of_nat (length l) <= i < Z.of_nat (length l)
  | AssignRange sl vs =>
      (exists st, start sl = Some st /\ -8 < st < 8) /\
      (8 <= length (PyList.setslice l sl vs))%nat
  end.

(** The store after [Nif(a)]: one more instance, referring to [a]. *)
Definition store_with_copy (s : store) (a : nat) : store :=
  {| lists := lists s;
     insts := insts s ++ [{| _nif := RNif a; _balanced := None |}];
     entropy := entropy s; cursor := cursor s |}.

(** The store with more list objects allocated. *)
Definition extend_lists (s : store) (ext : list (list Z)) : store :=
  {| lists := lists s ++ ext; insts := insts s;
     entropy := entropy s; cursor := cursor s |}.

(** The store with one instance replaced. *)
Definition set_inst (s : store) (self : nat) (o : instance) : store :=
  {| lists := lists s; insts := <[self := o]> (insts s);
     entropy := entropy s; cursor := cursor s |}.

(** The store after [k] more random draws. *)
Definition advance (s : store) (k : nat) : store :=
  {| lists := lists s; insts := insts s;
     entropy := entropy s; cursor := k + cursor s |}.

(** ** The fairness list as the specification words it *)

(** Each length-1 entry becomes ten copies of itself, every other entry
    stays as the single copy it is. *)
Definition fair_entry (c : list Z) : list (list Z) :=
  if (length c =? 1)%nat then repeat c 10 else [c].

Definition fair_combinations_spec (cat : list (list Z)) : list (list Z) :=
  flat_map fair_entry cat.

(** The elements of the fairness list computed in [s], which allocates
    [ext]: an element is an entry of the catalogue that is not of length 1
    (the entry itself, not a copy), or a new list object holding the one
    digit of a length-1 entry. *)
Definition fair_element (s : store) (cs : list nat) (ext : list (list Z))
    (w : nat) : Prop :=
  (w ∈ cs /\ length (digits_at s w) <> 1%nat) \/
  ((length (lists s) <= w)%nat /\
   exists c x, c ∈ cs /\ lists s !! c = Some [x] /\
               (lists s ++ ext) !! w = Some [x]).

(** ** Specifications of computations *)

(** [triple P m Q E]: run from a store satisfying [P], the computation [m]
    either returns some [x] in a store satisfying [Q x], or raises some [e]
    in a store satisfying [E e].  With [E] empty the computation is
    guaranteed to return. *)
Definition triple {A} (P : store -> Prop) (m : M A)
    (Q : A -> store -> Prop) (E : exn -> store -> Prop) : Prop :=
  forall s, P s ->
    match m s with
    | (s', inr x) => Q x s'
    | (s', inl e) => E e s'
    end.

Definition never : exn -> store -> Prop := fun _ _ => False.

(** ** The objects of the class and those of its callers *)

(** Where the catalogue keeps its one-digit and its two-digit entries, and
    the one-digit prefixes. *)
Definition single_addrs : list nat := [0; 1; 2; 3; 8]%nat.
Definition pair_addrs : list nat := [4; 5; 6; 7; 9; 10; 11; 12]%nat.
Definition single_digits : list Z := [1; 2; 5; 6; 8].

(** The catalogue as every run keeps it: the one-digit entries are those
    of the literal, the others hold at least two digits. *)
Definition catalogue_ok (s : store) : Prop :=
  (14 <= length (lists s))%nat /\
  (forall k, k ∈ single_addrs -> lists s !! k = COMBINATIONS_literal !! k) /\
  (forall k, k ∈ pair_addrs ->
     exists l, lists s !! k = Some l /\ (2 <= length l)%nat).

(** An element of a fairness list: a two-digit entry of the catalogue
    itself, or a list object of its own that starts with a one-digit
    prefix. *)
Definition entry_ok (s : store) (a : nat) : Prop :=
  a ∈ pair_addrs \/
  ((14 <= a)%nat /\
   exists d rest, lists s !! a = Some (d :: rest) /\ d ∈ single_digits).

Definition balanced_ok (s : store) (bl : list nat) : Prop :=
  bl <> [] /\ Forall (entry_ok s) bl.

(** The list objects that only the class holds references to: the
    catalogue entries and the elements of the fairness lists. *)
Definition private (s : store) (a : nat) : Prop :=
  (a < 13)%nat \/
  exists self o bl,
    insts s !! self = Some o /\ _balanced o = Some bl /\ a ∈ bl.

Definition public (s : store) (a : nat) : Prop :=
  (a < length (lists s))%nat /\ ~ private s a.

(** [a] is the [_nif] of some instance. *)
Definition owns_list (s : store) (a : nat) : Prop :=
  exists self o, insts s !! self = Some o /\ _nif o = RList a.

(** The invariant of the class. *)
Definition wf (s : store) : Prop :=
  catalogue_ok s /\
  (forall self o bl,
     insts s !! self = Some o -> _balanced o = Some bl -> balanced_ok s bl) /\
  (forall a, owns_list s a -> public s a).

(** [s] differs from [s0] in the contents of public list objects only. *)
Definition frame (s0 s : store) : Prop :=
  insts s = insts s0 /\
  length (lists s) = length (lists s0) /\
  forall a, private s0 a -> lists s !! a = lists s0 !! a.

(** A computation that keeps within the frame of [s0], whether it returns
    or raises. *)
Definition in_frame (s0 : store) {A} (m : M A) : Prop :=
  triple (frame s0) m (fun _ => frame s0) (fun _ => frame s0).

(** A computation that keeps the invariant, whether it returns or raises. *)
Definition keeps_wf {A} (m : M A) : Prop :=
  triple wf m (fun _ => wf) (fun _ => wf).

(** ** Runs of a program that uses the class *)

(** What a caller can do: build a list, change a list it holds, and call
    the constructor and the methods that write. *)
Inductive call : Set :=
| CList (l : list Z)
| CListAssign (a : nat) (l : list Z)
| CNif (num : arg) (fill : bool)
| CSetitem (self : nat) (asg : assignment)
| CGenerate (self : nat)
| CFixSum (self : nat)
| CSetSumDigit (self : nat) (value : Z).

Definition run_call (fuel : nat) (c : call) : M unit :=
  match c with
  | CList l => run! alloc_list l in ret tt
  | CListAssign a l => put_list a l
  | CNif num fill => run! Nif fuel num fill in ret tt
  | CSetitem self asg => __setitem__ fuel self asg
  | CGenerate self => generate self
  | CFixSum self => fix_sum fuel self
  | CSetSumDigit self value => set_sum_digit fuel self value
  end.

(** The list objects a caller passes or changes are ones it can hold, not
    the private ones of the class. *)
Definition allowed (s : store) (c : call) : Prop :=
  match c with
  | CListAssign a _ => public s a
  | CNif (AList a) _ => public s a
  | _ => True
  end.

Inductive reachable : store -> Prop :=
| reach_init (rng : nat -> nat) : reachable (init_store rng)
| reach_call (s : store) (fuel : nat) (c : call) :
    reachable s -> allowed s c -> reachable (fst (run_call fuel c s)).

(** ** The remaining methods *)

(** [__int__]: [return foldl(lambda x,y: x*10+int(y),self._nif,0)] *)
Definition __int__ (fuel : nat) (self : nat) : M Z :=
  let! r := attr_nif self in
  let! els := iterate (__iter__ fuel) r in
  ret (fold_left (fun x y => x * 10 + y) els 0).

(** [generate_nif]: [return Nif().generate()] *)
Definition generate_nif (fuel : nat) : M nat :=
  let! n := Nif fuel ANone false in
  run! generate n in
  ret n.

(** [main], given [sys.argv]: what it prints (the line, without its end)
    and the exit status of the process, 0 when [main] returns and 1 from
    [exit(1)].  An exception that escapes is the exception. *)
Definition main (fuel : nat) (argv : list string) : M (string * Z) :=
  match argv with
  | [] | [_] =>
      let! n := Nif fuel ANone false in
      run! generate n in
      let! out := __str__ fuel n in
      ret (out, 0)
  | _ :: arg :: _ =>
      let! n := Nif fuel (AStr arg) true in
      run! fix_sum fuel n in
      let! ok := is_valid fuel n in
      if ok then
        let! out := __str__ fuel n in
        ret (out, 0)
      else ret (("Invalid Nif: " ++ arg)%string, 1)
  end.

(** The digits that the fill mode leaves for a string of digits [l], given
    the padding [ds] it drew: up to eight digits are padded and closed with
    the checksum, nine or more are left as they are. *)
Definition filled (l ds : list Z) : list Z :=
  if (length l <=? 8)%nat then with_sum (l ++ ds) else l.

(** The position in [comb] that the next draw [rand(len(comb))] picks. *)
Definition draw_index (s : store) (comb : list nat) : nat :=
  Z.to_nat (Z.of_nat (entropy s (cursor s)) mod Z.of_nat (length comb)).

(** The private list objects hold decimal digits only. *)
Definition private_digits (s : store) : Prop :=
  forall a, private s a -> Forall is_digit (digits_at s a).

(** [s] has the private list objects of [s0], with the contents they had. *)
Definition same_private (s0 s : store) : Prop :=
  (forall a, private s a <-> private s0 a) /\
  (forall a, private s0 a -> lists s !! a = lists s0 !! a).

(** The store that [generate] leaves when it drew the element [nif] and
    left the digits [l2] in it after [k] draws in all. *)
Definition generated (s : store) (self : nat) (comb : list nat) (nif : nat)
    (l2 : list Z) (k : nat) : store :=
  set_inst (extend_lists (set_digits (advance s k) nif l2) [l2]) self
    {| _nif := RList (length (lists s)); _balanced := Some comb |}.

(** [self._balanced], empty while the attribute does not exist. *)
Definition fairness_list (s : store) (self : nat) : list nat :=
  match insts s !! self with
  | Some o => default [] (_balanced o)
  | None => []
  end.

(** The invariant carried through the fill mode: the class invariant, and
    the private lists of the store [s0] it started from. *)
Definition fill_inv (s0 s : store) : Prop := wf s /\ same_private s0 s.

Definition keeps_fill_inv (s0 : store) {A} (m : M A) : Prop :=
  triple (fill_inv s0) m (fun _ => fill_inv s0) (fun _ => fill_inv s0).

(** ** Tactics *)

(** Case analysis on membership in a list that is written out. *)
Ltac elem_cases H :=
  repeat (apply elem_of_cons in H as [-> | H]);
  try (by apply elem_of_nil in H).

Ltac elem_eqs H :=
  repeat (apply elem_of_cons in H as [? | H]);
  try (by apply elem_of_nil in H).

(** * Properties *)

(** ** Python list primitives *)

Module PyListFacts.
Import PyList.

Lemma bounds_prefix (len : nat) (n : Z) :
  0 <= n ->
  bounds len (Slice None (Some n)) = (0%nat, Z.to_nat (Z.min n (Z.of_nat len))).
Proof.
  intros Hn. unfold bounds, clamp; simpl.
  destruct (Z.ltb_spec n 0); [lia|].
  f_equal. f_equal. lia.
Qed.

Lemma bounds_suffix (len : nat) (n : Z) :
  0 <= n ->
  bounds len (Slice (Some n) None) =
    (Z.to_nat (Z.min n (Z.of_nat len)), len).
Proof.
  intros Hn. unfold bounds, clamp; simpl.
  destruct (Z.ltb_spec n 0); [lia|].
  f_equal. lia.
Qed.

(** [l[:n]] keeps the first [n] elements. *)
Lemma getslice_prefix (l : list Z) (n : Z) :
  0 <= n -> getslice l (Slice None (Some n)) = take (Z.to_nat n) l.
Proof.
  intros Hn. unfold getslice. rewrite bounds_prefix by done.
  rewrite drop_0, Nat.sub_0_r.
  destruct (Z.le_ge_cases n (Z.of_nat (length l))).
  - by rewrite Z.min_l.
  - rewrite Z.min_r, Nat2Z.id by done.
    rewrite !take_ge; [done | lia | lia].
Qed.

(** [l[n:] = vs] keeps the first [n] elements and puts [vs] after them;
    on a list shorter than [n] it appends. *)
Lemma setslice_suffix (l : list Z) (n : Z) (vs : list Z) :
  0 <= n -> setslice l (Slice (Some n) None) vs = take (Z.to_nat n) l ++ vs.
Proof.
  intros Hn. unfold setslice. rewrite bounds_suffix by done.
  rewrite drop_all, app_nil_r. f_equal.
  destruct (Z.le_ge_cases n (Z.of_nat (length l))).
  - by rewrite Z.min_l.
  - rewrite Z.min_r, Nat2Z.id by done.
    rewrite !take_ge; [done | lia | lia].
Qed.

Lemma setslice_end (l vs : list Z) :
  setslice l (Slice (Some (Z.of_nat (length l))) None) vs = l ++ vs.
Proof.
  rewrite setslice_suffix by lia. by rewrite Nat2Z.id, firstn_all.
Qed.

Lemma norm_index_lt (len : nat) (i : Z) (k : nat) :
  norm_index len i = Some k -> (k < len)%nat.
Proof.
  unfold norm_index. intros H.
  destruct (i <? 0) eqn:Hi;
    match type of H with (if ?c then _ else _) = _ =>
      destruct c eqn:Hc; [|discriminate] end;
    apply andb_true_iff in Hc as [H1 H2];
    apply Z.leb_le in H1; apply Z.ltb_lt in H2;
    injection H as <-; lia.
Qed.

Lemma norm_index_Some (len : nat) (i : Z) :
  - Z.of_nat len <= i < Z.of_nat len -> is_Some (norm_index len i).
Proof.
  intros Hi. unfold norm_index.
  destruct (i <? 0) eqn:E.
  - apply Z.ltb_lt in E.
    replace (0 <=? i + Z.of_nat len) with true by (symmetry; apply Z.leb_le; lia).
    replace (i + Z.of_nat len <? Z.of_nat len) with true
      by (symmetry; apply Z.ltb_lt; lia).
    by eexists.
  - apply Z.ltb_ge in E.
    replace (0 <=? i) with true by (symmetry; apply Z.leb_le; lia).
    replace (i <? Z.of_nat len) with true by (symmetry; apply Z.ltb_lt; lia).
    by eexists.
Qed.

Lemma norm_index_None (len : nat) (i : Z) :
  ~ (- Z.of_nat len <= i < Z.of_nat len) -> norm_index len i = None.
Proof.
  intros Hi. unfold norm_index.
  destruct (i <? 0) eqn:E.
  - apply Z.ltb_lt in E.
    destruct (Z.leb_spec 0 (i + Z.of_nat len)); simpl; [|done].
    destruct (Z.ltb_spec (i + Z.of_nat len) (Z.of_nat len)); [lia|done].
  - apply Z.ltb_ge in E.
    destruct (Z.leb_spec 0 i); simpl; [|lia].
    destruct (Z.ltb_spec i (Z.of_nat len)); [lia|done].
Qed.

End PyListFacts.

(** ** The checksum *)

Section Checksum.

(** The left fold of [_ruler] is the running total plus the sum of the
    weighted digits. *)
Lemma fold_ruler (ys : list (nat * Z)) (acc : Z) :
  fold_left (fun x y => x + (9 - Z.of_nat (fst y)) * snd y) ys acc =
  acc + fold_right Z.add 0 (map weight ys).
Proof.
  revert acc. induction ys as [|y ys IH]; intros acc; simpl.
  - lia.
  - rewrite IH. unfold weight. lia.
Qed.

(** Enumerating pairs each element with its position. *)
Lemma enumerate_from_nth (l : list Z) (k : nat) :
  map weight (PyList.enumerate_from k l) =
  map (fun i => (9 - Z.of_nat (k + i)) * nth i l 0) (seq 0 (length l)).
Proof.
  revert k. induction l as [|x l IH]; intros k; simpl; [done|].
  unfold weight at 1; simpl. rewrite Nat.add_0_r. f_equal.
  rewrite IH, <- seq_shift, map_map.
  apply map_ext. intros i. by rewrite Nat.add_succ_r.
Qed.

Lemma enumerate_nth (l : list Z) :
  map weight (PyList.enumerate l) =
  map (fun i : nat => (9 - Z.of_nat i) * nth i l 0) (seq 0 (length l)).
Proof. exact (enumerate_from_nth l 0). Qed.

(** Positions past the end of a short base weigh nothing. *)
Lemma weighted_sum_take (base : list Z) :
  weighted_sum (take 8 base) = weighted_sum base.
Proof.
  unfold weighted_sum. f_equal. apply map_ext_in. intros i Hi.
  apply in_seq in Hi. f_equal.
  rewrite nth_firstn.
  destruct (Nat.ltb_spec i 8); [done|lia].
Qed.

Lemma weighted_sum_short (l : list Z) :
  (length l <= 8)%nat ->
  fold_right Z.add 0
    (map (fun i : nat => (9 - Z.of_nat i) * nth i l 0) (seq 0 (length l))) =
  weighted_sum l.
Proof.
  intros Hl. unfold weighted_sum.
  replace 8%nat with (length l + (8 - length l))%nat by lia.
  rewrite seq_app, map_app, fold_right_app. simpl.
  assert (Hz : fold_right Z.add 0
            (map (fun i : nat => (9 - Z.of_nat i) * nth i l 0)
               (seq (length l) (8 - length l))) = 0).
  { generalize (8 - length l)%nat as n.
    assert (Hg : forall n k, (length l <= k)%nat ->
              fold_right Z.add 0
                (map (fun i : nat => (9 - Z.of_nat i) * nth i l 0) (seq k n)) = 0).
    { induction n as [|n IH]; intros k Hk; simpl; [done|].
      rewrite nth_overflow by lia. rewrite IH by lia. lia. }
    intros n. by apply Hg. }
  by rewrite Hz.
Qed.

(** The source's fold and the specification's sum agree on every list. *)
Lemma _eval_sum_spec (elements : list Z) :
  _eval_sum elements = eval_checksum_spec elements.
Proof.
  unfold _eval_sum, eval_checksum_spec, _BASE_LENGTH.
  rewrite PyListFacts.getslice_prefix by lia.
  change (Z.to_nat 8) with 8%nat.
  rewrite fold_ruler, enumerate_nth, Z.add_0_l.
  rewrite (weighted_sum_short (take 8 elements))
    by (rewrite length_take; lia).
  by rewrite weighted_sum_take.
Qed.

End Checksum.

(** C1.  For every 8-digit base, [_eval_sum] computes
    [a = (sum over i in 0..7 of (9 - i) * base[i]) mod 11] and returns [0]
    when [a < 2] and [11 - a] otherwise; for the base 12345678 the weighted
    sum is 156, [156 mod 11 = 2] and the checksum is 9. *)
Theorem eval_checksum_weighted_mod11 (base : list Z) :
  length base = 8%nat ->
  _eval_sum base = eval_checksum_spec base /\
  weighted_sum [1; 2; 3; 4; 5; 6; 7; 8] = 156 /\
  156 mod 11 = 2 /\
  _eval_sum [1; 2; 3; 4; 5; 6; 7; 8] = 9.
Proof.
  intros _. split; [apply _eval_sum_spec|]. by vm_compute.
Qed.

Lemma eval_checksum_weighted_mod11_witness :
  _eval_sum [9; 9; 9; 9; 9; 9; 9; 9] = eval_checksum_spec [9; 9; 9; 9; 9; 9; 9; 9] /\
  weighted_sum [1; 2; 3; 4; 5; 6; 7; 8] = 156 /\
  156 mod 11 = 2 /\
  _eval_sum [1; 2; 3; 4; 5; 6; 7; 8] = 9.
Proof.
  apply (eval_checksum_weighted_mod11 [9; 9; 9; 9; 9; 9; 9; 9]). reflexivity.
Defined.

(** ** Running the methods on an instance that holds a list *)

Section ListBacked.

Variables (s : store) (self a : nat) (l : list Z).
Hypothesis Hself : list_backed s self a l.

Lemma attr_nif_list : attr_nif self s = (s, inr (RList a)).
Proof.
  destruct Hself as (o & Ho & Hr & _).
  unfold attr_nif, bind, get_inst. by rewrite Ho, <- Hr.
Qed.

Lemma get_list_digits : get_list a s = (s, inr l).
Proof.
  destruct Hself as (o & _ & _ & Hl). unfold get_list. by rewrite Hl.
Qed.

Lemma len_list : (let! r := attr_nif self in len r) s
                 = (s, inr (Z.of_nat (length l))).
Proof.
  unfold bind. rewrite attr_nif_list. simpl. unfold bind.
  by rewrite get_list_digits.
Qed.

Lemma __str___list fuel : __str__ fuel self s = (s, inr (join_str l)).
Proof.
  unfold __str__, bind. rewrite attr_nif_list. simpl.
  by rewrite get_list_digits.
Qed.

Lemma eval_sum_list fuel : eval_sum fuel self s = (s, inr (_eval_sum l)).
Proof.
  unfold eval_sum, bind. rewrite attr_nif_list. simpl. unfold bind.
  rewrite get_list_digits. simpl. unfold ret. do 2 f_equal.
  rewrite !_eval_sum_spec. unfold eval_checksum_spec.
  unfold _BASE_LENGTH. rewrite PyListFacts.getslice_prefix by lia.
  change (Z.to_nat 8) with 8%nat. by rewrite weighted_sum_take.
Qed.

Lemma get_sum_digit_list fuel :
  get_sum_digit fuel self s =
  (s, match PyList.getitem l _BASE_LENGTH with
      | inr x => inr (VInt x)
      | inl e => inl e
      end).
Proof.
  unfold get_sum_digit, bind. rewrite attr_nif_list. simpl. unfold bind.
  rewrite get_list_digits.
  by destruct (PyList.getitem l _BASE_LENGTH).
Qed.

Lemma set_sum_digit_list fuel value :
  set_sum_digit fuel self value s = (set_digits s a (take 8 l ++ [value]), inr tt).
Proof.
  unfold set_sum_digit, set_sum_digit_via, bind. rewrite attr_nif_list. simpl.
  unfold list_setslice, bind. rewrite get_list_digits.
  unfold put_list, _BASE_LENGTH.
  by rewrite PyListFacts.setslice_suffix by lia.
Qed.

Lemma fix_sum_list fuel :
  fix_sum fuel self s = (set_digits s a (with_sum l), inr tt).
Proof.
  unfold fix_sum, fix_sum_via, bind. rewrite eval_sum_list.
  apply set_sum_digit_list.
Qed.

End ListBacked.

Lemma set_digits_twice (s : store) (a : nat) (l1 l2 : list Z) :
  set_digits (set_digits s a l1) a l2 = set_digits s a l2.
Proof. unfold set_digits; simpl. by rewrite list_insert_insert_eq. Qed.

Lemma list_backed_set_digits (s : store) (self a : nat) (l l' : list Z) :
  list_backed s self a l -> list_backed (set_digits s a l') self a l'.
Proof.
  intros (o & Ho & Hr & Hl). exists o. repeat split; [done..|].
  simpl. apply list_lookup_insert_eq. by eapply lookup_lt_Some.
Qed.

Lemma digits_at_list_backed (s : store) (self a : nat) (l : list Z) :
  list_backed s self a l -> digits_at s a = l.
Proof. intros (o & _ & _ & Hl). unfold digits_at. by rewrite Hl. Qed.

(** [__setitem__] on an instance that holds a list: the pure [assign]
    decides the outcome, and the list object is updated in place. *)
Lemma __setitem___list (s : store) (self a : nat) (l : list Z) fuel asg :
  list_backed s self a l ->
  __setitem__ (S fuel) self asg s =
  match assign l asg with
  | inr l' => (set_digits s a l', inr tt)
  | inl e => (s, inl e)
  end.
Proof.
  intros Hself.
  assert (Hfix : forall l', fix_sum_via (__setitem__ fuel) fuel self
                              (set_digits s a l')
                            = (set_digits s a (with_sum l'), inr tt)).
  { intros l'. change (fix_sum_via (__setitem__ fuel) fuel self)
      with (fix_sum fuel self).
    rewrite (fix_sum_list _ _ _ _ (list_backed_set_digits _ _ _ _ l' Hself)).
    by rewrite set_digits_twice. }
  destruct asg as [i v | sl vs]; simpl.
  - unfold bind at 1. unfold bind at 1. rewrite (attr_nif_list _ _ _ _ Hself).
    simpl. unfold bind at 1. rewrite (get_list_digits _ _ _ _ Hself).
    unfold bind at 1.
    destruct (PyList.setitem l i v) as [e | l']; simpl; [done|].
    apply Hfix.
  - destruct (start sl) as [st|]; [|done].
    destruct ((- _BASE_LENGTH <? st) && (st <? _BASE_LENGTH)); [|done].
    unfold bind at 1. unfold bind at 1. rewrite (attr_nif_list _ _ _ _ Hself).
    simpl. unfold list_setslice, bind at 1.
    rewrite (get_list_digits _ _ _ _ Hself). simpl.
    apply Hfix.
Qed.

(** ** [is_valid] on an instance that holds a list *)

Lemma foldl_validator (s : store) (self a : nat) (l : list Z) fuel
    (cs : list nat) (x : bool) :
  list_backed s self a l ->
  Forall (fun c => (c < length (lists s))%nat) cs ->
  foldl (validator fuel self) cs x s =
  (s, inr (x || rule2 (map (digits_at s) cs) l)).
Proof.
  intros Hself. revert x. induction cs as [|c cs IH]; intros x Hcs; simpl.
  - by rewrite orb_false_r.
  - apply Forall_cons in Hcs as [Hc Hcs].
    unfold bind at 1. unfold validator.
    destruct x; simpl.
    + by rewrite IH.
    + unfold bind at 1. rewrite (__str___list _ _ _ _ Hself).
      apply lookup_lt_is_Some in Hc as [y Hy].
      unfold bind at 1, get_list, digits_at. rewrite Hy. simpl.
      by rewrite IH.
Qed.

Lemma getitem_9th (l : list Z) :
  length l = 9%nat -> PyList.getitem l _BASE_LENGTH = inr (nth 8 l 0).
Proof.
  intros Hl. unfold PyList.getitem. rewrite Hl.
  change (PyList.norm_index 9 _BASE_LENGTH) with (Some 8%nat).
  destruct (nth_lookup_or_length l 8 0) as [-> | ?]; [done|lia].
Qed.

Lemma is_valid_list (s : store) (self a : nat) (l : list Z) fuel :
  list_backed s self a l ->
  (13 <= length (lists s))%nat ->
  is_valid fuel self s = (s, inr (valid_digits (catalogue s) l)).
Proof.
  intros Hself Hcat. unfold is_valid, valid_digits.
  unfold bind at 1. rewrite (attr_nif_list _ _ _ _ Hself).
  unfold bind at 1. cbn [len]. unfold bind at 1.
  rewrite (get_list_digits _ _ _ _ Hself). cbn [ret].
  destruct (Z.of_nat (length l) =? _BASE_LENGTH + 1) eqn:Hlen;
    cbn [negb andb]; [|done].
  unfold bind at 1. rewrite (foldl_validator _ _ _ _ _ _ _ Hself).
  2:{ apply Forall_forall. intros c Hc. apply elem_of_seq in Hc. lia. }
  cbn [orb]. fold (catalogue s).
  destruct (rule2 (catalogue s) l); cbn [negb andb]; [|done].
  apply Z.eqb_eq in Hlen. unfold _BASE_LENGTH in Hlen.
  unfold bind at 1. rewrite (get_sum_digit_list _ _ _ _ Hself).
  rewrite getitem_9th by lia.
  unfold bind at 1. cbn [ret]. unfold bind at 1.
  by rewrite (eval_sum_list _ _ _ _ Hself).
Qed.

(** ** Strings of digits *)

Lemma is_digit_cases (d : Z) :
  is_digit d ->
  d = 0 \/ d = 1 \/ d = 2 \/ d = 3 \/ d = 4 \/ d = 5 \/ d = 6 \/ d = 7 \/
  d = 8 \/ d = 9.
Proof. unfold is_digit. lia. Qed.

(** A digit prints as one character, which [int] reads back. *)
Lemma py_str_digit (d : Z) :
  is_digit d -> exists c, py_str d = String c EmptyString /\ py_int c = Some d.
Proof.
  intros Hd.
  destruct (is_digit_cases d Hd) as [->|[->|[->|[->|[->|[->|[->|[->|[->| ->]]]]]]]]];
    eexists; (split; [reflexivity | reflexivity]).
Qed.

Lemma join_str_cons (d : Z) (l : list Z) :
  join_str (d :: l) = (py_str d ++ join_str l)%string.
Proof.
  unfold join_str. simpl. destruct (map py_str l) eqn:E; simpl; [|done].
  generalize (py_str d) as x. induction x as [|c x IH]; simpl; [done|].
  by rewrite <- IH.
Qed.

(** [list(map(int, str(n)))] gives the digits back. *)
Lemma ints_of_join_str (l : list Z) :
  Forall is_digit l -> ints_of_string (join_str l) = Some l.
Proof.
  induction 1 as [|d l Hd _ IH]; [done|].
  rewrite join_str_cons.
  destruct (py_str_digit d Hd) as (c & -> & Hc). simpl.
  by rewrite Hc, IH.
Qed.

Lemma join_str_nonempty (d : Z) (l : list Z) :
  is_digit d -> exists c rest, join_str (d :: l) = String c rest.
Proof.
  intros Hd. rewrite join_str_cons.
  destruct (py_str_digit d Hd) as (c & -> & _). simpl. eauto.
Qed.

Lemma prefix_app (p q : string) : String.prefix p (p ++ q) = true.
Proof. induction p as [|c p IH]; simpl; [by destruct q|].
  destruct (ascii_dec c c); [done|congruence]. Qed.

Lemma prefix_refl (p : string) : String.prefix p p = true.
Proof. induction p as [|c p IH]; simpl; [done|].
  destruct (ascii_dec c c); [done|congruence]. Qed.

(** ** The constructor on a string, fill disabled *)

Lemma Nif_str (s : store) fuel (c : ascii) (rest : string) (l : list Z) fill :
  ints_of_string (String c rest) = Some l ->
  Nif fuel (AStr (String c rest)) fill s =
  (run! (if fill then fill_digits fuel (length (insts s)) else ret tt) in
   ret (length (insts s))) (store_with_nif s l).
Proof.
  intros Hl. unfold Nif, __init__. rewrite Hl.
  unfold bind at 1, alloc_inst. unfold bind at 1. unfold bind at 1.
  unfold ret at 1. unfold bind at 1, alloc_list.
  unfold bind at 1. unfold set_attr_nif, bind at 1, get_inst, put_inst.
  cbn [lists insts entropy cursor].
  rewrite lookup_app_r, Nat.sub_diag by done.
  cbn [lookup list_lookup lists insts entropy cursor _balanced].
  rewrite insert_app_r_alt, Nat.sub_diag by done.
  reflexivity.
Qed.

Lemma Nif_str_nofill (s : store) fuel (c : ascii) (rest : string) (l : list Z) :
  ints_of_string (String c rest) = Some l ->
  Nif fuel (AStr (String c rest)) false s =
  (store_with_nif s l, inr (length (insts s))).
Proof. intros Hl. by rewrite (Nif_str _ _ _ _ l). Qed.

Lemma store_with_nif_backed (s : store) (l : list Z) :
  list_backed (store_with_nif s l) (length (insts s)) (length (lists s)) l.
Proof.
  eexists. cbn. repeat split.
  - by rewrite lookup_app_r, Nat.sub_diag.
  - done.
  - by rewrite lookup_app_r, Nat.sub_diag.
Qed.

Lemma store_with_nif_old (s : store) (l0 : list Z) self a l :
  list_backed s self a l -> list_backed (store_with_nif s l0) self a l.
Proof.
  intros (o & Ho & Hr & Hl). exists o. cbn. repeat split; [|done|].
  - by apply lookup_app_l_Some.
  - by apply lookup_app_l_Some.
Qed.

Lemma digits_at_app (s : store) (ext : list (list Z)) (c : nat) :
  (c < length (lists s))%nat ->
  default [] ((lists s ++ ext) !! c) = digits_at s c.
Proof. intros Hc. unfold digits_at. by rewrite lookup_app_l. Qed.

Lemma store_with_nif_catalogue (s : store) (l : list Z) :
  (13 <= length (lists s))%nat ->
  catalogue (store_with_nif s l) = catalogue s.
Proof.
  intros Hcat. unfold catalogue. apply map_ext_in. intros c Hc.
  apply in_seq in Hc. unfold digits_at at 1. cbn [lists store_with_nif].
  apply digits_at_app. lia.
Qed.

(** A store whose catalogue reads as the literal holds all thirteen
    entries. *)
Lemma catalogue_literal_length (s : store) :
  catalogue s = COMBINATIONS_literal -> (13 <= length (lists s))%nat.
Proof.
  intros Hcat.
  destruct (decide (12 < length (lists s))%nat) as [|Hshort]; [lia|].
  assert (H12 : digits_at s 12 = [9; 9]).
  { apply (f_equal (fun c => nth 12 c [])) in Hcat. exact Hcat. }
  unfold digits_at in H12. rewrite lookup_ge_None_2 in H12 by lia.
  discriminate.
Qed.

(** C9.  Round trip through [str]: for a valid NIF [n] (nine decimal
    digits), [Nif(str(n))] with fill disabled is a new instance with the same
    nine digits, [is_valid] holds of it, and [n] itself is untouched. *)
Theorem str_roundtrip_valid (s : store) (fuel n a : nat) (l : list Z) :
  (13 <= length (lists s))%nat ->
  list_backed s n a l ->
  Forall is_digit l ->
  is_valid fuel n s = (s, inr true) ->
  exists s' n' a',
    (let! num := __str__ fuel n in Nif fuel (AStr num) false) s = (s', inr n') /\
    list_backed s' n' a' l /\
    is_valid fuel n' s' = (s', inr true) /\
    list_backed s' n a l.
Proof.
  intros Hcat Hn Hdig Hvalid.
  rewrite (is_valid_list _ _ _ _ _ Hn Hcat) in Hvalid.
  assert (Hv : valid_digits (catalogue s) l = true) by congruence.
  assert (Hlen : length l = 9%nat).
  { unfold valid_digits, _BASE_LENGTH in Hv.
    apply andb_true_iff in Hv as [Hv _]. apply andb_true_iff in Hv as [Hv _].
    apply Z.eqb_eq in Hv. lia. }
  destruct l as [|d l']; [discriminate|].
  destruct (join_str_nonempty d l' (Forall_inv Hdig)) as (c & rest & Hstr).
  exists (store_with_nif s (d :: l')), (length (insts s)), (length (lists s)).
  split; [|split; [|split]].
  - unfold bind. rewrite (__str___list _ _ _ _ Hn), Hstr.
    apply Nif_str_nofill. rewrite <- Hstr. by apply ints_of_join_str.
  - apply store_with_nif_backed.
  - rewrite (is_valid_list _ _ _ _ _ (store_with_nif_backed s (d :: l'))).
    + by rewrite store_with_nif_catalogue, Hv.
    + cbn. rewrite length_app. lia.
  - by apply store_with_nif_old.
Qed.

Lemma str_roundtrip_valid_witness :
  let s := store_with_nif (init_store (fun _ => 0%nat)) [1; 2; 3; 4; 5; 6; 7; 8; 9] in
  exists s' n' a',
    (let! num := __str__ 1 0 in Nif 1 (AStr num) false) s = (s', inr n') /\
    list_backed s' n' a' [1; 2; 3; 4; 5; 6; 7; 8; 9] /\
    is_valid 1 n' s' = (s', inr true) /\
    list_backed s' 0 14 [1; 2; 3; 4; 5; 6; 7; 8; 9].
Proof.
  apply (str_roundtrip_valid _ 1 0 14 [1; 2; 3; 4; 5; 6; 7; 8; 9]).
  - simpl. lia.
  - eexists. repeat split; reflexivity.
  - repeat constructor; unfold is_digit; lia.
  - reflexivity.
Defined.

(** ** Base 99999999 *)

(** C5, as stated, fails: [Nif("999999990")] built with fill disabled on the
    untouched catalogue is valid.  Its text starts with the catalogue entry
    [[9, 9]], and 0 is the checksum of 99999999. *)
Lemma nif_999999990_is_valid :
  snd ((let! n := Nif 1 (AStr "999999990") false in is_valid 1 n)
         (init_store (fun _ => 0%nat))) = inr true.
Proof. reflexivity. Qed.

(** C5, amended.  On the untouched catalogue, the NIF with base 99999999
    and check digit [d] passes Rule 2 for every [d] (the entry [[9, 9]] is a
    prefix of its text) and is valid exactly when [d = 0], the checksum of
    99999999; so [Nif("999999999")] is invalid, by Rule 3. *)
Theorem base_99999999_valid_iff_sum_0 (s : store) (fuel : nat) (d : Z) :
  catalogue s = COMBINATIONS_literal ->
  is_digit d ->
  exists s' n a,
    Nif fuel (AStr ("99999999" ++ py_str d)) false s = (s', inr n) /\
    list_backed s' n a [9; 9; 9; 9; 9; 9; 9; 9; d] /\
    rule2 (catalogue s') [9; 9; 9; 9; 9; 9; 9; 9; d] = true /\
    _eval_sum [9; 9; 9; 9; 9; 9; 9; 9] = 0 /\
    is_valid fuel n s' = (s', inr (d =? 0)).
Proof.
  intros Hcat Hd.
  pose proof (catalogue_literal_length s Hcat) as Hlen.
  set (l := [9; 9; 9; 9; 9; 9; 9; 9; d]).
  assert (Hnum : ("99999999" ++ py_str d)%string = join_str l).
  { destruct (is_digit_cases d Hd) as [->|[->|[->|[->|[->|[->|[->|[->|[->| ->]]]]]]]]];
      reflexivity. }
  assert (Hl : Forall is_digit l).
  { subst l. unfold is_digit in *. repeat (constructor; [lia|]). constructor. }
  exists (store_with_nif s l), (length (insts s)), (length (lists s)).
  assert (Hr2 : rule2 (catalogue (store_with_nif s l)) l = true).
  { rewrite store_with_nif_catalogue, Hcat by done.
    destruct (is_digit_cases d Hd) as [->|[->|[->|[->|[->|[->|[->|[->|[->| ->]]]]]]]]];
      reflexivity. }
  split; [|split; [|split; [|split]]].
  - rewrite Hnum.
    destruct (join_str_nonempty 9 [9; 9; 9; 9; 9; 9; 9; d]) as (c & rest & Hstr);
      [unfold is_digit; lia|].
    fold l in Hstr. rewrite Hstr. apply Nif_str_nofill.
    rewrite <- Hstr. by apply ints_of_join_str.
  - apply store_with_nif_backed.
  - exact Hr2.
  - reflexivity.
  - rewrite (is_valid_list _ _ _ _ _ (store_with_nif_backed s l))
      by (cbn; rewrite length_app; lia).
    do 2 f_equal. unfold valid_digits. rewrite Hr2.
    destruct (is_digit_cases d Hd) as [->|[->|[->|[->|[->|[->|[->|[->|[->| ->]]]]]]]]];
      reflexivity.
Qed.

Lemma base_99999999_valid_iff_sum_0_witness :
  exists s' n a,
    Nif 1 (AStr ("99999999" ++ py_str 9)) false (init_store (fun _ => 0%nat))
      = (s', inr n) /\
    list_backed s' n a [9; 9; 9; 9; 9; 9; 9; 9; 9] /\
    rule2 (catalogue s') [9; 9; 9; 9; 9; 9; 9; 9; 9] = true /\
    _eval_sum [9; 9; 9; 9; 9; 9; 9; 9] = 0 /\
    is_valid 1 n s' = (s', inr (9 =? 0)).
Proof.
  apply (base_99999999_valid_iff_sum_0 (init_store (fun _ => 0%nat)) 1 9).
  - reflexivity.
  - unfold is_digit. lia.
Defined.

(** ** Assignments to digits *)

Lemma _eval_sum_take (l : list Z) : _eval_sum (take 8 l) = _eval_sum l.
Proof.
  rewrite !_eval_sum_spec. unfold eval_checksum_spec.
  by rewrite weighted_sum_take.
Qed.

(** With at least eight digits to start from, [fix_sum] leaves exactly nine,
    the ninth being the checksum of the first eight. *)
Lemma with_sum_consistent (l : list Z) :
  (8 <= length l)%nat ->
  length (with_sum l) = 9%nat /\
  with_sum l !! 8%nat = Some (_eval_sum (take 8 (with_sum l))).
Proof.
  intros Hl. unfold with_sum.
  assert (Ht : length (take 8 l) = 8%nat) by (rewrite length_take; lia).
  split.
  - rewrite length_app, Ht. done.
  - rewrite lookup_app_r by lia. rewrite Ht. cbn [Nat.sub lookup list_lookup].
    rewrite take_app_le by lia. rewrite take_take.
    by rewrite _eval_sum_take.
Qed.

(** With fewer than eight, the checksum lands right behind them. *)
Lemma with_sum_short (l : list Z) :
  (length l < 8)%nat -> with_sum l = l ++ [_eval_sum l].
Proof. intros Hl. unfold with_sum. by rewrite take_ge by lia. Qed.

(** An integer subscript never meets the guard: the list's own bounds
    decide, so on nine digits the subscripts -9..8 are all accepted. *)
Lemma setitem_index_bounds (s : store) (fuel self a : nat) (l : list Z)
    (i v : Z) :
  list_backed s self a l ->
  snd (__setitem__ (S fuel) self (AssignAt i v) s) =
  if (- Z.of_nat (length l) <=? i) && (i <? Z.of_nat (length l))
  then inr tt else inl IndexError.
Proof.
  intros Hself. rewrite (__setitem___list _ _ _ _ _ _ Hself). cbn [assign].
  unfold PyList.setitem.
  destruct (Z.leb_spec (- Z.of_nat (length l)) i) as [Hlo|Hlo];
    destruct (Z.ltb_spec i (Z.of_nat (length l))) as [Hhi|Hhi]; cbn [andb];
    first [ by destruct (PyListFacts.norm_index_Some (length l) i) as [k ->]
          | by rewrite PyListFacts.norm_index_None by lia ].
Qed.

(** C4, as stated, fails: on the NIF 123456789 the range assignment
    [n[-8:-6] = [0, 0]] raises [IndexError] although its start, [-8], lies
    in [[-8, 8)]. *)
Lemma setitem_range_from_minus8_raises :
  snd ((let! n := Nif 1 (AStr "123456789") false in
        __setitem__ 1 n (AssignRange (Slice (Some (-8)) (Some (-6))) [0; 0]))
         (init_store (fun _ => 0%nat))) = inl IndexError /\
  -8 <= -8 < 8.
Proof. split; [reflexivity | lia]. Qed.

(** C4, amended.  On a NIF that keeps its digits in a list, a range
    assignment raises [IndexError] exactly when its start lies outside the
    open window [(-8, 8)], that is when [start <= -8] or [start >= 8]; with
    the start inside the window it returns normally. *)
Theorem setitem_range_guard (s : store) (fuel self a : nat) (l : list Z)
    (sl : pyslice) (vs : list Z) (st : Z) :
  list_backed s self a l ->
  start sl = Some st ->
  (snd (__setitem__ (S fuel) self (AssignRange sl vs) s) = inl IndexError
   <-> (st <= -8 \/ 8 <= st)) /\
  (-8 < st < 8 ->
   snd (__setitem__ (S fuel) self (AssignRange sl vs) s) = inr tt).
Proof.
  intros Hself Hst.
  rewrite (__setitem___list _ _ _ _ _ _ Hself). cbn [assign]. rewrite Hst.
  change (- _BASE_LENGTH) with (-8). unfold _BASE_LENGTH.
  destruct (Z.ltb_spec (-8) st), (Z.ltb_spec st 8); cbn [andb snd];
    (split; [split; [intros; try discriminate; lia | intros; try done; lia]
            | intros; try done; lia]).
Qed.

Lemma setitem_range_guard_witness :
  let s := store_with_nif (init_store (fun _ => 0%nat)) [1; 2; 3; 4; 5; 6; 7; 8; 9] in
  (snd (__setitem__ 1 0 (AssignRange (Slice (Some 8) None) [0]) s) = inl IndexError
   <-> (8 <= -8 \/ 8 <= 8)) /\
  (-8 < 8 < 8 ->
   snd (__setitem__ 1 0 (AssignRange (Slice (Some 8) None) [0]) s) = inr tt).
Proof.
  apply (setitem_range_guard _ 0 0 14 [1; 2; 3; 4; 5; 6; 7; 8; 9]
           (Slice (Some 8) None) [0] 8).
  - eexists. repeat split; reflexivity.
  - reflexivity.
Defined.

(** C7, as stated, fails: on the NIF 123456789 the range assignment
    [n[0:5] = []] is accepted and leaves the five digits 6 7 8 9 0, so
    there is no ninth digit to hold the checksum. *)
Lemma setitem_range_can_shorten :
  let r := (let! n := Nif 1 (AStr "123456789") false in
            __setitem__ 1 n (AssignRange (Slice (Some 0) (Some 5)) []))
             (init_store (fun _ => 0%nat)) in
  snd r = inr tt /\ digits_at (fst r) 14 = [6; 7; 8; 9; 0] /\
  digits_at (fst r) 14 !! 8%nat = None.
Proof. repeat split; reflexivity. Qed.

(** C7, amended.  For a 9-digit NIF that keeps its digits in a list, an
    assignment at an existing position, or to a range that passes the guard
    and leaves at least eight digits (as every replacement of [k] digits by
    [k] digits does), returns normally and leaves nine digits, the ninth
    being [_eval_sum] of the first eight. *)
Theorem setitem_keeps_checksum (s : store) (fuel self a : nat) (l : list Z)
    (asg : assignment) :
  list_backed s self a l ->
  length l = 9%nat ->
  keeps_base l asg ->
  exists l',
    __setitem__ (S fuel) self asg s = (set_digits s a l', inr tt) /\
    list_backed (set_digits s a l') self a l' /\
    length l' = 9%nat /\
    l' !! 8%nat = Some (_eval_sum (take 8 l')).
Proof.
  intros Hself Hlen Hk.
  rewrite (__setitem___list _ _ _ _ _ _ Hself).
  destruct asg as [i v | sl vs]; cbn [assign keeps_base] in *.
  - unfold PyList.setitem.
    destruct (PyListFacts.norm_index_Some _ _ Hk) as [k ->].
    exists (with_sum (<[k := v]> l)).
    destruct (with_sum_consistent (<[k := v]> l)) as [H9 H8];
      [rewrite length_insert; lia|].
    repeat split; [|done..]. by eapply list_backed_set_digits.
  - destruct Hk as [(st & -> & Hst) Hkeep].
    change (- _BASE_LENGTH) with (-8). unfold _BASE_LENGTH.
    replace (-8 <? st) with true by (symmetry; apply Z.ltb_lt; lia).
    replace (st <? 8) with true by (symmetry; apply Z.ltb_lt; lia).
    cbn [andb].
    exists (with_sum (PyList.setslice l sl vs)).
    destruct (with_sum_consistent _ Hkeep) as [H9 H8].
    repeat split; [|done..]. by eapply list_backed_set_digits.
Qed.

Lemma setitem_keeps_checksum_witness :
  let s := store_with_nif (init_store (fun _ => 0%nat)) [1; 2; 3; 4; 5; 6; 7; 8; 9] in
  exists l',
    __setitem__ 1 0 (AssignRange (Slice (Some 1) (Some 3)) [7; 7]) s
      = (set_digits s 14 l', inr tt) /\
    list_backed (set_digits s 14 l') 0 14 l' /\
    length l' = 9%nat /\
    l' !! 8%nat = Some (_eval_sum (take 8 l')).
Proof.
  apply (setitem_keeps_checksum _ 0 0 14 [1; 2; 3; 4; 5; 6; 7; 8; 9]
           (AssignRange (Slice (Some 1) (Some 3)) [7; 7])).
  - eexists. repeat split; reflexivity.
  - reflexivity.
  - split; [exists 1; split; [reflexivity | lia] | simpl; lia].
Defined.

(** ** A [Nif] built from a [Nif] *)

(** Reading never changes the store. *)
Lemma __getitem___store (fuel self : nat) (item : index) (s : store) :
  fst (__getitem__ fuel self item s) = s.
Proof.
  revert self. induction fuel as [|fuel IH]; intros self; [done|].
  cbn [__getitem__]. unfold bind, attr_nif, bind, get_inst.
  destruct (insts s !! self) as [o|]; [|done]. cbn [ret].
  destruct (_nif o) as [a|n]; cbn [subscript_load]; [|apply IH].
  unfold bind, get_list. destruct (lists s !! a) as [l|]; [|done].
  destruct item as [i|sl]; [|done].
  unfold bind. by destruct (PyList.getitem l i).
Qed.

Lemma eval_sum_store (fuel self : nat) (s : store) :
  fst (eval_sum fuel self s) = s.
Proof.
  unfold eval_sum, bind, attr_nif, bind, get_inst.
  destruct (insts s !! self) as [o|]; [|done]. cbn [ret].
  destruct (_nif o) as [a|n]; cbn [subscript_load].
  - unfold bind, get_list. destruct (lists s !! a) as [l|]; done.
  - pose proof (__getitem___store fuel n
                  (ISlice (Slice None (Some _BASE_LENGTH))) s) as Hg.
    destruct (__getitem__ fuel n _ s) as [s1 [e|[z|l]]]; simpl in *; by subst.
Qed.

(** Assigning from position 8 on through [__setitem__] never passes the
    guard. *)
Lemma __setitem___from_8 (fuel self : nat) (vs : list Z) (s : store) :
  exists e,
    __setitem__ fuel self (AssignRange (Slice (Some _BASE_LENGTH) None) vs) s
    = (s, inl e).
Proof. destruct fuel; eexists; reflexivity. Qed.

(** Writes change list objects only. *)
Lemma __setitem___insts (fuel self : nat) (asg : assignment) (s : store) :
  insts (fst (__setitem__ fuel self asg s)) = insts s.
Proof.
  revert self asg s. induction fuel as [|fuel IH]; intros self asg s; [done|].
  assert (Hstore : forall r asg' s0,
            insts (fst (subscript_store (__setitem__ fuel) r asg' s0)) = insts s0).
  { intros [a|n] asg' s0; cbn [subscript_store]; [|apply IH].
    destruct asg' as [i v|sl vs].
    - unfold bind, get_list. destruct (lists s0 !! a) as [l|]; [|done].
      by destruct (PyList.setitem l i v).
    - unfold list_setslice, bind, get_list.
      by destruct (lists s0 !! a). }
  assert (Hbody : insts (fst
            ((run! (let! r := attr_nif self in
                    subscript_store (__setitem__ fuel) r asg) in
              fix_sum_via (__setitem__ fuel) fuel self) s)) = insts s).
  { unfold bind at 1. unfold bind at 1.
    unfold attr_nif, bind at 1, get_inst.
    destruct (insts s !! self) as [o|]; [|done]. cbn [ret].
    pose proof (Hstore (_nif o) asg s) as H1.
    destruct (subscript_store (__setitem__ fuel) (_nif o) asg s) as [s1 [e|[]]];
      cbn [fst] in *; [done|].
    rewrite <- H1. unfold fix_sum_via, bind at 1.
    pose proof (eval_sum_store fuel self s1) as H2.
    destruct (eval_sum fuel self s1) as [s2 [e|v]]; cbn [fst] in *; subst s2;
      [done|].
    unfold set_sum_digit_via, bind, attr_nif, bind, get_inst.
    destruct (insts s1 !! self) as [o1|]; [|done]. cbn [ret].
    apply Hstore. }
  destruct asg as [i v|sl vs]; cbn [__setitem__]; [exact Hbody|].
  destruct (start sl) as [st|]; [|done].
  destruct ((- _BASE_LENGTH <? st) && (st <? _BASE_LENGTH)); [exact Hbody|done].
Qed.

(** An assignment through [b = Nif(a)] is the assignment on [a]: whatever
    [a.__setitem__] does to the store is all that happens (the closing
    [b.fix_sum()] reads through [a] and then asks [a] to assign from
    position 8 on, which [a]'s guard refuses). *)
Lemma __setitem___through_copy (s : store) (fuel a b : nat) (ob : instance)
    (asg : assignment) :
  insts s !! b = Some ob ->
  _nif ob = RNif a ->
  fst (__setitem__ (S fuel) b asg s) = fst (__setitem__ fuel a asg s).
Proof.
  intros Hb Ha.
  assert (Hattr : forall s0, insts s0 = insts s -> attr_nif b s0 = (s0, inr (RNif a))).
  { intros s0 Hs0. unfold attr_nif, bind, get_inst. by rewrite Hs0, Hb, <- Ha. }
  assert (Hbody : fst ((run! (let! r := attr_nif b in
                              subscript_store (__setitem__ fuel) r asg) in
                        fix_sum_via (__setitem__ fuel) fuel b) s)
                  = fst (__setitem__ fuel a asg s)).
  { unfold bind at 1. unfold bind at 1. rewrite Hattr by done.
    cbn [subscript_store].
    pose proof (__setitem___insts fuel a asg s) as Hi.
    destruct (__setitem__ fuel a asg s) as [s1 [e|[]]]; cbn [fst] in *; [done|].
    unfold fix_sum_via, bind at 1.
    pose proof (eval_sum_store fuel b s1) as H2.
    destruct (eval_sum fuel b s1) as [s2 [e|v]]; cbn [fst] in *; subst s2;
      [done|].
    unfold set_sum_digit_via, bind. rewrite Hattr by done.
    cbn [subscript_store].
    by destruct (__setitem___from_8 fuel a [v] s1) as [e ->]. }
  destruct asg as [i v|sl vs]; cbn [__setitem__]; [exact Hbody|].
  destruct (start sl) as [st|] eqn:Hst.
  - destruct ((- _BASE_LENGTH <? st) && (st <? _BASE_LENGTH)) eqn:Hg;
      [exact Hbody|].
    destruct fuel; [done|]. cbn [__setitem__]. by rewrite Hst, Hg.
  - destruct fuel; [done|]. cbn [__setitem__]. by rewrite Hst.
Qed.

Lemma Nif_of_Nif (s : store) (fuel a : nat) (fill : bool) :
  Nif fuel (ANif a) fill s = (store_with_copy s a, inr (length (insts s))).
Proof.
  unfold Nif, __init__, bind, alloc_inst, set_attr_nif, bind, get_inst,
    put_inst, ret.
  cbn [lists insts entropy cursor].
  rewrite lookup_app_r, Nat.sub_diag by done.
  cbn [lookup list_lookup lists insts entropy cursor _balanced].
  unfold store_with_copy. do 2 f_equal.
  by rewrite insert_app_r_alt, Nat.sub_diag.
Qed.

Lemma store_with_copy_old (s : store) (a0 self a : nat) (l : list Z) :
  list_backed s self a l -> list_backed (store_with_copy s a0) self a l.
Proof.
  intros (o & Ho & Hr & Hl). exists o. cbn. repeat split; [|done..].
  by apply lookup_app_l_Some.
Qed.

Lemma __setitem___at (fuel self : nat) (i v : Z) :
  __setitem__ (S fuel) self (AssignAt i v) =
  (run! (let! r := attr_nif self in
         subscript_store (__setitem__ fuel) r (AssignAt i v)) in
   fix_sum_via (__setitem__ fuel) fuel self).
Proof. reflexivity. Qed.

Lemma __getitem___list (s : store) (self a : nat) (l : list Z) fuel item :
  list_backed s self a l ->
  __getitem__ (S fuel) self item s =
  (s, match item with
      | IInt i => match PyList.getitem l i with
                  | inr x => inr (VInt x)
                  | inl e => inl e
                  end
      | ISlice sl => inr (VList (PyList.getslice l sl))
      end).
Proof.
  intros Hself. cbn [__getitem__]. unfold bind.
  rewrite (attr_nif_list _ _ _ _ Hself). cbn [subscript_load]. unfold bind.
  rewrite (get_list_digits _ _ _ _ Hself).
  destruct item as [i|sl]; [|done]. by destruct (PyList.getitem l i).
Qed.

Lemma __getitem___copy (s : store) (fuel a b : nat) (ob : instance) item :
  insts s !! b = Some ob ->
  _nif ob = RNif a ->
  __getitem__ (S fuel) b item s = __getitem__ fuel a item s.
Proof.
  intros Hb Ha. cbn [__getitem__]. unfold bind, attr_nif, bind, get_inst.
  by rewrite Hb, Ha.
Qed.

Lemma getitem_position (l : list Z) (k : nat) (x : Z) :
  l !! k = Some x -> PyList.getitem l (Z.of_nat k) = inr x.
Proof.
  intros Hk. pose proof (lookup_lt_Some _ _ _ Hk) as Hlt.
  unfold PyList.getitem, PyList.norm_index.
  destruct (Z.ltb_spec (Z.of_nat k) 0); [lia|].
  destruct (Z.leb_spec 0 (Z.of_nat k)); [|lia].
  destruct (Z.ltb_spec (Z.of_nat k) (Z.of_nat (length l))); [|lia].
  cbn [andb]. by rewrite Nat2Z.id, Hk.
Qed.

Lemma with_sum_lookup_base (l : list Z) (k : nat) (v : Z) :
  (k < 8)%nat -> (k < length l)%nat ->
  with_sum (<[k := v]> l) !! k = Some v.
Proof.
  intros Hk Hl. unfold with_sum.
  rewrite lookup_app_l by (rewrite length_take, length_insert; lia).
  rewrite lookup_take_lt by done. by apply list_lookup_insert_eq.
Qed.

(** C10.  [b = Nif(a)] keeps a reference to [a]: the assignment [b[i] = v]
    at a base position writes [v] into [a]'s list object, leaving the store
    exactly as [a[i] = v] would (after which [b]'s own [fix_sum] ends the
    call with the [IndexError] of [a]'s guard), and reading position [k]
    through [a] or through [b] gives [v] afterwards. *)
Theorem copy_shares_digits (s : store) (fuel a la : nat) (l : list Z)
    (i v : Z) (k : nat) :
  list_backed s a la l ->
  PyList.norm_index (length l) i = Some k ->
  (k < 8)%nat ->
  exists s0 b,
    Nif fuel (ANif a) false s = (s0, inr b) /\
    list_backed s0 a la l /\
    let via_b := __setitem__ (S (S fuel)) b (AssignAt i v) s0 in
    let via_a := __setitem__ (S fuel) a (AssignAt i v) s0 in
    fst via_b = fst via_a /\
    snd via_b = inl IndexError /\
    list_backed (fst via_b) a la (with_sum (<[k := v]> l)) /\
    digits_at (fst via_b) la !! k = Some v /\
    __getitem__ (S fuel) a (IInt (Z.of_nat k)) (fst via_b)
      = (fst via_b, inr (VInt v)) /\
    __getitem__ (S (S fuel)) b (IInt (Z.of_nat k)) (fst via_a)
      = (fst via_a, inr (VInt v)).
Proof.
  intros Ha Hk Hk8.
  pose proof (PyListFacts.norm_index_lt _ _ _ Hk) as Hkl.
  exists (store_with_copy s a), (length (insts s)).
  set (s0 := store_with_copy s a). set (b := length (insts s)).
  pose proof (store_with_copy_old s a _ _ _ Ha) as Ha0. fold s0 in Ha0.
  assert (Hb : insts s0 !! b = Some {| _nif := RNif a; _balanced := None |}).
  { subst s0 b. cbn. by rewrite lookup_app_r, Nat.sub_diag. }
  set (l1 := with_sum (<[k := v]> l)).
  assert (Hvia_a : __setitem__ (S fuel) a (AssignAt i v) s0
                   = (set_digits s0 la l1, inr tt)).
  { rewrite (__setitem___list _ _ _ _ _ _ Ha0). cbn [assign].
    unfold PyList.setitem. by rewrite Hk. }
  set (s1 := set_digits s0 la l1) in *.
  pose proof (list_backed_set_digits _ _ _ _ l1 Ha0) as Ha1. fold s1 in Ha1.
  assert (Hb1 : insts s1 !! b = Some {| _nif := RNif a; _balanced := None |})
    by exact Hb.
  assert (Hvia_b : __setitem__ (S (S fuel)) b (AssignAt i v) s0
                   = (s1, inl IndexError)).
  { assert (Hattr : attr_nif b s1 = (s1, inr (RNif a))).
    { unfold attr_nif, bind, get_inst. by rewrite Hb1. }
    rewrite __setitem___at. unfold bind at 1. unfold bind at 1.
    unfold attr_nif at 1. unfold bind at 1. unfold get_inst. rewrite Hb.
    cbn [ret _nif subscript_store]. rewrite Hvia_a.
    unfold fix_sum_via. unfold bind at 1. unfold eval_sum. unfold bind at 1.
    rewrite Hattr. cbn [subscript_load]. unfold bind at 1.
    rewrite (__getitem___list _ _ _ _ _ _ Ha1).
    cbv beta iota. unfold ret. cbv beta iota.
    unfold set_sum_digit_via, bind. rewrite Hattr.
    reflexivity. }
  assert (Hv : l1 !! k = Some v) by (by apply with_sum_lookup_base).
  split; [apply Nif_of_Nif|]. split; [done|]. cbn zeta.
  rewrite Hvia_a, Hvia_b. cbn [fst snd].
  repeat split; [done|..].
  - by rewrite (digits_at_list_backed _ _ _ _ Ha1).
  - rewrite (__getitem___list _ _ _ _ _ _ Ha1).
    by rewrite (getitem_position _ _ _ Hv).
  - rewrite (__getitem___copy _ _ a b _ _ Hb1 eq_refl).
    rewrite (__getitem___list _ _ _ _ _ _ Ha1).
    by rewrite (getitem_position _ _ _ Hv).
Qed.

Lemma copy_shares_digits_witness :
  let s := store_with_nif (init_store (fun _ => 0%nat)) [1; 2; 3; 4; 5; 6; 7; 8; 9] in
  exists s0 b,
    Nif 0 (ANif 0) false s = (s0, inr b) /\
    list_backed s0 0 14 [1; 2; 3; 4; 5; 6; 7; 8; 9] /\
    let via_b := __setitem__ 2 b (AssignAt 0 5) s0 in
    let via_a := __setitem__ 1 0 (AssignAt 0 5) s0 in
    fst via_b = fst via_a /\
    snd via_b = inl IndexError /\
    list_backed (fst via_b) 0 14
      (with_sum (<[0%nat := 5]> [1; 2; 3; 4; 5; 6; 7; 8; 9])) /\
    digits_at (fst via_b) 14 !! 0%nat = Some 5 /\
    __getitem__ 1 0 (IInt (Z.of_nat 0)) (fst via_b) = (fst via_b, inr (VInt 5)) /\
    __getitem__ 2 b (IInt (Z.of_nat 0)) (fst via_a) = (fst via_a, inr (VInt 5)).
Proof.
  apply (copy_shares_digits _ 0 0 14 [1; 2; 3; 4; 5; 6; 7; 8; 9] 0 5 0).
  - eexists. repeat split; reflexivity.
  - reflexivity.
  - lia.
Defined.

(** ** Rules for specifications *)

Lemma triple_ret {A} (x : A) (Q : A -> store -> Prop) E :
  triple (Q x) (ret x) Q E.
Proof. intros s Hs. exact Hs. Qed.

Lemma triple_raise {A} (e : exn) (Q : A -> store -> Prop) (E : exn -> store -> Prop) :
  triple (E e) (raise e) Q E.
Proof. intros s Hs. exact Hs. Qed.

Lemma triple_bind {A B} (P : store -> Prop) (m : M A) (k : A -> M B)
    (Q : A -> store -> Prop) (R : B -> store -> Prop) E :
  triple P m Q E ->
  (forall x, triple (Q x) (k x) R E) ->
  triple P (bind m k) R E.
Proof.
  intros Hm Hk s Hs. unfold bind. specialize (Hm s Hs).
  destruct (m s) as [s' [e|x]]; [exact Hm|]. by apply Hk.
Qed.

Lemma triple_conseq {A} (P P' : store -> Prop) (m : M A)
    (Q Q' : A -> store -> Prop) (E E' : exn -> store -> Prop) :
  triple P' m Q' E' ->
  (forall s, P s -> P' s) ->
  (forall x s, Q' x s -> Q x s) ->
  (forall e s, E' e s -> E e s) ->
  triple P m Q E.
Proof.
  intros Hm HP HQ HE s Hs. specialize (Hm s (HP s Hs)).
  destruct (m s) as [s' [e|x]]; auto.
Qed.

(** A computation with an empty exceptional postcondition returns. *)
Lemma triple_returns {A} (P : store -> Prop) (m : M A) (Q : A -> store -> Prop)
    (s : store) :
  triple P m Q never -> P s -> exists x s', m s = (s', inr x) /\ Q x s'.
Proof.
  intros Hm Hs. specialize (Hm s Hs).
  destruct (m s) as [s' [e|x]]; [destruct Hm | eauto].
Qed.

(** ** The fairness list *)

Lemma extend_lists_nil (s : store) : extend_lists s [] = s.
Proof. destruct s. unfold extend_lists. cbn. by rewrite app_nil_r. Qed.

Lemma extend_lists_app (s : store) (e1 e2 : list (list Z)) :
  extend_lists (extend_lists s e1) e2 = extend_lists s (e1 ++ e2).
Proof. unfold extend_lists. cbn. by rewrite app_assoc. Qed.

Lemma digits_at_extend (s : store) (ext : list (list Z)) (c : nat) :
  (c < length (lists s))%nat ->
  digits_at (extend_lists s ext) c = digits_at s c.
Proof. intros Hc. unfold digits_at. cbn. by rewrite lookup_app_l. Qed.

Lemma map_seq_const {B} (f : nat -> B) (y : B) (n k : nat) :
  (forall i, (n <= i < n + k)%nat -> f i = y) ->
  map f (seq n k) = repeat y k.
Proof.
  revert n. induction k as [|k IH]; intros n Hf; cbn; [done|].
  rewrite Hf by lia. f_equal. apply IH. intros i Hi. apply Hf. lia.
Qed.

Lemma lookup_repeat {B} (y : B) (n i : nat) :
  (i < n)%nat -> repeat y n !! i = Some y.
Proof.
  revert i. induction n as [|n IH]; intros i Hi; [lia|].
  destruct i as [|i]; cbn; [done|]. apply IH. lia.
Qed.

(** Ten times (here [k] times) a new list [[c[0]]]. *)
Lemma gen_copies_spec (k : nat) (s : store) (c : nat) (x : Z) :
  lists s !! c = Some [x] ->
  gen_copies c k s =
  (extend_lists s (repeat [x] k), inr (seq (length (lists s)) k)).
Proof.
  revert s. induction k as [|k IH]; intros s Hc; cbn [gen_copies repeat seq].
  - unfold ret. by rewrite extend_lists_nil.
  - unfold bind at 1, get_list. rewrite Hc.
    unfold bind at 1. cbn [PyList.getitem lift]. unfold ret at 1.
    change (PyList.getitem [x] 0) with (inr (A := exn) x). cbn [lift].
    unfold ret at 1. unfold bind at 1, alloc_list.
    unfold bind at 1.
    change {| lists := lists s ++ [[x]]; insts := insts s;
              entropy := entropy s; cursor := cursor s |}
      with (extend_lists s [[x]]).
    rewrite IH by (cbn; by apply lookup_app_l_Some).
    unfold ret. rewrite extend_lists_app. cbn [app].
    cbn [lists extend_lists]. rewrite length_app, Nat.add_1_r. done.
Qed.

Lemma gen_spec (s : store) (c : nat) (l : list Z) :
  lists s !! c = Some l ->
  gen c s =
  if (length l =? 1)%nat
  then (extend_lists s (repeat l 10), inr (seq (length (lists s)) 10))
  else (s, inr [c]).
Proof.
  intros Hc. unfold gen, bind, get_list. rewrite Hc.
  destruct (Nat.eqb_spec (length l) 1) as [H1|H1]; [|done].
  destruct l as [|x [|y l]]; try discriminate.
  by apply gen_copies_spec.
Qed.

Lemma norm_gen_spec (cs : list nat) (s : store) :
  Forall (fun c => (c < length (lists s))%nat) cs ->
  exists ext ws,
    norm (map gen cs) s = (extend_lists s ext, inr ws) /\
    map (digits_at (extend_lists s ext)) ws =
      fair_combinations_spec (map (digits_at s) cs) /\
    Forall (fair_element s cs ext) ws.
Proof.
  revert s. induction cs as [|c cs IH]; intros s Hcs.
  - exists [], []. cbn. unfold ret. by rewrite extend_lists_nil.
  - apply Forall_cons in Hcs as [Hc Hcs].
    destruct (lookup_lt_is_Some_2 _ _ Hc) as [l Hl].
    cbn [map norm]. unfold bind at 1. rewrite (gen_spec _ _ _ Hl).
    assert (Hd : digits_at s c = l) by (unfold digits_at; by rewrite Hl).
    cbn [fair_combinations_spec flat_map]. unfold fair_entry at 1.
    rewrite Hd.
    destruct (Nat.eqb_spec (length l) 1) as [H1|H1].
    + (* ten copies *)
      destruct l as [|x [|y l]]; try discriminate.
      set (e1 := repeat [x] 10).
      destruct (IH (extend_lists s e1)) as (ext & ws & Hrun & Hmap & Hall).
      { eapply Forall_impl; [exact Hcs|]. intros c' Hc'. cbn beta in Hc'.
        cbn [lists extend_lists]. rewrite length_app. lia. }
      exists (e1 ++ ext), (seq (length (lists s)) 10 ++ ws).
      unfold bind at 1. rewrite Hrun. unfold ret.
      rewrite extend_lists_app. split; [done|].
      rewrite extend_lists_app in Hmap.
      assert (Hold : forall c', (c' < length (lists s))%nat ->
                digits_at (extend_lists s e1) c' = digits_at s c')
        by (intros; by apply digits_at_extend).
      split.
      * rewrite map_app. f_equal.
        -- apply map_seq_const. intros w Hw.
           unfold digits_at. cbn [lists extend_lists].
           rewrite lookup_app_r by lia.
           rewrite lookup_app_l by (subst e1; rewrite repeat_length; lia).
           subst e1. rewrite lookup_repeat by lia. done.
        -- rewrite Hmap. unfold fair_combinations_spec. f_equal.
           apply map_ext_in. intros c' Hc'%list_elem_of_In.
           apply Hold. by eapply Forall_forall in Hcs.
      * apply Forall_app. split.
        -- apply Forall_forall. intros w Hw%elem_of_seq. right.
           split; [lia|]. exists c, x. split; [left|]. split; [done|].
           rewrite app_assoc, lookup_app_l
             by (rewrite length_app; subst e1; rewrite repeat_length; lia).
           rewrite lookup_app_r by lia. subst e1.
           apply lookup_repeat. lia.
        -- eapply Forall_impl; [exact Hall|]. intros w [[Hw Hlen]|[Hge Hw]].
           ++ left. split; [by right|].
              rewrite <- Hold; [done|]. by eapply Forall_forall in Hcs.
           ++ right. cbn [lists extend_lists] in *.
              rewrite length_app in Hge. split; [lia|].
              destruct Hw as (c' & x' & Hc' & Hx' & Hw).
              exists c', x'. split; [by right|].
              rewrite <- app_assoc in Hw. split; [|done].
              rewrite lookup_app_l in Hx'; [done|].
              by eapply Forall_forall in Hcs.
    + (* the entry itself *)
      destruct (IH s Hcs) as (ext & ws & Hrun & Hmap & Hall).
      exists ext, (c :: ws).
      unfold bind at 1. rewrite Hrun. unfold ret. split; [done|]. split.
      * cbn [map app]. f_equal; [|done].
        rewrite digits_at_extend by done. done.
      * constructor.
        -- left. split; [left|]. by rewrite Hd.
        -- eapply Forall_impl; [exact Hall|]. intros w [[Hw Hlen]|[Hge Hw]].
           ++ left. split; [by right|done].
           ++ right. split; [done|].
              destruct Hw as (c' & x' & Hc' & Hx' & Hw).
              exists c', x'. split; [by right|done].
Qed.

Lemma catalogue_extend (s : store) (ext : list (list Z)) :
  (13 <= length (lists s))%nat ->
  catalogue (extend_lists s ext) = catalogue s.
Proof.
  intros Hlen. unfold catalogue. apply map_ext_in. intros c Hc%in_seq.
  apply digits_at_extend. lia.
Qed.

Lemma _COMBINATIONS_in_store (s : store) :
  (13 <= length (lists s))%nat ->
  Forall (fun c => (c < length (lists s))%nat) _COMBINATIONS.
Proof.
  intros Hlen. apply Forall_forall. intros c Hc%elem_of_seq. lia.
Qed.

(** C8.  On the catalogue of the literal, [_fair_combinations] returns 58
    elements which read, in catalogue order, as ten copies of each of [1],
    [2], [5], [6] and [8] and one copy of each of the eight two-digit
    prefixes: the expansion that the specification describes. *)
Theorem fair_combinations_expansion (s : store) :
  catalogue s = COMBINATIONS_literal ->
  exists s' comb,
    _fair_combinations s = (s', inr comb) /\
    map (digits_at s') comb =
      repeat [1] 10 ++ repeat [2] 10 ++ repeat [5] 10 ++ repeat [6] 10 ++
      [[7; 0]; [7; 1]; [7; 7]; [7; 9]] ++ repeat [8] 10 ++
      [[9; 0]; [9; 1]; [9; 8]; [9; 9]] /\
    map (digits_at s') comb = fair_combinations_spec COMBINATIONS_literal /\
    length comb = 58%nat.
Proof.
  intros Hcat. pose proof (catalogue_literal_length s Hcat) as Hlen.
  destruct (norm_gen_spec _COMBINATIONS s (_COMBINATIONS_in_store s Hlen))
    as (ext & ws & Hrun & Hmap & _).
  fold (catalogue s) in Hmap. rewrite Hcat in Hmap.
  exists (extend_lists s ext), ws. repeat split; [done | by rewrite Hmap | done |].
  apply (f_equal (@length _)) in Hmap. by rewrite length_map in Hmap.
Qed.

Lemma fair_combinations_expansion_witness :
  exists s' comb,
    _fair_combinations (init_store (fun _ => 0%nat)) = (s', inr comb) /\
    map (digits_at s') comb =
      repeat [1] 10 ++ repeat [2] 10 ++ repeat [5] 10 ++ repeat [6] 10 ++
      [[7; 0]; [7; 1]; [7; 7]; [7; 9]] ++ repeat [8] 10 ++
      [[9; 0]; [9; 1]; [9; 8]; [9; 9]] /\
    map (digits_at s') comb = fair_combinations_spec COMBINATIONS_literal /\
    length comb = 58%nat.
Proof.
  apply (fair_combinations_expansion (init_store (fun _ => 0%nat))).
  reflexivity.
Defined.

(** C6, on the code: one [generate()] whose first draw picks the element 40
    of the fairness list, which is the catalogue's own [[7, 0]], leaves the
    catalogue with the nine digits 7 0 4 4 4 4 4 4 5 in that entry; from then
    on [is_valid] turns down 700000003, which it accepted before. *)
Theorem generate_rewrites_catalogue :
  let s0 := init_store (fun _ => 40%nat) in
  let s := fst ((let! n := Nif 0 ANone false in generate n) s0) in
  catalogue s0 = COMBINATIONS_literal /\
  catalogue s =
    [[1]; [2]; [5]; [6]; [7; 0; 4; 4; 4; 4; 4; 4; 5]; [7; 1]; [7; 7]; [7; 9];
     [8]; [9; 0]; [9; 1]; [9; 8]; [9; 9]] /\
  catalogue s <> COMBINATIONS_literal /\
  snd ((let! n := Nif 0 (AStr "700000003") false in is_valid 0 n) s0)
    = inr true /\
  snd ((let! n := Nif 0 (AStr "700000003") false in is_valid 0 n) s)
    = inr false.
Proof.
  split; [reflexivity|]. split; [by vm_compute|]. split; [by vm_compute|].
  split; by vm_compute.
Qed.

(** ** The invariant of the class *)

(** The invariant reads the list objects and the instances only. *)
Lemma wf_same (s s' : store) :
  lists s' = lists s -> insts s' = insts s -> wf s -> wf s'.
Proof.
  destruct s as [ls os e c], s' as [ls' os' e' c']. cbn. intros -> ->.
  exact (fun H => H).
Qed.

Lemma private_same (s s' : store) (a : nat) :
  insts s' = insts s -> private s a -> private s' a.
Proof.
  intros Hi [Hlt | (self & o & bl & Ho & Hb & Ha)]; [by left|].
  right. exists self, o, bl. by rewrite Hi.
Qed.

Lemma wf_init (rng : nat -> nat) : wf (init_store rng).
Proof.
  split; [|split].
  - split; [cbn; lia|]. split.
    + intros k Hk. unfold single_addrs in Hk. elem_cases Hk; reflexivity.
    + intros k Hk. unfold pair_addrs in Hk.
      elem_cases Hk; (eexists; split; [reflexivity | cbn; lia]).
  - intros self o bl Ho. by cbn in Ho.
  - intros a (self & o & Ho & _). by cbn in Ho.
Qed.

Lemma frame_refl (s : store) : frame s s.
Proof. by repeat split. Qed.

Lemma frame_trans (s0 s1 s2 : store) :
  frame s0 s1 -> frame s1 s2 -> frame s0 s2.
Proof.
  intros (Hi1 & Hl1 & H1) (Hi2 & Hl2 & H2). repeat split; [congruence..|].
  intros a Ha. rewrite H2, H1; [done..|]. by apply (private_same s0).
Qed.

Lemma frame_set_digits (s : store) (a : nat) (l : list Z) :
  ~ private s a -> frame s (set_digits s a l).
Proof.
  intros Ha. repeat split; cbn; [by rewrite length_insert|].
  intros a' Ha'. apply list_lookup_insert_ne. by intros ->.
Qed.

(** Changing public list objects keeps the invariant. *)
Lemma wf_frame (s0 s : store) : wf s0 -> frame s0 s -> wf s.
Proof.
  intros (Hcat & Hbal & Hown) (Hi & Hl & Hsame).
  assert (Hpriv : forall a, private s a <-> private s0 a).
  { intros a. split; apply private_same; congruence. }
  split; [|split].
  - destruct Hcat as (Hlen & Hsingle & Hpair). split; [lia|]. split.
    + intros k Hk. rewrite Hsame; [by apply Hsingle|]. left.
      unfold single_addrs in Hk. elem_cases Hk; lia.
    + intros k Hk. rewrite Hsame; [by apply Hpair|]. left.
      unfold pair_addrs in Hk. elem_cases Hk; lia.
  - intros self o bl Ho Hb. rewrite Hi in Ho.
    destruct (Hbal self o bl Ho Hb) as [Hne Hall]. split; [done|].
    apply Forall_forall. intros a Ha.
    eapply Forall_forall in Hall; [|exact Ha].
    destruct Hall as [Hp | (Hge & d & rest & Hd & Hs)]; [by left|].
    right. split; [done|]. exists d, rest. split; [|done].
    rewrite Hsame; [done|]. right. by exists self, o, bl.
  - intros a (self & o & Ho & Hr). rewrite Hi in Ho.
    destruct (Hown a) as [Hlt Hnp]; [by exists self, o|].
    split; [lia|]. by rewrite Hpriv.
Qed.

(** ** The writing methods change public list objects only *)

Section Frame.

Variable s0 : store.
Hypothesis Hwf : wf s0.

Lemma in_frame_bind {A B} (m : M A) (k : A -> M B) :
  in_frame s0 m -> (forall x, in_frame s0 (k x)) -> in_frame s0 (bind m k).
Proof. intros Hm Hk. eapply triple_bind; [exact Hm | exact Hk]. Qed.

Lemma in_frame_pure {A} (m : M A) :
  (forall s, fst (m s) = s) -> in_frame s0 m.
Proof.
  intros Hm s Hs. specialize (Hm s).
  destruct (m s) as [s' [e|x]]; cbn in Hm; by subst.
Qed.

(** [self._nif], when it is a list, is a public one. *)
Lemma attr_nif_frame (self : nat) :
  triple (frame s0) (attr_nif self)
    (fun r s => frame s0 s /\ forall a, r = RList a -> ~ private s0 a)
    (fun _ => frame s0).
Proof.
  intros s Hs. unfold attr_nif, bind, get_inst.
  destruct (insts s !! self) as [o|] eqn:Ho; [|done].
  cbn [ret]. split; [done|]. intros a Ha.
  destruct Hwf as (_ & _ & Hown). apply Hown.
  exists self, o. destruct Hs as (Hi & _). by rewrite <- Hi.
Qed.

Lemma put_list_frame (a : nat) (l : list Z) :
  ~ private s0 a -> in_frame s0 (put_list a l).
Proof.
  intros Ha s Hs. cbn. eapply frame_trans; [exact Hs|].
  apply frame_set_digits. intros Hp. apply Ha.
  destruct Hs as (Hi & _). by apply (private_same s).
Qed.

Lemma get_list_frame (a : nat) : in_frame s0 (get_list a).
Proof. apply in_frame_pure. intros s. unfold get_list. by destruct (lists s !! a). Qed.

Lemma subscript_store_frame (setitem : nat -> assignment -> M unit)
    (r : ref) (asg : assignment) :
  (forall n asg', in_frame s0 (setitem n asg')) ->
  (forall a, r = RList a -> ~ private s0 a) ->
  in_frame s0 (subscript_store setitem r asg).
Proof.
  intros Hrec Hr. destruct r as [a|n]; cbn [subscript_store]; [|apply Hrec].
  specialize (Hr a eq_refl).
  destruct asg as [i v|sl vs].
  - apply in_frame_bind; [apply get_list_frame|]. intros l.
    apply in_frame_bind; [|intros l'; by apply put_list_frame].
    apply in_frame_pure. intros s. by destruct (PyList.setitem l i v).
  - unfold list_setslice. apply in_frame_bind; [apply get_list_frame|].
    intros l. by apply put_list_frame.
Qed.

Lemma store_nif_frame (setitem : nat -> assignment -> M unit)
    (self : nat) (asg : assignment) :
  (forall n asg', in_frame s0 (setitem n asg')) ->
  in_frame s0 (let! r := attr_nif self in subscript_store setitem r asg).
Proof.
  intros Hrec s Hs. unfold bind.
  pose proof (attr_nif_frame self s Hs) as Ha.
  destruct (attr_nif self s) as [s1 [e|r]]; [exact Ha|].
  destruct Ha as [Hs1 Hr].
  exact (subscript_store_frame setitem r asg Hrec Hr s1 Hs1).
Qed.

Lemma fix_sum_via_frame (setitem : nat -> assignment -> M unit)
    (fuel self : nat) :
  (forall n asg', in_frame s0 (setitem n asg')) ->
  in_frame s0 (fix_sum_via setitem fuel self).
Proof.
  intros Hrec. unfold fix_sum_via.
  apply in_frame_bind; [apply in_frame_pure, eval_sum_store|].
  intros v. unfold set_sum_digit_via. by apply store_nif_frame.
Qed.

Lemma __setitem___frame (fuel self : nat) (asg : assignment) :
  in_frame s0 (__setitem__ fuel self asg).
Proof.
  revert self asg. induction fuel as [|fuel IH]; intros self asg.
  - apply in_frame_pure. by intros s.
  - assert (Hbody : in_frame s0
              (run! (let! r := attr_nif self in
                     subscript_store (__setitem__ fuel) r asg) in
               fix_sum_via (__setitem__ fuel) fuel self)).
    { apply in_frame_bind; [by apply store_nif_frame|].
      intros _. by apply fix_sum_via_frame. }
    destruct asg as [i v|sl vs]; cbn [__setitem__]; [exact Hbody|].
    destruct (start sl) as [st|]; [|apply in_frame_pure; by intros s].
    destruct ((- _BASE_LENGTH <? st) && (st <? _BASE_LENGTH));
      [exact Hbody | apply in_frame_pure; by intros s].
Qed.

Lemma fix_sum_frame (fuel self : nat) : in_frame s0 (fix_sum fuel self).
Proof. apply fix_sum_via_frame, __setitem___frame. Qed.

Lemma set_sum_digit_frame (fuel self : nat) (value : Z) :
  in_frame s0 (set_sum_digit fuel self value).
Proof. apply store_nif_frame, __setitem___frame. Qed.

End Frame.

(** A computation in the frame of its starting store keeps the invariant. *)
Lemma wf_in_frame {A} (m : M A) (s : store) :
  wf s -> in_frame s m -> wf (fst (m s)).
Proof.
  intros Hwf Hm. specialize (Hm s (frame_refl s)).
  destruct (m s) as [s' [e|x]]; by apply (wf_frame s).
Qed.


(** ** Allocation and attribute assignment under the invariant *)

Lemma entry_ok_lt (s : store) (a : nat) :
  catalogue_ok s -> entry_ok s a -> (a < length (lists s))%nat.
Proof.
  intros (Hlen & _) [Hp | (_ & d & rest & Hd & _)].
  - unfold pair_addrs in Hp. elem_cases Hp; lia.
  - by eapply lookup_lt_Some.
Qed.

Lemma entry_ok_not_13 (s : store) (a : nat) : entry_ok s a -> a <> 13%nat.
Proof.
  intros [Hp | (Hge & _)]; [|lia].
  unfold pair_addrs in Hp. elem_cases Hp; lia.
Qed.

(** A list object past the catalogue that no fairness list holds is
    public. *)
Lemma public_intro (s : store) (a : nat) :
  (13 <= a < length (lists s))%nat ->
  (forall self o bl, insts s !! self = Some o -> _balanced o = Some bl ->
                     a ∉ bl) ->
  public s a.
Proof.
  intros Ha Hbl. split; [lia|].
  intros [Hlt | (self & o & bl & Ho & Hb & Hin)]; [lia|].
  by apply (Hbl self o bl).
Qed.

Lemma wf_extend (s : store) (ext : list (list Z)) :
  wf s -> wf (extend_lists s ext).
Proof.
  intros (Hcat & Hbal & Hown). split; [|split].
  - destruct Hcat as (Hlen & Hsingle & Hpair).
    unfold catalogue_ok. cbn [lists extend_lists].
    split; [rewrite length_app; lia|]. split.
    + intros k Hk. rewrite lookup_app_l; [by apply Hsingle|].
      unfold single_addrs in Hk. elem_cases Hk; lia.
    + intros k Hk. rewrite lookup_app_l; [by apply Hpair|].
      unfold pair_addrs in Hk. elem_cases Hk; lia.
  - intros self o bl Ho Hb. destruct (Hbal self o bl Ho Hb) as [Hne Hall].
    split; [done|]. eapply Forall_impl; [exact Hall|].
    intros a [Hp | (Hge & d & rest & Hd & Hs)]; [by left|].
    right. split; [done|]. exists d, rest. split; [|done].
    cbn. by apply lookup_app_l_Some.
  - intros a Ha. destruct (Hown a Ha) as [Hlt Hnp].
    split; [cbn [lists extend_lists]; rewrite length_app; lia | exact Hnp].
Qed.

(** A fresh list object is public. *)
Lemma public_fresh (s : store) (l : list Z) :
  wf s -> public (extend_lists s [l]) (length (lists s)).
Proof.
  intros (Hcat & Hbal & _). apply public_intro.
  - cbn [lists extend_lists]. rewrite length_app. cbn [length].
    destruct Hcat as (Hlen & _). lia.
  - intros self o bl Ho Hb Hin. destruct (Hbal self o bl Ho Hb) as [_ Hall].
    eapply Forall_forall in Hall; [|exact Hin].
    pose proof (entry_ok_lt _ _ Hcat Hall). lia.
Qed.

(** [self._nif = r] with a public list, or a [Nif], for [r]. *)
Lemma wf_set_attr_nif (s : store) (self : nat) (o : instance) (r : ref) :
  wf s ->
  insts s !! self = Some o ->
  (forall a, r = RList a -> public s a) ->
  wf (set_inst s self {| _nif := r; _balanced := _balanced o |}).
Proof.
  intros (Hcat & Hbal & Hown) Ho Hr.
  assert (Hlook : forall self' o', insts (set_inst s self
                     {| _nif := r; _balanced := _balanced o |}) !! self' = Some o' ->
            exists o0, insts s !! self' = Some o0 /\
                       _balanced o' = _balanced o0 /\
                       (_nif o' = _nif o0 \/ (self' = self /\ _nif o' = r))).
  { intros self' o' Ho'. cbn in Ho'.
    destruct (decide (self' = self)) as [->|Hne].
    - rewrite list_lookup_insert_eq in Ho' by (by eapply lookup_lt_Some).
      injection Ho' as <-. exists o. cbn. auto.
    - rewrite list_lookup_insert_ne in Ho' by done. exists o'. auto. }
  assert (Hpriv : forall a, private (set_inst s self
                     {| _nif := r; _balanced := _balanced o |}) a -> private s a).
  { intros a [Hlt | (self' & o' & bl & Ho' & Hb & Hin)]; [by left|].
    destruct (Hlook _ _ Ho') as (o0 & Ho0 & Hb0 & _).
    right. exists self', o0, bl. by rewrite <- Hb0. }
  split; [exact Hcat|]. split.
  - intros self' o' bl Ho' Hb.
    destruct (Hlook _ _ Ho') as (o0 & Ho0 & Hb0 & _).
    apply (Hbal self' o0 bl Ho0). by rewrite <- Hb0.
  - intros a (self' & o' & Ho' & Ha).
    destruct (Hlook _ _ Ho') as (o0 & Ho0 & _ & [Hn | [-> Hn]]).
    + destruct (Hown a) as [Hlt Hnp]; [exists self', o0; by rewrite <- Hn|].
      split; [exact Hlt|]. intros Hp. by apply Hnp, Hpriv.
    + destruct (Hr a) as [Hlt Hnp]; [congruence|].
      split; [exact Hlt|]. intros Hp. by apply Hnp, Hpriv.
Qed.

(** [self._balanced = b] for a fairness list [b] whose elements no instance
    has as its [_nif]. *)
Lemma wf_set_balanced (s : store) (self : nat) (o : instance) (b : list nat) :
  wf s ->
  insts s !! self = Some o ->
  balanced_ok s b ->
  (forall a, owns_list s a -> a ∉ b) ->
  wf (set_inst s self {| _nif := _nif o; _balanced := Some b |}).
Proof.
  intros (Hcat & Hbal & Hown) Ho Hb Hdisj.
  assert (Hlook : forall self' o', insts (set_inst s self
                     {| _nif := _nif o; _balanced := Some b |}) !! self' = Some o' ->
            exists o0, insts s !! self' = Some o0 /\ _nif o' = _nif o0 /\
                       (_balanced o' = _balanced o0 \/ _balanced o' = Some b)).
  { intros self' o' Ho'. cbn in Ho'.
    destruct (decide (self' = self)) as [->|Hne].
    - rewrite list_lookup_insert_eq in Ho' by (by eapply lookup_lt_Some).
      injection Ho' as <-. exists o. cbn. auto.
    - rewrite list_lookup_insert_ne in Ho' by done. exists o'. auto. }
  split; [exact Hcat|]. split.
  - intros self' o' bl Ho' Hbl.
    destruct (Hlook _ _ Ho') as (o0 & Ho0 & _ & [Hb0 | Hb0]).
    + apply (Hbal self' o0 bl Ho0). by rewrite <- Hb0.
    + replace bl with b by congruence. exact Hb.
  - intros a (self' & o' & Ho' & Ha).
    destruct (Hlook _ _ Ho') as (o0 & Ho0 & Hn & _).
    assert (Hoa : owns_list s a) by (exists self', o0; by rewrite <- Hn).
    destruct (Hown a Hoa) as [Hlt Hnp]. split; [exact Hlt|].
    intros [Hlt13 | (self2 & o2 & bl & Ho2 & Hb2 & Hin)].
    + apply Hnp. by left.
    + destruct (Hlook _ _ Ho2) as (o3 & Ho3 & _ & [Hb3 | Hb3]).
      * apply Hnp. right. exists self2, o3, bl. by rewrite <- Hb3.
      * replace bl with b in Hin by congruence. by apply (Hdisj a).
Qed.

(** A new instance, which sees the class attribute [_nif]. *)
Lemma wf_alloc_inst (s : store) :
  wf s ->
  wf {| lists := lists s;
        insts := insts s ++ [{| _nif := RList class_nif; _balanced := None |}];
        entropy := entropy s; cursor := cursor s |}.
Proof.
  intros (Hcat & Hbal & Hown).
  set (s' := {| lists := lists s; insts := _; entropy := _; cursor := _ |}).
  assert (Hlook : forall self' o', insts s' !! self' = Some o' ->
            insts s !! self' = Some o' \/
            o' = {| _nif := RList class_nif; _balanced := None |}).
  { intros self' o' Ho'. subst s'. cbn in Ho'.
    apply lookup_app_Some in Ho' as [Ho' | [_ Ho']]; [by left|].
    right. destruct (self' - length (insts s))%nat; cbn in Ho'; [congruence|done]. }
  assert (Hpriv : forall a, private s' a -> private s a).
  { intros a [Hlt | (self' & o' & bl & Ho' & Hb & Hin)]; [by left|].
    destruct (Hlook _ _ Ho') as [Ho0 | ->]; [|done].
    right. by exists self', o', bl. }
  split; [exact Hcat|]. split.
  - intros self' o' bl Ho' Hb.
    destruct (Hlook _ _ Ho') as [Ho0 | ->]; [|done].
    by apply (Hbal self' o' bl).
  - intros a (self' & o' & Ho' & Ha).
    destruct (Hlook _ _ Ho') as [Ho0 | ->].
    + destruct (Hown a) as [Hlt Hnp]; [by exists self', o'|].
      split; [exact Hlt|]. intros Hp. by apply Hnp, Hpriv.
    + cbn in Ha. injection Ha as <-. unfold class_nif.
      split; [destruct Hcat as (Hlen & _); cbn; lia|].
      intros Hp. apply Hpriv in Hp as [Hlt | (self2 & o2 & bl & Ho2 & Hb2 & Hin)];
        [lia|].
      destruct (Hbal _ _ _ Ho2 Hb2) as [_ Hall].
      eapply Forall_forall in Hall; [|exact Hin].
      by apply entry_ok_not_13 in Hall.
Qed.

(** [generate] writing into the element it drew: the new contents keep the
    first digit and are at least two digits long. *)
Lemma wf_set_entry (s : store) (a : nat) (l l' : list Z) :
  wf s ->
  entry_ok s a ->
  lists s !! a = Some l ->
  (2 <= length l')%nat ->
  (forall d rest, l = d :: rest -> exists rest', l' = d :: rest') ->
  wf (set_digits s a l').
Proof.
  intros (Hcat & Hbal & Hown) Ha Hl Hlen' Hhd.
  pose proof (lookup_lt_Some _ _ _ Hl) as Hlt.
  assert (Hns : a ∉ single_addrs).
  { intros Hs. unfold single_addrs in Hs.
    destruct Ha as [Hp | (Hge & _)].
    - unfold pair_addrs in Hp. elem_cases Hp; elem_eqs Hs; lia.
    - elem_eqs Hs; lia. }
  split; [|split].
  - destruct Hcat as (Hlen & Hsingle & Hpair).
    unfold catalogue_ok. cbn [lists set_digits].
    split; [by rewrite length_insert|]. split.
    + intros k Hk. rewrite list_lookup_insert_ne; [by apply Hsingle|].
      by intros ->.
    + intros k Hk. destruct (decide (a = k)) as [->|Hne].
      * rewrite list_lookup_insert_eq by done. by exists l'.
      * rewrite list_lookup_insert_ne by done. by apply Hpair.
  - intros self o bl Ho Hb. destruct (Hbal self o bl Ho Hb) as [Hne Hall].
    split; [done|]. eapply Forall_impl; [exact Hall|].
    intros a' [Hp | (Hge & d & rest & Hd & Hs)]; [by left|].
    right. split; [done|]. cbn [lists set_digits].
    destruct (decide (a = a')) as [->|Hne'].
    + rewrite list_lookup_insert_eq by done.
      destruct (Hhd d rest) as [rest' ->]; [congruence|].
      by exists d, rest'.
    + rewrite list_lookup_insert_ne by done. by exists d, rest.
  - intros a' Ha'. destruct (Hown a' Ha') as [Hlt' Hnp].
    split; [cbn; by rewrite length_insert | exact Hnp].
Qed.

(** ** Random draws *)

Lemma advance_0 (s : store) : advance s 0 = s.
Proof. by destruct s. Qed.

Lemma advance_advance (s : store) (j k : nat) :
  advance (advance s j) k = advance s (j + k).
Proof. unfold advance. cbn. f_equal. lia. Qed.

Lemma rand_spec (n : Z) (s : store) :
  0 < n ->
  exists d, rand n s = (advance s 1, inr d) /\ 0 <= d < n.
Proof.
  intros Hn. unfold rand. destruct (Z.leb_spec n 0); [lia|].
  eexists. split; [reflexivity|]. by apply Z.mod_pos_bound.
Qed.

(** [[rand(n) for _ in range(k)]] returns [k] integers of [[0, n)]. *)
Lemma rand_list_spec (n : Z) (k : nat) (s : store) :
  0 < n ->
  exists ds, rand_list n k s = (advance s k, inr ds) /\
             length ds = k /\ Forall (fun d => 0 <= d < n) ds.
Proof.
  intros Hn. revert s. induction k as [|k IH]; intros s; cbn [rand_list].
  - exists []. unfold ret. by rewrite advance_0.
  - destruct (rand_spec n s Hn) as (d & Hd & Hrange).
    destruct (IH (advance s 1)) as (ds & Hds & Hlen & Hall).
    exists (d :: ds). unfold bind. rewrite Hd, Hds. unfold ret.
    rewrite advance_advance. cbn [Nat.add length].
    split; [done|]. split; [by rewrite Hlen | by constructor].
Qed.

(** ** [generate] under the invariant *)

Lemma list_setslice_run (s : store) (a : nat) (l : list Z) sl vs :
  lists s !! a = Some l ->
  list_setslice a sl vs s = (set_digits s a (PyList.setslice l sl vs), inr tt).
Proof. intros Hl. unfold list_setslice, bind, get_list. by rewrite Hl. Qed.

Lemma lists_set_digits_eq (s : store) (a : nat) (l l' : list Z) :
  lists s !! a = Some l -> lists (set_digits s a l') !! a = Some l'.
Proof.
  intros Hl. cbn. apply list_lookup_insert_eq. by eapply lookup_lt_Some.
Qed.

Lemma entry_ok_lookup (s : store) (a : nat) :
  catalogue_ok s -> entry_ok s a ->
  exists l, lists s !! a = Some l /\ (1 <= length l)%nat.
Proof.
  intros (_ & _ & Hpair) [Hp | (_ & d & rest & Hd & _)].
  - destruct (Hpair a Hp) as (l & Hl & Hlen). exists l. split; [done|lia].
  - exists (d :: rest). split; [done|cbn; lia].
Qed.

(** The second step of [generate]: some element [nif] of the fairness list,
    holding [l], is extended in place by [8 - len(l)] draws of [rand(9)]
    (none when [l] is already that long) and closed with the checksum. *)
Lemma draw_spec (s : store) (comb : list nat) :
  catalogue_ok s ->
  balanced_ok s comb ->
  exists nif l ds,
    draw comb s =
      (set_digits (advance s (1 + length ds)) nif (with_sum (l ++ ds)),
       inr nif) /\
    nif ∈ comb /\
    lists s !! nif = Some l /\
    length ds = Z.to_nat (_BASE_LENGTH - Z.of_nat (length l)) /\
    Forall (fun d => 0 <= d < 9) ds.
Proof.
  intros Hcat [Hne Hall].
  assert (Hlen : 0 < Z.of_nat (length comb)) by (destruct comb; [done|cbn; lia]).
  destruct (rand_spec _ s Hlen) as (k & Hk & Hrange).
  destruct (lookup_lt_is_Some_2 comb (Z.to_nat k)) as [nif Hnif]; [lia|].
  assert (Hin : nif ∈ comb) by (by eapply list_elem_of_lookup_2).
  eapply Forall_forall in Hall; [|exact Hin].
  destruct (entry_ok_lookup s nif Hcat Hall) as (l & Hl & _).
  destruct (rand_list_spec 9 (Z.to_nat (_BASE_LENGTH - Z.of_nat (length l)))
              (advance s 1)) as (ds & Hds & Hdslen & Hdsall); [lia|].
  exists nif, l, ds. split; [|done].
  unfold draw. unfold bind at 1. rewrite Hk.
  unfold bind at 1. rewrite Hnif. unfold ret at 1.
  unfold bind at 1, get_list at 1. cbn [lists advance]. rewrite Hl.
  unfold bind at 1. rewrite Hds.
  rewrite advance_advance, <- Hdslen.
  set (s1 := advance s (1 + length ds)).
  assert (Hl1 : lists s1 !! nif = Some l) by exact Hl.
  unfold bind at 1. rewrite (list_setslice_run _ _ _ _ _ Hl1).
  rewrite PyListFacts.setslice_end.
  pose proof (lists_set_digits_eq _ _ _ (l ++ ds) Hl1) as Hl2.
  unfold bind at 1, get_list at 1. rewrite Hl2.
  unfold bind at 1. rewrite (list_setslice_run _ _ _ _ _ Hl2).
  unfold _BASE_LENGTH. rewrite PyListFacts.setslice_suffix by lia.
  unfold ret. by rewrite set_digits_twice.
Qed.

Lemma addr_cases (k : nat) :
  (k < 13)%nat -> k ∈ single_addrs \/ k ∈ pair_addrs.
Proof.
  intros Hk.
  assert (Hc : k ∈ seq 0 13) by (apply elem_of_seq; lia).
  cbn in Hc. elem_cases Hc;
    first [ left; apply list_elem_of_In; cbn; tauto
          | right; apply list_elem_of_In; cbn; tauto ].
Qed.

(** The only length-1 entries of the catalogue are the one-digit prefixes of
    the literal. *)
Lemma catalogue_single (s : store) (c : nat) (x : Z) :
  catalogue_ok s -> (c < 13)%nat -> lists s !! c = Some [x] ->
  c ∈ single_addrs /\ x ∈ single_digits.
Proof.
  intros (_ & Hsingle & Hpair) Hc Hx.
  destruct (addr_cases c Hc) as [Hs | Hp].
  - split; [done|]. pose proof (Hsingle c Hs) as Hlit. rewrite Hx in Hlit.
    unfold single_addrs in Hs.
    elem_cases Hs; cbn in Hlit; injection Hlit as ->;
      apply list_elem_of_In; cbn; tauto.
  - destruct (Hpair c Hp) as (l & Hl & Hlen).
    rewrite Hx in Hl. injection Hl as <-. cbn in Hlen. lia.
Qed.

Lemma single_in_catalogue (s : store) (d : Z) :
  catalogue_ok s -> d ∈ single_digits -> In [d] (catalogue s).
Proof.
  intros (_ & Hsingle & _) Hd.
  assert (Hk : exists k, k ∈ single_addrs /\ COMBINATIONS_literal !! k = Some [d]).
  { unfold single_digits in Hd.
    elem_cases Hd;
      [exists 0%nat | exists 1%nat | exists 2%nat | exists 3%nat | exists 8%nat];
      (split; [apply list_elem_of_In; cbn; tauto | reflexivity]). }
  destruct Hk as (k & Hk & Hlit). rewrite <- (Hsingle k Hk) in Hlit.
  unfold catalogue. apply in_map_iff. exists k. split.
  - unfold digits_at. by rewrite Hlit.
  - apply in_seq. unfold single_addrs in Hk. elem_cases Hk; lia.
Qed.

Lemma fair_combinations_spec_nonempty (x : list Z) (cat : list (list Z)) :
  fair_combinations_spec (x :: cat) <> [].
Proof.
  unfold fair_combinations_spec. cbn [flat_map]. unfold fair_entry.
  by destruct (length x =? 1)%nat.
Qed.

(** The fairness list computed under the invariant is a good one, and no
    instance has one of its elements as [_nif]. *)
Lemma fair_elements_ok (s : store) (ext : list (list Z)) (ws : list nat) :
  wf s ->
  Forall (fair_element s _COMBINATIONS ext) ws ->
  Forall (entry_ok (extend_lists s ext)) ws /\
  (forall a, owns_list s a -> a ∉ ws).
Proof.
  intros (Hcat & Hbal & Hown) Hall. split.
  - eapply Forall_impl; [exact Hall|].
    intros w [[Hw Hlen] | (Hge & c & x & Hc & Hx & Hw)].
    + left. apply elem_of_seq in Hw.
      destruct (addr_cases w) as [Hs | Hp]; [lia| |done].
      exfalso. apply Hlen. destruct Hcat as (_ & Hsingle & _).
      unfold digits_at. rewrite (Hsingle w Hs).
      unfold single_addrs in Hs. elem_cases Hs; reflexivity.
    + right. split; [destruct Hcat as (H14 & _); lia|].
      exists x, []. split; [exact Hw|].
      apply elem_of_seq in Hc.
      apply (catalogue_single s c x Hcat); [lia|done].
  - intros a Ha Hin. destruct (Hown a Ha) as [Hlt Hnp].
    eapply Forall_forall in Hall; [|exact Hin].
    destruct Hall as [[Hw _] | (Hge & _)]; [|lia].
    apply Hnp. left. apply elem_of_seq in Hw. lia.
Qed.

(** The first step of [generate]: afterwards the instance has its fairness
    list. *)
Lemma balanced_spec (s : store) (self : nat) (o : instance) :
  wf s ->
  insts s !! self = Some o ->
  exists s1 comb o1,
    balanced self s = (s1, inr comb) /\
    wf s1 /\
    insts s1 !! self = Some o1 /\ _balanced o1 = Some comb /\
    cursor s1 = cursor s /\ entropy s1 = entropy s.
Proof.
  intros Hwf Ho. unfold balanced, bind at 1, get_inst. rewrite Ho.
  destruct (_balanced o) as [comb|] eqn:Hb.
  - exists s, comb, o. split; [reflexivity|]. by split.
  - pose proof Hwf as (Hcat & _).
    destruct (norm_gen_spec _COMBINATIONS s) as (ext & ws & Hrun & Hmap & Hall).
    { apply _COMBINATIONS_in_store. destruct Hcat as (H14 & _). lia. }
    destruct (fair_elements_ok s ext ws Hwf Hall) as [Hok Hdisj].
    unfold bind at 1. unfold _fair_combinations. rewrite Hrun.
    unfold bind, put_inst, ret. cbn [lists insts entropy cursor extend_lists].
    eexists _, ws, _. split; [reflexivity|].
    assert (Hself : (self < length (insts s))%nat) by (by eapply lookup_lt_Some).
    split; [|cbn; rewrite list_lookup_insert_eq by done; by split].
    apply (wf_set_balanced (extend_lists s ext) self o ws).
    + by apply wf_extend.
    + exact Ho.
    + split; [|exact Hok]. intros ->. cbn [map] in Hmap.
      symmetry in Hmap. revert Hmap.
      apply (fair_combinations_spec_nonempty (digits_at s 0)).
    + exact Hdisj.
Qed.

Lemma rule2_intro (cat : list (list Z)) (y l : list Z) :
  In y cat -> String.prefix (join_str y) (join_str l) = true ->
  rule2 cat l = true.
Proof. intros Hy Hp. apply existsb_exists. by exists y. Qed.

Lemma with_sum_head (d : Z) (rest : list Z) :
  exists rest', with_sum (d :: rest) = d :: rest'.
Proof. unfold with_sum. cbn [take app]. eauto. Qed.

(** What [generate] leaves behind. *)
Lemma generate_spec (s : store) (self : nat) (o : instance) :
  wf s ->
  insts s !! self = Some o ->
  exists s' a l,
    generate self s = (s', inr tt) /\
    wf s' /\
    list_backed s' self a l /\
    valid_digits (catalogue s') l = true /\
    exists l0 ds,
      l = with_sum (l0 ++ ds) /\
      length ds = Z.to_nat (_BASE_LENGTH - Z.of_nat (length l0)) /\
      Forall (fun d => 0 <= d < 9) ds.
Proof.
  intros Hwf Ho.
  destruct (balanced_spec s self o Hwf Ho)
    as (s1 & comb & o1 & Hbal & Hwf1 & Ho1 & Hcomb & _).
  pose proof Hwf1 as (Hcat1 & Hbal1 & _).
  pose proof (Hbal1 self o1 comb Ho1 Hcomb) as Hok.
  destruct (draw_spec s1 comb Hcat1 Hok)
    as (nif & l & ds & Hdraw & Hin & Hl & Hdslen & Hdsall).
  set (l2 := with_sum (l ++ ds)) in *.
  set (s2 := set_digits (advance s1 (1 + length ds)) nif l2) in *.
  (* the drawn list *)
  assert (Hentry : entry_ok s1 nif).
  { destruct Hok as [_ Hall]. by eapply Forall_forall in Hall. }
  assert (Hlong : (8 <= length (l ++ ds))%nat).
  { rewrite length_app, Hdslen. unfold _BASE_LENGTH. lia. }
  destruct (with_sum_consistent (l ++ ds) Hlong) as [H9 H8]. fold l2 in H9, H8.
  assert (Hwf2 : wf s2).
  { apply (wf_set_entry (advance s1 (1 + length ds)) nif l l2).
    - by apply (wf_same s1).
    - exact Hentry.
    - exact Hl.
    - lia.
    - intros d rest ->. apply with_sum_head. }
  assert (Hl2 : lists s2 !! nif = Some l2)
    by (by apply (lists_set_digits_eq _ _ l)).
  pose proof Hwf2 as (Hcat2 & _).
  assert (Hrule2 : rule2 (catalogue s2) l2 = true).
  { destruct Hentry as [Hp | (Hge & d & rest & Hd & Hs)].
    - apply (rule2_intro _ l2); [|apply prefix_refl].
      unfold catalogue. apply in_map_iff. exists nif. split.
      + unfold digits_at. by rewrite Hl2.
      + apply in_seq. unfold pair_addrs in Hp. elem_cases Hp; lia.
    - apply (rule2_intro _ [d]); [by apply single_in_catalogue|].
      assert (Hd' : l = d :: rest) by congruence.
      destruct (with_sum_head d (rest ++ ds)) as [rest' Hrest].
      subst l2. rewrite Hd'. cbn [app]. rewrite Hrest.
      rewrite (join_str_cons d rest'). apply prefix_app. }
  (* the copy *)
  set (copy := length (lists s2)).
  set (s3 := extend_lists s2 [l2]).
  assert (Ho3 : insts s3 !! self = Some o1) by exact Ho1.
  set (s4 := set_inst s3 self {| _nif := RList copy; _balanced := _balanced o1 |}).
  exists s4, copy, l2.
  assert (Hself : (self < length (insts s3))%nat) by (by eapply lookup_lt_Some).
  split; [|split; [|split; [|split; [|by exists l, ds]]]].
  - unfold generate. unfold bind at 1. rewrite Hbal.
    unfold bind at 1. rewrite Hdraw.
    unfold bind at 1, get_list. fold s2. rewrite Hl2.
    unfold bind, alloc_list, set_attr_nif, bind, get_inst.
    cbn [lists insts entropy cursor].
    change (insts s2) with (insts s3). by rewrite Ho3.
  - apply wf_set_attr_nif; [by apply wf_extend | exact Ho3 |].
    intros a [= <-]. by apply public_fresh.
  - exists {| _nif := RList copy; _balanced := _balanced o1 |}.
    split; [|split; [reflexivity|]].
    + cbn. by apply list_lookup_insert_eq.
    + cbn. subst copy. by rewrite lookup_app_r, Nat.sub_diag.
  - assert (Hc4 : catalogue s4 = catalogue s2).
    { apply (catalogue_extend s2 [l2]). destruct Hcat2 as (H14 & _). lia. }
    unfold valid_digits. rewrite Hc4, Hrule2, H9.
    cbn [andb]. change (Z.of_nat 9 =? _BASE_LENGTH + 1) with true. cbn [andb].
    apply Z.eqb_eq. rewrite (nth_lookup_Some _ _ 0 _ H8).
    apply _eval_sum_take.
Qed.

(** ** Every run keeps the invariant *)

Lemma wf_advance (s : store) (k : nat) : wf s -> wf (advance s k).
Proof. by apply wf_same. Qed.

Lemma generate_wf (s : store) (self : nat) :
  wf s -> wf (fst (generate self s)).
Proof.
  intros Hwf. destruct (insts s !! self) as [o|] eqn:Ho.
  - destruct (generate_spec s self o Hwf Ho) as (s' & a & l & -> & Hwf' & _).
    exact Hwf'.
  - unfold generate, bind at 1, balanced, bind at 1, get_inst. by rewrite Ho.
Qed.

Lemma keeps_wf_bind {A B} (m : M A) (k : A -> M B) :
  keeps_wf m -> (forall x, keeps_wf (k x)) -> keeps_wf (bind m k).
Proof. intros Hm Hk. eapply triple_bind; [exact Hm | exact Hk]. Qed.

Lemma keeps_wf_pure {A} (m : M A) :
  (forall s, fst (m s) = s) -> keeps_wf m.
Proof.
  intros Hm s Hs. specialize (Hm s).
  destruct (m s) as [s' [e|x]]; cbn in Hm; by subst.
Qed.

Lemma keeps_wf_frame {A} (m : M A) :
  (forall s0, wf s0 -> in_frame s0 m) -> keeps_wf m.
Proof.
  intros Hm s Hs. specialize (Hm s Hs s (frame_refl s)).
  destruct (m s) as [s' [e|x]]; by apply (wf_frame s).
Qed.

Lemma keeps_wf_fst {A} (m : M A) (s : store) :
  keeps_wf m -> wf s -> wf (fst (m s)).
Proof. intros Hm Hs. specialize (Hm s Hs). by destruct (m s) as [s' [e|x]]. Qed.

Lemma attr_nif_store (self : nat) (s : store) : fst (attr_nif self s) = s.
Proof.
  unfold attr_nif, bind, get_inst. by destruct (insts s !! self).
Qed.

Lemma len_store (r : ref) (s : store) : fst (len r s) = s.
Proof.
  destruct r as [a|n]; [|done]. unfold len, bind, get_list.
  by destruct (lists s !! a).
Qed.

Lemma rand_list_keeps_wf (k : nat) : keeps_wf (rand_list 9 k).
Proof.
  intros s Hs. destruct (rand_list_spec 9 k s) as (ds & -> & _); [lia|].
  by apply wf_advance.
Qed.

Lemma store_nif_keeps_wf (fuel self : nat) (asg : assignment) :
  keeps_wf (let! r := attr_nif self in
            subscript_store (__setitem__ fuel) r asg).
Proof.
  apply keeps_wf_frame. intros s0 Hs0.
  apply store_nif_frame; [done|]. intros n asg'. by apply __setitem___frame.
Qed.

(** The fill mode keeps the invariant. *)
Lemma fill_keeps_wf (fuel self : nat) : keeps_wf (fill_digits fuel self).
Proof.
  unfold fill_digits.
  apply keeps_wf_bind; [apply keeps_wf_pure, attr_nif_store|]. intros r.
  apply keeps_wf_bind; [apply keeps_wf_pure, len_store|]. intros n.
  apply keeps_wf_bind.
  - destruct (n <? 8); [|by apply keeps_wf_pure].
    apply keeps_wf_bind; [apply rand_list_keeps_wf|]. intros ds.
    apply store_nif_keeps_wf.
  - intros _. destruct (n <? 9); [|by apply keeps_wf_pure].
    apply keeps_wf_bind; [apply keeps_wf_pure, eval_sum_store|]. intros v.
    apply store_nif_keeps_wf.
Qed.

Lemma public_alloc_inst (s : store) (a : nat) :
  public s a ->
  public {| lists := lists s;
            insts := insts s ++ [{| _nif := RList class_nif; _balanced := None |}];
            entropy := entropy s; cursor := cursor s |} a.
Proof.
  intros [Hlt Hnp]. split; [exact Hlt|].
  intros [H13 | (self & o & bl & Ho & Hb & Hin)]; apply Hnp; [by left|].
  cbn in Ho. apply lookup_app_Some in Ho as [Ho | [_ Ho]].
  - right. by exists self, o, bl.
  - destruct (self - length (insts s))%nat; cbn in Ho; [|done].
    injection Ho as <-. done.
Qed.

(** The constructor keeps the invariant, when the list it is given (if it
    is given one) is a public one. *)
Lemma Nif_wf (s : store) (fuel : nat) (num : arg) (fill : bool) :
  wf s ->
  (forall a, num = AList a -> public s a) ->
  wf (fst (Nif fuel num fill s)).
Proof.
  intros Hwf Hnum. unfold Nif, bind at 1, alloc_inst.
  set (s1 := {| lists := lists s; insts := _; entropy := _; cursor := _ |}).
  pose proof (wf_alloc_inst s Hwf) as Hwf1. fold s1 in Hwf1.
  set (self := length (insts s)).
  assert (Ho : insts s1 !! self = Some {| _nif := RList class_nif; _balanced := None |}).
  { subst s1 self. cbn. by rewrite lookup_app_r, Nat.sub_diag. }
  assert (Hattr : forall r, (forall a, r = RList a -> public s1 a) ->
            wf (fst (set_attr_nif self r s1))).
  { intros r Hr. unfold set_attr_nif, bind, get_inst. rewrite Ho.
    by apply (wf_set_attr_nif s1 self _ r). }
  assert (Hret : forall m : M unit, wf (fst (m s1)) ->
            wf (fst ((run! m in ret self) s1))).
  { intros m Hm. unfold bind. by destruct (m s1) as [s' [e|[]]]. }
  apply Hret. destruct num as [|n|a|num]; cbn [__init__].
  - exact Hwf1.
  - apply Hattr. by intros a.
  - unfold bind, get_list. destruct (lists s1 !! a) as [[|d l]|]; [done| |done].
    apply Hattr. intros a' [= <-]. apply public_alloc_inst. by apply Hnum.
  - destruct num as [|c rest]; [exact Hwf1|].
    destruct (ints_of_string (String c rest)) as [l|]; [|exact Hwf1].
    unfold bind at 1. unfold ret at 1. unfold bind at 1, alloc_list.
    change {| lists := lists s1 ++ [l]; insts := insts s1;
              entropy := entropy s1; cursor := cursor s1 |}
      with (extend_lists s1 [l]).
    assert (Hwf3 : wf (fst (set_attr_nif self (RList (length (lists s1)))
                              (extend_lists s1 [l])))).
    { unfold set_attr_nif, bind, get_inst. cbn [insts extend_lists].
      rewrite Ho. apply (wf_set_attr_nif (extend_lists s1 [l]) self _ _).
      - by apply wf_extend.
      - exact Ho.
      - intros a [= <-]. exact (public_fresh s1 l Hwf1). }
    unfold bind at 1.
    destruct (set_attr_nif self (RList (length (lists s1))) (extend_lists s1 [l]))
      as [s3 [e|[]]]; cbn [fst] in *; [done|].
    destruct fill; [|done].
    by apply keeps_wf_fst; [apply fill_keeps_wf|].
Qed.

Lemma run_call_wf (s : store) (fuel : nat) (c : call) :
  wf s -> allowed s c -> wf (fst (run_call fuel c s)).
Proof.
  intros Hwf Hc. destruct c as [l|a l|num fill|self asg|self|self|self v];
    cbn [run_call].
  - by apply (wf_extend s [l]).
  - apply (wf_frame s); [done|]. apply frame_set_digits. by destruct Hc.
  - pose proof (Nif_wf s fuel num fill Hwf) as Hn. unfold bind.
    destruct (Nif fuel num fill s) as [s' [e|x]]; cbn [fst] in *;
      apply Hn; intros a ->; exact Hc.
  - apply wf_in_frame; [done|]. by apply __setitem___frame.
  - by apply generate_wf.
  - apply wf_in_frame; [done|]. by apply fix_sum_frame.
  - apply wf_in_frame; [done|]. by apply set_sum_digit_frame.
Qed.

Lemma reachable_wf (s : store) : reachable s -> wf s.
Proof.
  induction 1 as [rng | s fuel c _ IH Hc]; [apply wf_init|].
  by apply run_call_wf.
Qed.

(** C2.  In every store that a run of the class can reach, whatever the
    random draws, [generate] on an instance returns, and [is_valid] on that
    instance is then true. *)
Theorem generate_is_valid (s : store) (fuel self : nat) :
  reachable s ->
  (self < length (insts s))%nat ->
  exists s',
    generate self s = (s', inr tt) /\
    is_valid fuel self s' = (s', inr true).
Proof.
  intros Hreach Hself. pose proof (reachable_wf s Hreach) as Hwf.
  destruct (lookup_lt_is_Some_2 _ _ Hself) as [o Ho].
  destruct (generate_spec s self o Hwf Ho)
    as (s' & a & l & Hgen & Hwf' & Hl & Hv & _).
  exists s'. split; [exact Hgen|].
  rewrite (is_valid_list _ _ _ _ fuel Hl), Hv; [done|].
  destruct Hwf' as ((H14 & _) & _). lia.
Qed.

Lemma generate_is_valid_witness :
  let s := fst (run_call 0 (CNif ANone false) (init_store (fun n => (7 * n + 3)%nat))) in
  exists s',
    generate 0 s = (s', inr tt) /\
    is_valid 0 0 s' = (s', inr true).
Proof.
  apply (generate_is_valid _ 0 0).
  - apply reach_call; [apply reach_init | exact I].
  - simpl. lia.
Defined.

(** ** Padding digits *)

(** The constructor in fill mode on fewer than eight digits [l]: the new
    instance holds [l], then [8 - len(l)] draws of [rand(9)], then the
    checksum. *)
Lemma Nif_str_fill (s : store) (fuel : nat) (c : ascii) (rest : string)
    (l : list Z) :
  ints_of_string (String c rest) = Some l ->
  (length l < 8)%nat ->
  exists ds s' a,
    Nif fuel (AStr (String c rest)) true s = (s', inr (length (insts s))) /\
    list_backed s' (length (insts s)) a (l ++ ds ++ [_eval_sum (l ++ ds)]) /\
    length ds = (8 - length l)%nat /\
    Forall (fun d => 0 <= d < 9) ds.
Proof.
  intros Hl Hshort.
  set (self := length (insts s)). set (a := length (lists s)).
  set (s3 := store_with_nif s l).
  pose proof (store_with_nif_backed s l) as Hb3. fold self a s3 in Hb3.
  destruct (rand_list_spec 9 (8 - length l) s3) as (ds & Hds & Hdslen & Hdsall);
    [lia|].
  set (s4 := advance s3 (8 - length l)) in *.
  assert (Hb4 : list_backed s4 self a l) by exact Hb3.
  pose proof (list_backed_set_digits _ _ _ _ (l ++ ds) Hb4) as Hb5.
  set (s5 := set_digits s4 a (l ++ ds)) in *.
  pose proof (list_backed_set_digits _ _ _ _
                (l ++ ds ++ [_eval_sum (l ++ ds)]) Hb5) as Hb6.
  exists ds, (set_digits s5 a (l ++ ds ++ [_eval_sum (l ++ ds)])), a.
  split; [|done].
  rewrite (Nif_str _ _ _ _ l) by done. fold self s3.
  unfold bind at 1. unfold fill_digits.
  unfold bind at 1. rewrite (attr_nif_list _ _ _ _ Hb3).
  unfold bind at 1. cbn [len]. unfold bind at 1.
  rewrite (get_list_digits _ _ _ _ Hb3). unfold ret at 1.
  replace (Z.of_nat (length l) <? 8) with true by (symmetry; apply Z.ltb_lt; lia).
  replace (Z.of_nat (length l) <? 9) with true by (symmetry; apply Z.ltb_lt; lia).
  unfold bind at 1. unfold bind at 1.
  replace (Z.to_nat (8 - Z.of_nat (length l))) with (8 - length l)%nat by lia.
  rewrite Hds. unfold bind at 1. rewrite (attr_nif_list _ _ _ _ Hb4).
  cbn [subscript_store]. rewrite (list_setslice_run _ _ l).
  2:{ by destruct Hb4 as (o & _ & _ & Hl4). }
  rewrite PyListFacts.setslice_end. fold s5.
  unfold bind at 1. rewrite (eval_sum_list _ _ _ _ Hb5).
  unfold bind at 1. rewrite (attr_nif_list _ _ _ _ Hb5).
  cbn [subscript_store]. rewrite (list_setslice_run _ _ (l ++ ds)).
  2:{ by destruct Hb5 as (o & _ & _ & Hl5). }
  rewrite PyListFacts.setslice_suffix by lia.
  change (Z.to_nat 8) with 8%nat.
  rewrite take_ge by (rewrite length_app; lia).
  unfold ret. by rewrite <- app_assoc.
Qed.

(** C3, on the code: the padding digits come from [rand(9)], which is
    [randrange(9)], so each of them lies in 0..8 and none is ever 9, for
    every sequence of raw draws; both in the constructor's fill mode and in
    [generate]. *)
Theorem padding_digits_below_9 (s : store) (fuel self : nat) (c : ascii)
    (rest : string) (l : list Z) :
  reachable s ->
  (self < length (insts s))%nat ->
  ints_of_string (String c rest) = Some l ->
  (length l < 8)%nat ->
  (exists ds s' n a,
     Nif fuel (AStr (String c rest)) true s = (s', inr n) /\
     list_backed s' n a (l ++ ds ++ [_eval_sum (l ++ ds)]) /\
     length ds = (8 - length l)%nat /\
     Forall (fun d => 0 <= d <= 8) ds /\ ~ In 9 ds) /\
  (exists l0 ds s' a,
     generate self s = (s', inr tt) /\
     list_backed s' self a (with_sum (l0 ++ ds)) /\
     length ds = (8 - length l0)%nat /\
     Forall (fun d => 0 <= d <= 8) ds /\ ~ In 9 ds).
Proof.
  intros Hreach Hself Hl Hshort.
  assert (Hno9 : forall ds, Forall (fun d => 0 <= d < 9) ds ->
            Forall (fun d => 0 <= d <= 8) ds /\ ~ In 9 ds).
  { intros ds Hds. split.
    - eapply Forall_impl; [exact Hds|]. intros d Hd. cbn beta in Hd. lia.
    - intros H9%list_elem_of_In. eapply Forall_forall in Hds; [|exact H9].
      cbn beta in Hds. lia. }
  split.
  - destruct (Nif_str_fill s fuel c rest l Hl Hshort)
      as (ds & s' & a & Hrun & Hb & Hlen & Hds).
    exists ds, s', (length (insts s)), a.
    split; [done|]. split; [done|]. split; [done|]. by apply Hno9.
  - pose proof (reachable_wf s Hreach) as Hwf.
    destruct (lookup_lt_is_Some_2 _ _ Hself) as [o Ho].
    destruct (generate_spec s self o Hwf Ho)
      as (s' & a & l' & Hgen & _ & Hl' & _ & l0 & ds & -> & Hlen & Hds).
    exists l0, ds, s', a.
    split; [done|]. split; [done|].
    split; [unfold _BASE_LENGTH in Hlen; lia|]. by apply Hno9.
Qed.

Lemma padding_digits_below_9_witness :
  let s := fst (run_call 0 (CNif ANone false) (init_store (fun n => (9 * n + 8)%nat))) in
  (exists ds s' n a,
     Nif 0 (AStr "12") true s = (s', inr n) /\
     list_backed s' n a ([1; 2] ++ ds ++ [_eval_sum ([1; 2] ++ ds)]) /\
     length ds = (8 - length [1; 2])%nat /\
     Forall (fun d => 0 <= d <= 8) ds /\ ~ In 9 ds) /\
  (exists l0 ds s' a,
     generate 0 s = (s', inr tt) /\
     list_backed s' 0 a (with_sum (l0 ++ ds)) /\
     length ds = (8 - length l0)%nat /\
     Forall (fun d => 0 <= d <= 8) ds /\ ~ In 9 ds).
Proof.
  apply (padding_digits_below_9 _ 0 0 "1"%char "2" [1; 2]).
  - apply reach_call; [apply reach_init | exact I].
  - simpl. lia.
  - reflexivity.
  - simpl. lia.
Defined.

(** ** The reading methods leave the store as it is

    so that the runs above, which list the calls that write, lose nothing by
    leaving out [__getitem__], [__iter__], [__str__], [eval_sum],
    [get_sum_digit] and [is_valid]. *)

Lemma __iter___store (fuel self : nat) (s : store) :
  fst (__iter__ fuel self s) = s.
Proof.
  revert self. induction fuel as [|fuel IH]; intros self; [done|].
  cbn [__iter__]. unfold bind, attr_nif, bind, get_inst.
  destruct (insts s !! self) as [o|]; [|done]. cbn [ret].
  destruct (_nif o) as [a|n]; cbn [iterate]; [|apply IH].
  unfold get_list. by destruct (lists s !! a).
Qed.

Lemma __str___store (fuel self : nat) (s : store) :
  fst (__str__ fuel self s) = s.
Proof.
  unfold __str__, bind, attr_nif, bind, get_inst.
  destruct (insts s !! self) as [o|]; [|done]. cbn [ret].
  destruct (_nif o) as [a|n]; cbn [iterate].
  - unfold get_list. by destruct (lists s !! a).
  - pose proof (__iter___store fuel n s) as Hi.
    destruct (__iter__ fuel n s) as [s1 [e|els]]; cbn in *; by subst.
Qed.

Lemma get_sum_digit_store (fuel self : nat) (s : store) :
  fst (get_sum_digit fuel self s) = s.
Proof.
  unfold get_sum_digit, bind, attr_nif, bind, get_inst.
  destruct (insts s !! self) as [o|]; [|done]. cbn [ret].
  destruct (_nif o) as [a|n]; cbn [subscript_load].
  - unfold bind, get_list. destruct (lists s !! a) as [l|]; [|done].
    unfold bind. by destruct (PyList.getitem l _BASE_LENGTH).
  - apply __getitem___store.
Qed.

Lemma foldl_validator_store (fuel self : nat) (cs : list nat) (x : bool)
    (s : store) :
  fst (foldl (validator fuel self) cs x s) = s.
Proof.
  revert x. induction cs as [|c cs IH]; intros x; [done|].
  cbn [foldl]. unfold bind at 1.
  assert (Hv : fst (validator fuel self x c s) = s).
  { unfold validator. destruct x; [done|]. unfold bind at 1.
    pose proof (__str___store fuel self s) as Hs.
    destruct (__str__ fuel self s) as [s1 [e|str]]; cbn in Hs; subst; [done|].
    unfold bind, get_list. by destruct (lists s !! c). }
  destruct (validator fuel self x c s) as [s1 [e|x']]; cbn in Hv; subst; [done|].
  apply IH.
Qed.

Lemma is_valid_store (fuel self : nat) (s : store) :
  fst (is_valid fuel self s) = s.
Proof.
  unfold is_valid. unfold bind at 1.
  pose proof (attr_nif_store self s) as Ha.
  destruct (attr_nif self s) as [s1 [e|r]]; cbn in Ha; subst; [done|].
  unfold bind at 1. pose proof (len_store r s) as Hl.
  destruct (len r s) as [s1 [e|n]]; cbn in Hl; subst; [done|].
  destruct (negb (n =? _BASE_LENGTH + 1)); [done|].
  unfold bind at 1.
  pose proof (foldl_validator_store fuel self _COMBINATIONS false s) as Hf.
  destruct (foldl (validator fuel self) _COMBINATIONS false s) as [s1 [e|r2]];
    cbn in Hf; subst; [done|].
  destruct (negb r2); [done|].
  unfold bind at 1. pose proof (get_sum_digit_store fuel self s) as Hg.
  destruct (get_sum_digit fuel self s) as [s1 [e|d]]; cbn in Hg; subst; [done|].
  unfold bind at 1. destruct d as [z|l]; [|done]. unfold ret at 1.
  unfold bind. pose proof (eval_sum_store fuel self s) as He.
  by destruct (eval_sum fuel self s) as [s1 [e|v]]; cbn in He; subst.
Qed.

(** * Further properties of the code *)

(** ** The checksum is a digit *)

Lemma _eval_sum_range (elements : list Z) : 0 <= _eval_sum elements <= 9.
Proof.
  unfold _eval_sum.
  match goal with |- context [ ?x mod 11 ] =>
    pose proof (Z.mod_pos_bound x 11 ltac:(lia)) as Hb;
    generalize dependent (x mod 11) end.
  intros a Ha. destruct (Z.ltb_spec a 2); lia.
Qed.

(** X1.  Whatever integers it is given, [_eval_sum] returns one of 0..9;
    10 and 11 never come out, the sums 0 and 1 modulo 11 both giving 0. *)
Theorem _eval_sum_is_digit (elements : list Z) : is_digit (_eval_sum elements).
Proof. exact (_eval_sum_range elements). Qed.

(** ** One wrong digit in the base *)

Lemma weighted_sum_insert (base : list Z) (k : nat) (d d' : Z) :
  length base = 8%nat ->
  base !! k = Some d ->
  weighted_sum (<[k := d']> base) - weighted_sum base
  = (9 - Z.of_nat k) * (d' - d).
Proof.
  intros Hlen Hk.
  destruct base as [|a0 [|a1 [|a2 [|a3 [|a4 [|a5 [|a6 [|a7 [|]]]]]]]]];
    try discriminate.
  do 8 (destruct k as [|k]; [injection Hk as ->; unfold weighted_sum; cbn; lia|]).
  discriminate.
Qed.

Lemma weight_not_multiple_of_11 (k : nat) (x : Z) :
  (k < 8)%nat -> -9 <= x <= 9 -> x <> 0 ->
  ((9 - Z.of_nat k) * x) mod 11 <> 0.
Proof.
  intros Hk Hx Hx0 Hm. apply Z.mod_divide in Hm; [|lia].
  destruct Hm as [q Hq].
  do 8 (destruct k as [|k]; [cbn in Hq; lia|]). lia.
Qed.

(** X2.  Replacing one digit of an 8-digit base by a different digit changes
    the weighted sum modulo 11, so the checksum changes too, unless both
    checksums are 0 (the sums 0 and 1 share that checksum). *)
Theorem single_digit_error_detected (base : list Z) (k : nat) (d d' : Z) :
  length base = 8%nat ->
  Forall is_digit base ->
  base !! k = Some d ->
  is_digit d' ->
  d' <> d ->
  _eval_sum (<[k := d']> base) = _eval_sum base ->
  _eval_sum base = 0 /\ _eval_sum (<[k := d']> base) = 0.
Proof.
  intros Hlen Hdig Hk Hd' Hne.
  pose proof (lookup_lt_Some _ _ _ Hk) as Hlt.
  assert (Hd : is_digit d) by (eapply Forall_forall in Hdig; [exact Hdig|];
                               by eapply list_elem_of_lookup_2).
  pose proof (weighted_sum_insert base k d d' Hlen Hk) as Hdiff.
  pose proof (weight_not_multiple_of_11 k (d' - d)) as Hw.
  rewrite !_eval_sum_spec. unfold eval_checksum_spec.
  set (X := weighted_sum base) in *.
  set (X' := weighted_sum (<[k := d']> base)) in *.
  assert (Hmod : X' mod 11 <> X mod 11).
  { intros Heq. apply Hw; [lia | unfold is_digit in *; lia | lia |].
    rewrite <- Hdiff. rewrite Zminus_mod, Heq, Z.sub_diag. done. }
  pose proof (Z.mod_pos_bound X 11 ltac:(lia)).
  pose proof (Z.mod_pos_bound X' 11 ltac:(lia)).
  destruct (Z.ltb_spec (X mod 11) 2), (Z.ltb_spec (X' mod 11) 2); lia.
Qed.

Lemma single_digit_error_detected_witness :
  _eval_sum [0; 0; 0; 0; 0; 0; 0; 6] = 0 /\
  _eval_sum (<[7%nat := 0]> [0; 0; 0; 0; 0; 0; 0; 6]) = 0.
Proof.
  apply (single_digit_error_detected [0; 0; 0; 0; 0; 0; 0; 6] 7 6 0).
  - reflexivity.
  - unfold is_digit. repeat (constructor; [lia|]). constructor.
  - reflexivity.
  - unfold is_digit. lia.
  - lia.
  - reflexivity.
Defined.

(** ** [fix_sum] and [set_sum_digit] *)

Lemma with_sum_idempotent (l : list Z) :
  (8 <= length l)%nat -> with_sum (with_sum l) = with_sum l.
Proof.
  intros Hl. unfold with_sum at 1 3.
  assert (Ht : take 8 (with_sum l) = take 8 l).
  { unfold with_sum. rewrite take_app_le by (rewrite length_take; lia).
    by rewrite take_take. }
  rewrite Ht. do 2 f_equal.
  by rewrite <- (_eval_sum_take (with_sum l)), Ht, _eval_sum_take.
Qed.

(** In a reachable store the list of an instance is not a catalogue
    entry. *)
Lemma reachable_list_backed (s : store) (self a : nat) (l : list Z) :
  reachable s -> list_backed s self a l ->
  (13 <= a)%nat /\ (14 <= length (lists s))%nat.
Proof.
  intros Hreach (o & Ho & Hr & _).
  destruct (reachable_wf s Hreach) as ((H14 & _) & _ & Hown).
  destruct (Hown a) as [_ Hnp]; [by exists self, o|].
  split; [|done]. destruct (decide (a < 13)%nat); [|lia].
  exfalso. apply Hnp. by left.
Qed.

Lemma catalogue_set_digits (s : store) (a : nat) (l : list Z) :
  (13 <= a)%nat -> catalogue (set_digits s a l) = catalogue s.
Proof.
  intros Ha. unfold catalogue. apply map_ext_in. intros c Hc%in_seq.
  unfold digits_at. cbn [lists set_digits].
  by rewrite list_lookup_insert_ne by lia.
Qed.

(** X3.  On a NIF of at least eight digits [fix_sum] is idempotent: a second
    call changes nothing. *)
Theorem fix_sum_idempotent (s : store) (fuel self a : nat) (l : list Z) :
  list_backed s self a l ->
  (8 <= length l)%nat ->
  (run! fix_sum fuel self in fix_sum fuel self) s = fix_sum fuel self s.
Proof.
  intros Hself Hl. unfold bind.
  rewrite (fix_sum_list _ _ _ _ Hself).
  rewrite (fix_sum_list _ _ _ _ (list_backed_set_digits _ _ _ _ (with_sum l) Hself)).
  by rewrite set_digits_twice, with_sum_idempotent.
Qed.

Lemma fix_sum_idempotent_witness :
  let s := store_with_nif (init_store (fun _ => 0%nat)) [1; 2; 3; 4; 5; 6; 7; 8; 0; 0] in
  (run! fix_sum 0 0 in fix_sum 0 0) s = fix_sum 0 0 s.
Proof.
  apply (fix_sum_idempotent _ 0 0 14 [1; 2; 3; 4; 5; 6; 7; 8; 0; 0]).
  - eexists. repeat split; reflexivity.
  - simpl. lia.
Defined.

(** X4.  On a NIF of fewer than eight digits [fix_sum] does not complete
    it: it appends the checksum of the digits there are, right behind them,
    and [is_valid] is false afterwards. *)
Theorem fix_sum_short (s : store) (fuel self a : nat) (l : list Z) :
  (13 <= length (lists s))%nat ->
  list_backed s self a l ->
  (length l < 8)%nat ->
  exists s',
    fix_sum fuel self s = (s', inr tt) /\
    list_backed s' self a (l ++ [_eval_sum l]) /\
    is_valid fuel self s' = (s', inr false).
Proof.
  intros Hcat Hself Hl. exists (set_digits s a (l ++ [_eval_sum l])).
  rewrite (fix_sum_list _ _ _ _ Hself), with_sum_short by done.
  pose proof (list_backed_set_digits _ _ _ _ (l ++ [_eval_sum l]) Hself) as Hb.
  split; [done|]. split; [done|].
  rewrite (is_valid_list _ _ _ _ _ Hb) by (cbn; by rewrite length_insert).
  do 2 f_equal. unfold valid_digits, _BASE_LENGTH.
  rewrite length_app. cbn [length].
  destruct (Z.eqb_spec (Z.of_nat (length l + 1)) (8 + 1)); [lia|done].
Qed.

Lemma fix_sum_short_witness :
  let s := store_with_nif (init_store (fun _ => 0%nat)) [1; 2] in
  exists s',
    fix_sum 0 0 s = (s', inr tt) /\
    list_backed s' 0 14 ([1; 2] ++ [_eval_sum [1; 2]]) /\
    is_valid 0 0 s' = (s', inr false).
Proof.
  apply (fix_sum_short _ 0 0 14 [1; 2]).
  - simpl. lia.
  - eexists. repeat split; reflexivity.
  - simpl. lia.
Defined.

Lemma fix_sum_rule2 (s : store) (fuel self a : nat) (l : list Z) :
  reachable s ->
  list_backed s self a l ->
  (8 <= length l)%nat ->
  exists s',
    fix_sum fuel self s = (s', inr tt) /\
    list_backed s' self a (with_sum l) /\
    length (with_sum l) = 9%nat /\
    catalogue s' = catalogue s /\
    is_valid fuel self s' = (s', inr (rule2 (catalogue s) (with_sum l))).
Proof.
  intros Hreach Hself Hl.
  destruct (reachable_list_backed s self a l Hreach Hself) as [Ha H14].
  destruct (with_sum_consistent l Hl) as [H9 H8].
  exists (set_digits s a (with_sum l)).
  rewrite (fix_sum_list _ _ _ _ Hself).
  pose proof (list_backed_set_digits _ _ _ _ (with_sum l) Hself) as Hb.
  pose proof (catalogue_set_digits s a (with_sum l) Ha) as Hc.
  repeat split; [done..|].
  rewrite (is_valid_list _ _ _ _ _ Hb) by (cbn; rewrite length_insert; lia).
  do 2 f_equal. unfold valid_digits. rewrite Hc, H9.
  change (Z.of_nat 9 =? _BASE_LENGTH + 1) with true. cbn [andb].
  rewrite (nth_lookup_Some _ _ 0 _ H8), _eval_sum_take, Z.eqb_refl.
  by rewrite andb_true_r.
Qed.

(** X5.  After [fix_sum] on a NIF of at least eight digits only the prefix
    rule is left to decide: the NIF has nine digits, the ninth is the
    checksum, the catalogue is as before, and [is_valid] returns what Rule 2
    says of the corrected digits. *)
Theorem fix_sum_then_is_valid (s : store) (fuel self a : nat) (l : list Z) :
  reachable s ->
  list_backed s self a l ->
  (8 <= length l)%nat ->
  exists s',
    fix_sum fuel self s = (s', inr tt) /\
    list_backed s' self a (with_sum l) /\
    length (with_sum l) = 9%nat /\
    catalogue s' = catalogue s /\
    is_valid fuel self s' = (s', inr (rule2 (catalogue s) (with_sum l))).
Proof. apply fix_sum_rule2. Qed.

Lemma fix_sum_then_is_valid_witness :
  let s := fst (run_call 0 (CNif (AStr "123456780") false)
                  (init_store (fun _ => 0%nat))) in
  exists s',
    fix_sum 0 0 s = (s', inr tt) /\
    list_backed s' 0 14 (with_sum [1; 2; 3; 4; 5; 6; 7; 8; 0]) /\
    length (with_sum [1; 2; 3; 4; 5; 6; 7; 8; 0]) = 9%nat /\
    catalogue s' = catalogue s /\
    is_valid 0 0 s' = (s', inr (rule2 (catalogue s) (with_sum [1; 2; 3; 4; 5; 6; 7; 8; 0]))).
Proof.
  apply (fix_sum_then_is_valid _ 0 0 14 [1; 2; 3; 4; 5; 6; 7; 8; 0]).
  - apply reach_call; [apply reach_init | exact I].
  - eexists. repeat split; reflexivity.
  - simpl. lia.
Defined.

(** X7.  [set_sum_digit] on a NIF of at least eight digits keeps the first
    eight, stores the given value as the ninth (dropping anything behind),
    and does not recompute: [get_sum_digit] returns the value, and [is_valid]
    then holds exactly when Rule 2 holds and the value is the checksum. *)
Theorem set_sum_digit_unchecked (s : store) (fuel self a : nat) (l : list Z)
    (value : Z) :
  reachable s ->
  list_backed s self a l ->
  (8 <= length l)%nat ->
  exists s',
    set_sum_digit fuel self value s = (s', inr tt) /\
    list_backed s' self a (take 8 l ++ [value]) /\
    get_sum_digit fuel self s' = (s', inr (VInt value)) /\
    is_valid fuel self s' =
      (s', inr (rule2 (catalogue s) (take 8 l ++ [value])
                && (value =? _eval_sum l))).
Proof.
  intros Hreach Hself Hl.
  destruct (reachable_list_backed s self a l Hreach Hself) as [Ha H14].
  set (l' := take 8 l ++ [value]).
  assert (Ht : length (take 8 l) = 8%nat) by (rewrite length_take; lia).
  assert (H9 : length l' = 9%nat) by (subst l'; rewrite length_app, Ht; done).
  assert (H8 : l' !! 8%nat = Some value).
  { subst l'. by rewrite lookup_app_r, Ht by lia. }
  assert (He : _eval_sum l' = _eval_sum l).
  { rewrite <- (_eval_sum_take l'), <- (_eval_sum_take l). f_equal.
    subst l'. rewrite take_app_le by lia. by rewrite take_take. }
  exists (set_digits s a l').
  rewrite (set_sum_digit_list _ _ _ _ Hself).
  pose proof (list_backed_set_digits _ _ _ _ l' Hself) as Hb.
  split; [done|]. split; [done|]. split.
  - rewrite (get_sum_digit_list _ _ _ _ Hb), getitem_9th by done.
    by rewrite (nth_lookup_Some _ _ 0 _ H8).
  - rewrite (is_valid_list _ _ _ _ _ Hb) by (cbn; rewrite length_insert; lia).
    do 2 f_equal. unfold valid_digits.
    rewrite (catalogue_set_digits s a l' Ha), H9, He.
    change (Z.of_nat 9 =? _BASE_LENGTH + 1) with true. cbn [andb].
    by rewrite (nth_lookup_Some _ _ 0 _ H8).
Qed.

Lemma set_sum_digit_unchecked_witness :
  let s := fst (run_call 0 (CNif (AStr "123456789") false)
                  (init_store (fun _ => 0%nat))) in
  exists s',
    set_sum_digit 0 0 4 s = (s', inr tt) /\
    list_backed s' 0 14 (take 8 [1; 2; 3; 4; 5; 6; 7; 8; 9] ++ [4]) /\
    get_sum_digit 0 0 s' = (s', inr (VInt 4)) /\
    is_valid 0 0 s' =
      (s', inr (rule2 (catalogue s) (take 8 [1; 2; 3; 4; 5; 6; 7; 8; 9] ++ [4])
                && (4 =? _eval_sum [1; 2; 3; 4; 5; 6; 7; 8; 9]))).
Proof.
  apply (set_sum_digit_unchecked _ 0 0 14 [1; 2; 3; 4; 5; 6; 7; 8; 9] 4).
  - apply reach_call; [apply reach_init | exact I].
  - eexists. repeat split; reflexivity.
  - simpl. lia.
Defined.

(** ** Writing a digit and reading it back *)

(** X6.  On a 9-digit NIF, [n[i] = v] at a base position followed by [n[i]]
    gives [v] (also for a negative [i]); the other base digits read as
    before, and position 8 reads as the checksum of the new base. *)
Theorem setitem_then_getitem (s : store) (fuel self a : nat) (l : list Z)
    (i v : Z) (k : nat) :
  list_backed s self a l ->
  length l = 9%nat ->
  PyList.norm_index 9 i = Some k ->
  (k < 8)%nat ->
  exists s',
    __setitem__ (S fuel) self (AssignAt i v) s = (s', inr tt) /\
    __getitem__ (S fuel) self (IInt i) s' = (s', inr (VInt v)) /\
    (forall j x, (j < 8)%nat -> j <> k -> l !! j = Some x ->
       __getitem__ (S fuel) self (IInt (Z.of_nat j)) s' = (s', inr (VInt x))) /\
    __getitem__ (S fuel) self (IInt 8) s'
      = (s', inr (VInt (_eval_sum (<[k := v]> l)))).
Proof.
  intros Hself Hlen Hk Hk8.
  set (l' := with_sum (<[k := v]> l)).
  assert (Hins : (8 <= length (<[k := v]> l))%nat)
    by (rewrite length_insert; lia).
  destruct (with_sum_consistent _ Hins) as [H9 H8]. fold l' in H9, H8.
  exists (set_digits s a l').
  pose proof (list_backed_set_digits _ _ _ _ l' Hself) as Hb.
  split; [|split; [|split]].
  - rewrite (__setitem___list _ _ _ _ _ _ Hself). cbn [assign].
    unfold PyList.setitem. by rewrite Hlen, Hk.
  - rewrite (__getitem___list _ _ _ _ _ _ Hb).
    unfold PyList.getitem. rewrite H9, Hk.
    subst l'. by rewrite with_sum_lookup_base by lia.
  - intros j x Hj Hne Hx.
    rewrite (__getitem___list _ _ _ _ _ _ Hb).
    rewrite (getitem_position l' j x); [done|].
    subst l'. unfold with_sum.
    rewrite lookup_app_l by (rewrite length_take, length_insert; lia).
    rewrite lookup_take_lt by done.
    by rewrite list_lookup_insert_ne.
  - rewrite (__getitem___list _ _ _ _ _ _ Hb).
    change (PyList.getitem l' 8) with (PyList.getitem l' _BASE_LENGTH).
    rewrite getitem_9th, (nth_lookup_Some _ _ 0 _ H8) by done.
    do 3 f_equal. rewrite _eval_sum_take. subst l'. unfold with_sum.
    rewrite <- (_eval_sum_take (take 8 _ ++ _)).
    rewrite take_app_le by (rewrite length_take; lia).
    by rewrite take_take, _eval_sum_take.
Qed.

Lemma setitem_then_getitem_witness :
  let s := store_with_nif (init_store (fun _ => 0%nat)) [1; 2; 3; 4; 5; 6; 7; 8; 9] in
  exists s',
    __setitem__ 1 0 (AssignAt (-9) 5) s = (s', inr tt) /\
    __getitem__ 1 0 (IInt (-9)) s' = (s', inr (VInt 5)) /\
    (forall j x, (j < 8)%nat -> j <> 0%nat ->
       [1; 2; 3; 4; 5; 6; 7; 8; 9] !! j = Some x ->
       __getitem__ 1 0 (IInt (Z.of_nat j)) s' = (s', inr (VInt x))) /\
    __getitem__ 1 0 (IInt 8) s'
      = (s', inr (VInt (_eval_sum (<[0%nat := 5]> [1; 2; 3; 4; 5; 6; 7; 8; 9])))).
Proof.
  apply (setitem_then_getitem _ 0 0 14 [1; 2; 3; 4; 5; 6; 7; 8; 9] (-9) 5 0).
  - eexists. repeat split; reflexivity.
  - reflexivity.
  - reflexivity.
  - lia.
Defined.

(** ** What the constructor refers to *)

(** The store after a constructor call that assigns no [_nif]. *)
Lemma Nif_falsy_store (s : store) (fuel : nat) :
  Nif fuel ANone false s =
  ({| lists := lists s;
      insts := insts s ++ [{| _nif := RList class_nif; _balanced := None |}];
      entropy := entropy s; cursor := cursor s |},
   inr (length (insts s))).
Proof. reflexivity. Qed.

(** X8.  Instances built without digits have no list of their own: they
    all see the one list of the class attribute [_nif], so [fix_sum] on one
    of them changes what the other one holds and prints. *)
Theorem class_list_is_shared (s : store) (fuel : nat) (l : list Z) :
  lists s !! class_nif = Some l ->
  exists s' a b,
    (let! a := Nif fuel ANone false in
     let! b := Nif fuel ANone false in
     run! fix_sum fuel a in
     ret (a, b)) s = (s', inr (a, b)) /\
    a <> b /\
    list_backed s' a class_nif (with_sum l) /\
    list_backed s' b class_nif (with_sum l) /\
    __str__ fuel b s' = (s', inr (join_str (with_sum l))).
Proof.
  intros Hl.
  set (o := {| _nif := RList class_nif; _balanced := None |}).
  set (s2 := {| lists := lists s; insts := (insts s ++ [o]) ++ [o];
                entropy := entropy s; cursor := cursor s |}).
  set (a := length (insts s)). set (b := length (insts s ++ [o])).
  assert (Ha : list_backed s2 a class_nif l).
  { exists o. repeat split; [|done]. subst s2 a. cbn.
    rewrite lookup_app_l by (rewrite length_app; cbn; lia).
    by rewrite lookup_app_r, Nat.sub_diag. }
  assert (Hb : list_backed s2 b class_nif l).
  { exists o. repeat split; [|done]. subst s2 b. cbn.
    by rewrite lookup_app_r, Nat.sub_diag. }
  exists (set_digits s2 class_nif (with_sum l)), a, b.
  assert (Hb' : list_backed (set_digits s2 class_nif (with_sum l)) b class_nif
                  (with_sum l)) by (by eapply list_backed_set_digits).
  split; [|split; [|split; [|split]]].
  - unfold bind at 1. rewrite Nif_falsy_store.
    unfold bind at 1. rewrite Nif_falsy_store. cbn [lists insts entropy cursor].
    fold o s2 a b. unfold bind. by rewrite (fix_sum_list _ _ _ _ Ha).
  - subst a b. rewrite length_app. cbn. lia.
  - by eapply list_backed_set_digits.
  - exact Hb'.
  - by rewrite (__str___list _ _ _ _ Hb').
Qed.

Lemma class_list_is_shared_witness :
  exists s' a b,
    (let! a := Nif 0 ANone false in
     let! b := Nif 0 ANone false in
     run! fix_sum 0 a in
     ret (a, b)) (init_store (fun _ => 0%nat)) = (s', inr (a, b)) /\
    a <> b /\
    list_backed s' a class_nif (with_sum []) /\
    list_backed s' b class_nif (with_sum []) /\
    __str__ 0 b s' = (s', inr (join_str (with_sum []))).
Proof.
  apply (class_list_is_shared (init_store (fun _ => 0%nat)) 0 []).
  reflexivity.
Defined.

(** X9.  A [Nif] built from a non-empty list keeps that very list object:
    an assignment through the instance rewrites the caller's list, checksum
    included. *)
Theorem Nif_of_list_shares (s : store) (fuel a : nat) (d : Z) (l : list Z)
    (i v : Z) (k : nat) :
  lists s !! a = Some (d :: l) ->
  PyList.norm_index (length (d :: l)) i = Some k ->
  exists s' n,
    (let! n := Nif fuel (AList a) false in
     run! __setitem__ (S fuel) n (AssignAt i v) in
     ret n) s = (s', inr n) /\
    list_backed s' n a (with_sum (<[k := v]> (d :: l))) /\
    length (lists s') = length (lists s).
Proof.
  intros Hl Hk.
  set (o := {| _nif := RList a; _balanced := None |}).
  set (s1 := {| lists := lists s; insts := insts s ++ [o];
                entropy := entropy s; cursor := cursor s |}).
  set (n := length (insts s)).
  assert (Hnif : Nif fuel (AList a) false s = (s1, inr n)).
  { unfold Nif, __init__, bind at 1, alloc_inst. unfold bind at 1.
    unfold bind at 1, get_list. cbn [lists]. rewrite Hl.
    unfold set_attr_nif, bind, get_inst, put_inst, ret.
    cbn [lists insts entropy cursor].
    rewrite lookup_app_r, Nat.sub_diag by done.
    cbn [lookup list_lookup lists insts entropy cursor _balanced].
    by rewrite insert_app_r_alt, Nat.sub_diag. }
  assert (Hb : list_backed s1 n a (d :: l)).
  { exists o. repeat split; [|done]. subst s1 n. cbn.
    by rewrite lookup_app_r, Nat.sub_diag. }
  exists (set_digits s1 a (with_sum (<[k := v]> (d :: l)))), n.
  split; [|split].
  - unfold bind at 1. rewrite Hnif. unfold bind at 1.
    rewrite (__setitem___list _ _ _ _ _ _ Hb). cbn [assign].
    unfold PyList.setitem. by rewrite Hk.
  - by eapply list_backed_set_digits.
  - cbn. by rewrite length_insert.
Qed.

Lemma Nif_of_list_shares_witness :
  let s := fst (alloc_list [5; 0; 1] (init_store (fun _ => 0%nat))) in
  exists s' n,
    (let! n := Nif 0 (AList 14) false in
     run! __setitem__ 1 n (AssignAt 1 7) in
     ret n) s = (s', inr n) /\
    list_backed s' n 14 (with_sum (<[1%nat := 7]> [5; 0; 1])) /\
    length (lists s') = length (lists s).
Proof.
  apply (Nif_of_list_shares _ 0 14 5 [0; 1] 1 7 1).
  - reflexivity.
  - reflexivity.
Defined.

(** ** The constructor on a string *)

Lemma Nif_str_fill_general (s : store) (fuel : nat) (c : ascii)
    (rest : string) (l : list Z) :
  ints_of_string (String c rest) = Some l ->
  exists ds s',
    Nif fuel (AStr (String c rest)) true s = (s', inr (length (insts s))) /\
    list_backed s' (length (insts s)) (length (lists s)) (filled l ds) /\
    lists s' = <[length (lists s) := filled l ds]> (lists s ++ [l]) /\
    length ds = (8 - length l)%nat /\
    Forall (fun d => 0 <= d < 9) ds.
Proof.
  intros Hl.
  set (self := length (insts s)). set (a := length (lists s)).
  set (s3 := store_with_nif s l).
  pose proof (store_with_nif_backed s l) as Hb3. fold self a s3 in Hb3.
  assert (Hl3 : lists s3 !! a = Some l) by (by destruct Hb3 as (o & _ & _ & H)).
  rewrite (Nif_str _ _ _ _ l) by done. fold self s3.
  unfold bind at 1. unfold fill_digits.
  unfold bind at 1. rewrite (attr_nif_list _ _ _ _ Hb3).
  unfold bind at 1. cbn [len]. unfold bind at 1.
  rewrite (get_list_digits _ _ _ _ Hb3). unfold ret at 1.
  unfold filled.
  destruct (Z.ltb_spec (Z.of_nat (length l)) 8) as [H8|H8].
  - (* padding, then the checksum *)
    destruct (rand_list_spec 9 (8 - length l) s3) as (ds & Hds & Hdslen & Hdsall);
      [lia|].
    set (s4 := advance s3 (8 - length l)) in *.
    assert (Hb4 : list_backed s4 self a l) by exact Hb3.
    pose proof (list_backed_set_digits _ _ _ _ (l ++ ds) Hb4) as Hb5.
    set (s5 := set_digits s4 a (l ++ ds)) in *.
    exists ds, (set_digits s5 a (with_sum (l ++ ds))).
    replace (Z.of_nat (length l) <? 9) with true by (symmetry; apply Z.ltb_lt; lia).
    replace (length l <=? 8)%nat with true by (symmetry; apply Nat.leb_le; lia).
    split; [|split; [by eapply list_backed_set_digits|split; [|done]]].
    + unfold bind at 1. unfold bind at 1.
      replace (Z.to_nat (8 - Z.of_nat (length l))) with (8 - length l)%nat by lia.
      rewrite Hds. unfold bind at 1. rewrite (attr_nif_list _ _ _ _ Hb4).
      cbn [subscript_store]. rewrite (list_setslice_run _ _ l) by exact Hl3.
      rewrite PyListFacts.setslice_end. fold s5.
      unfold bind at 1. rewrite (eval_sum_list _ _ _ _ Hb5).
      unfold bind at 1. rewrite (attr_nif_list _ _ _ _ Hb5).
      cbn [subscript_store]. rewrite (list_setslice_run _ _ (l ++ ds)).
      2:{ by destruct Hb5 as (o & _ & _ & Hl5). }
      by rewrite PyListFacts.setslice_suffix by lia.
    + subst s5 s4 s3. cbn [lists set_digits advance store_with_nif].
      by rewrite list_insert_insert_eq.
  - exists []. replace (8 - length l)%nat with 0%nat by lia.
    rewrite app_nil_r.
    destruct (Z.ltb_spec (Z.of_nat (length l)) 9) as [H9|H9].
    + (* eight digits: the checksum only *)
      replace (length l <=? 8)%nat with true by (symmetry; apply Nat.leb_le; lia).
      exists (set_digits s3 a (with_sum l)).
      split; [|split; [by eapply list_backed_set_digits|by repeat split]].
      unfold bind at 1. unfold ret at 1.
      unfold bind at 1. rewrite (eval_sum_list _ _ _ _ Hb3).
      unfold bind at 1. rewrite (attr_nif_list _ _ _ _ Hb3).
      cbn [subscript_store]. rewrite (list_setslice_run _ _ l) by exact Hl3.
      by rewrite PyListFacts.setslice_suffix by lia.
    + (* nine or more: nothing *)
      replace (length l <=? 8)%nat with false by (symmetry; apply Nat.leb_gt; lia).
      exists s3. split; [reflexivity|]. split; [exact Hb3|].
      split; [|by split].
      subst s3 a. cbn [lists store_with_nif].
      symmetry. apply list_insert_id. by rewrite lookup_app_r, Nat.sub_diag.
Qed.

Lemma filled_length (l ds : list Z) :
  (1 <= length l)%nat -> length ds = (8 - length l)%nat ->
  (8 <= length (filled l ds))%nat /\
  take (Nat.min (length l) 8) (filled l ds) = take 8 l.
Proof.
  intros Hl Hds. unfold filled.
  destruct (Nat.leb_spec (length l) 8) as [H8|H8].
  - assert (Hl8 : length (l ++ ds) = 8%nat) by (rewrite length_app; lia).
    destruct (with_sum_consistent (l ++ ds)) as [H9 _]; [lia|].
    split; [lia|]. rewrite Nat.min_l by done. unfold with_sum.
    rewrite (take_ge (l ++ ds)) by lia. rewrite <- app_assoc.
    rewrite take_app_length. by rewrite take_ge by lia.
  - split; [lia|]. by rewrite Nat.min_r by lia.
Qed.

(** X10.  In fill mode a non-empty string of at most eight digits always
    becomes a NIF of nine digits that begins with the given ones and ends
    with the right checksum, so that [is_valid] on it is decided by Rule 2
    alone. *)
Theorem fill_completes (s : store) (fuel : nat) (c : ascii) (rest : string)
    (l : list Z) :
  reachable s ->
  ints_of_string (String c rest) = Some l ->
  (length l <= 8)%nat ->
  exists s' n a l',
    Nif fuel (AStr (String c rest)) true s = (s', inr n) /\
    list_backed s' n a l' /\
    length l' = 9%nat /\
    take (length l) l' = l /\
    l' !! 8%nat = Some (_eval_sum (take 8 l')) /\
    is_valid fuel n s' = (s', inr (rule2 (catalogue s) l')).
Proof.
  intros Hreach Hl H8.
  destruct (reachable_wf s Hreach) as ((H14 & _) & _).
  destruct (Nif_str_fill_general s fuel c rest l Hl)
    as (ds & s' & Hrun & Hb & Hlists & Hdslen & _).
  assert (Hf : filled l ds = with_sum (l ++ ds)).
  { unfold filled. by replace (length l <=? 8)%nat with true
      by (symmetry; apply Nat.leb_le; lia). }
  rewrite Hf in *.
  assert (Hl8 : length (l ++ ds) = 8%nat) by (rewrite length_app; lia).
  destruct (with_sum_consistent (l ++ ds)) as [H9 Hsum]; [lia|].
  exists s', (length (insts s)), (length (lists s)), (with_sum (l ++ ds)).
  assert (Hcat : catalogue s' = catalogue s).
  { unfold catalogue. apply map_ext_in. intros k Hk%in_seq.
    unfold digits_at. rewrite Hlists.
    rewrite list_lookup_insert_ne by lia. by rewrite lookup_app_l by lia. }
  split; [done|]. split; [done|]. split; [done|]. split; [|split; [done|]].
  - unfold with_sum. rewrite (take_ge (l ++ ds)) by lia.
    rewrite <- app_assoc. apply take_app_length.
  - rewrite (is_valid_list _ _ _ _ _ Hb).
    2:{ rewrite Hlists, length_insert, length_app. lia. }
    do 2 f_equal. unfold valid_digits. rewrite Hcat, H9.
    change (Z.of_nat 9 =? _BASE_LENGTH + 1) with true. cbn [andb].
    rewrite (nth_lookup_Some _ _ 0 _ Hsum), _eval_sum_take, Z.eqb_refl.
    by rewrite andb_true_r.
Qed.

Lemma fill_completes_witness :
  exists s' n a l',
    Nif 0 (AStr "1234567") true (init_store (fun _ => 3%nat)) = (s', inr n) /\
    list_backed s' n a l' /\
    length l' = 9%nat /\
    take (length [1; 2; 3; 4; 5; 6; 7]) l' = [1; 2; 3; 4; 5; 6; 7] /\
    l' !! 8%nat = Some (_eval_sum (take 8 l')) /\
    is_valid 0 n s' = (s', inr (rule2 (catalogue (init_store (fun _ => 3%nat))) l')).
Proof.
  apply (fill_completes (init_store (fun _ => 3%nat)) 0 "1"%char "234567"
           [1; 2; 3; 4; 5; 6; 7]).
  - apply reach_init.
  - reflexivity.
  - simpl. lia.
Defined.

(** X11.  The constructor treats [None], the empty string and an empty list
    alike, whatever [fill] is: the new instance gets no list of its own and
    reads the one of the class (so an empty list given by the caller is not
    the one it keeps). *)
Theorem Nif_falsy (s : store) (fuel : nat) (num : arg) (fill : bool)
    (l : list Z) :
  lists s !! class_nif = Some l ->
  (num = ANone \/ num = AStr "" \/
   exists a, num = AList a /\ lists s !! a = Some []) ->
  exists s',
    Nif fuel num fill s = (s', inr (length (insts s))) /\
    list_backed s' (length (insts s)) class_nif l /\
    lists s' = lists s.
Proof.
  intros Hl Hnum.
  set (o := {| _nif := RList class_nif; _balanced := None |}).
  exists {| lists := lists s; insts := insts s ++ [o];
            entropy := entropy s; cursor := cursor s |}.
  split; [|split; [|done]].
  - destruct Hnum as [-> | [-> | (a & -> & Ha)]]; [reflexivity..|].
    unfold Nif, __init__, bind at 1, alloc_inst. unfold bind at 1.
    unfold bind at 1, get_list. cbn [lists]. by rewrite Ha.
  - exists o. repeat split; [|done]. cbn. by rewrite lookup_app_r, Nat.sub_diag.
Qed.

Lemma Nif_falsy_witness :
  let s := fst (alloc_list [] (init_store (fun _ => 0%nat))) in
  exists s',
    Nif 0 (AList 14) true s = (s', inr (length (insts s))) /\
    list_backed s' (length (insts s)) class_nif [] /\
    lists s' = lists s.
Proof.
  apply (Nif_falsy _ 0 (AList 14) true []).
  - reflexivity.
  - right. right. exists 14%nat. split; reflexivity.
Defined.




(** ** [__int__] *)

Lemma __int___list (s : store) (self a : nat) (l : list Z) fuel :
  list_backed s self a l ->
  __int__ fuel self s = (s, inr (fold_left (fun x y => x * 10 + y) l 0)).
Proof.
  intros Hself. unfold __int__, bind. rewrite (attr_nif_list _ _ _ _ Hself).
  cbn [iterate]. by rewrite (get_list_digits _ _ _ _ Hself).
Qed.

Lemma int_value_bounds (l : list Z) :
  Forall is_digit l -> 0 <= fold_left (fun x y => x * 10 + y) l 0.
Proof.
  induction l as [|d l IH] using rev_ind; intros Hl; [cbn; lia|].
  apply Forall_app in Hl as [Hl Hd]. apply Forall_inv in Hd.
  rewrite fold_left_app. cbn. specialize (IH Hl). unfold is_digit in Hd. lia.
Qed.

Lemma int_value_injective (l1 l2 : list Z) :
  length l1 = length l2 ->
  Forall is_digit l1 -> Forall is_digit l2 ->
  fold_left (fun x y => x * 10 + y) l1 0 = fold_left (fun x y => x * 10 + y) l2 0 ->
  l1 = l2.
Proof.
  revert l2. induction l1 as [|d1 l1 IH] using rev_ind; intros l2 Hlen H1 H2 Hv.
  - destruct l2; [done|discriminate].
  - destruct l2 as [|d2 l2 _] using rev_ind;
      [rewrite length_app in Hlen; cbn in Hlen; lia|].
    rewrite !length_app in Hlen. cbn in Hlen.
    apply Forall_app in H1 as [H1 Hd1]. apply Forall_inv in Hd1.
    apply Forall_app in H2 as [H2 Hd2]. apply Forall_inv in Hd2.
    rewrite !fold_left_app in Hv. cbn in Hv.
    pose proof (int_value_bounds l1 H1). pose proof (int_value_bounds l2 H2).
    unfold is_digit in Hd1, Hd2.
    assert (d1 = d2 /\ fold_left (fun x y => x * 10 + y) l1 0
                       = fold_left (fun x y => x * 10 + y) l2 0) as [-> Hv'] by lia.
    f_equal. apply IH; [lia|done..].
Qed.

(** X13.  [__int__] tells NIFs of the same length apart: two instances with
    equally many decimal digits and the same integer hold the same digits
    (leading zeros are only lost between different lengths). *)
Theorem __int___injective (s : store) (fuel n1 n2 a1 a2 : nat)
    (l1 l2 : list Z) :
  list_backed s n1 a1 l1 ->
  list_backed s n2 a2 l2 ->
  Forall is_digit l1 -> Forall is_digit l2 ->
  length l1 = length l2 ->
  snd (__int__ fuel n1 s) = snd (__int__ fuel n2 s) ->
  l1 = l2.
Proof.
  intros Hn1 Hn2 Hd1 Hd2 Hlen.
  rewrite (__int___list _ _ _ _ _ Hn1), (__int___list _ _ _ _ _ Hn2).
  cbn [snd]. intros [= Hv]. by apply int_value_injective.
Qed.

Lemma __int___injective_witness :
  let s := store_with_nif (store_with_nif (init_store (fun _ => 0%nat)) [0; 1; 2])
             [0; 1; 2] in
  [0; 1; 2] = [0; 1; 2].
Proof.
  intros s.
  apply (__int___injective s 0 0 1 14 15 [0; 1; 2] [0; 1; 2]).
  - eexists. repeat split; reflexivity.
  - eexists. repeat split; reflexivity.
  - unfold is_digit. repeat (constructor; [lia|]). constructor.
  - unfold is_digit. repeat (constructor; [lia|]). constructor.
  - reflexivity.
  - reflexivity.
Defined.

(** ** [main] *)

Lemma reachable_Nif (s : store) (fuel : nat) (num : arg) (fill : bool)
    (s' : store) (n : nat) :
  reachable s ->
  allowed s (CNif num fill) ->
  Nif fuel num fill s = (s', inr n) ->
  reachable s'.
Proof.
  intros Hreach Hall Hrun.
  pose proof (reach_call s fuel (CNif num fill) Hreach Hall) as Hr.
  cbn [run_call] in Hr. unfold bind in Hr. by rewrite Hrun in Hr.
Qed.


Lemma ints_of_string_nonempty (c : ascii) (rest : string) (l : list Z) :
  ints_of_string (String c rest) = Some l -> (1 <= length l)%nat.
Proof.
  cbn. destruct (py_int c); [|done].
  destruct (ints_of_string rest); [|done]. intros [= <-]. cbn. lia.
Qed.

(** X15.  Given a non-empty string of digits, [main] never checks the
    checksum it was given: it pads up to eight digits, overwrites position 8
    (dropping anything behind) with the computed checksum, and the outcome
    hangs on Rule 2 alone: either the nine corrected digits with status 0,
    or [Invalid Nif: ] and the argument with status 1.  For eight digits or
    more nothing is drawn and the output is fixed by the first eight. *)
Theorem main_with_argument (s : store) (fuel : nat) (prog : string)
    (c : ascii) (rest : string) (more : list string) (l : list Z) :
  reachable s ->
  ints_of_string (String c rest) = Some l ->
  exists ds s',
    length ds = (8 - length l)%nat /\
    Forall (fun d => 0 <= d < 9) ds /\
    main fuel (prog :: String c rest :: more) s =
      (s', inr (if rule2 (catalogue s) (with_sum (l ++ ds))
                then (join_str (with_sum (l ++ ds)), 0)
                else (("Invalid Nif: " ++ String c rest)%string, 1))).
Proof.
  intros Hreach Hl.
  destruct (reachable_wf s Hreach) as ((H14 & _) & _).
  pose proof (ints_of_string_nonempty c rest l Hl) as Hne.
  destruct (Nif_str_fill_general s fuel c rest l Hl)
    as (ds & s1 & Hrun & Hb & Hlists & Hdslen & Hdsall).
  pose proof (reachable_Nif s fuel (AStr (String c rest)) true _ _ Hreach I Hrun)
    as Hreach1.
  destruct (filled_length l ds Hne Hdslen) as [Hlong _].
  assert (Hws : with_sum (filled l ds) = with_sum (l ++ ds)).
  { unfold filled. destruct (Nat.leb_spec (length l) 8).
    - apply with_sum_idempotent. rewrite length_app. lia.
    - destruct ds; [by rewrite app_nil_r | cbn in Hdslen; lia]. }
  destruct (fix_sum_rule2 s1 fuel _ _ _ Hreach1 Hb Hlong)
    as (s2 & Hfix & Hb2 & _ & _ & Hvalid).
  rewrite Hws in *.
  assert (Hcat : catalogue s1 = catalogue s).
  { unfold catalogue. apply map_ext_in. intros k Hk%in_seq.
    unfold digits_at. rewrite Hlists.
    rewrite list_lookup_insert_ne by lia. by rewrite lookup_app_l by lia. }
  rewrite Hcat in Hvalid.
  exists ds, s2. split; [done|]. split; [done|].
  cbn [main]. unfold bind at 1. rewrite Hrun.
  unfold bind at 1. rewrite Hfix.
  unfold bind at 1. rewrite Hvalid.
  destruct (rule2 (catalogue s) (with_sum (l ++ ds))); [|done].
  unfold bind. by rewrite (__str___list _ _ _ _ Hb2).
Qed.

Lemma main_with_argument_witness :
  exists ds s',
    length ds = (8 - length [1; 2; 3; 4; 5; 6; 7; 8; 0; 0])%nat /\
    Forall (fun d => 0 <= d < 9) ds /\
    main 0 ["nif.py"; "1234567800"]%string (init_store (fun _ => 0%nat)) =
      (s', inr (if rule2 (catalogue (init_store (fun _ => 0%nat)))
                     (with_sum ([1; 2; 3; 4; 5; 6; 7; 8; 0; 0] ++ ds))
                then (join_str (with_sum ([1; 2; 3; 4; 5; 6; 7; 8; 0; 0] ++ ds)), 0)
                else (("Invalid Nif: " ++ "1234567800")%string, 1))).
Proof.
  apply (main_with_argument (init_store (fun _ => 0%nat)) 0 "nif.py"
           "1"%char "234567800" [] [1; 2; 3; 4; 5; 6; 7; 8; 0; 0]).
  - apply reach_init.
  - reflexivity.
Defined.

(** ** [generate], step by step *)

(** The second step of [generate] when the draw picks [nif], which holds
    [l]. *)
Lemma draw_run (s : store) (comb : list nat) (nif : nat) (l : list Z) :
  comb !! draw_index s comb = Some nif ->
  lists s !! nif = Some l ->
  exists ds,
    draw comb s =
      (set_digits (advance s (1 + length ds)) nif (with_sum (l ++ ds)),
       inr nif) /\
    length ds = Z.to_nat (_BASE_LENGTH - Z.of_nat (length l)) /\
    Forall (fun d => 0 <= d < 9) ds.
Proof.
  intros Hnif Hl.
  assert (Hlen : 0 < Z.of_nat (length comb)).
  { apply lookup_lt_Some in Hnif. lia. }
  destruct (rand_list_spec 9 (Z.to_nat (_BASE_LENGTH - Z.of_nat (length l)))
              (advance s 1)) as (ds & Hds & Hdslen & Hdsall); [lia|].
  exists ds. split; [|done].
  unfold draw. unfold bind at 1, rand.
  destruct (Z.leb_spec (Z.of_nat (length comb)) 0); [lia|].
  change {| lists := lists s; insts := insts s; entropy := entropy s;
            cursor := S (cursor s) |} with (advance s 1).
  fold (draw_index s comb). unfold bind at 1. rewrite Hnif. unfold ret at 1.
  unfold bind at 1, get_list at 1. cbn [lists advance]. rewrite Hl.
  unfold bind at 1. rewrite Hds.
  rewrite advance_advance, <- Hdslen.
  set (s1 := advance s (1 + length ds)).
  assert (Hl1 : lists s1 !! nif = Some l) by exact Hl.
  unfold bind at 1. rewrite (list_setslice_run _ _ _ _ _ Hl1).
  rewrite PyListFacts.setslice_end.
  pose proof (lists_set_digits_eq _ _ _ (l ++ ds) Hl1) as Hl2.
  unfold bind at 1, get_list at 1. rewrite Hl2.
  unfold bind at 1. rewrite (list_setslice_run _ _ _ _ _ Hl2).
  unfold _BASE_LENGTH. rewrite PyListFacts.setslice_suffix by lia.
  unfold ret. by rewrite set_digits_twice.
Qed.

(** [generate] on an instance that has its fairness list. *)
Lemma generate_run (s : store) (self : nat) (o : instance) (comb : list nat)
    (nif : nat) (l : list Z) :
  insts s !! self = Some o ->
  _balanced o = Some comb ->
  comb !! draw_index s comb = Some nif ->
  lists s !! nif = Some l ->
  exists ds,
    generate self s =
      (generated s self comb nif (with_sum (l ++ ds)) (1 + length ds), inr tt) /\
    length ds = Z.to_nat (_BASE_LENGTH - Z.of_nat (length l)) /\
    Forall (fun d => 0 <= d < 9) ds.
Proof.
  intros Ho Hb Hnif Hl.
  destruct (draw_run s comb nif l Hnif Hl) as (ds & Hdraw & Hlen & Hall).
  exists ds. split; [|done].
  unfold generate. unfold bind at 1, balanced, bind at 1, get_inst.
  rewrite Ho, Hb. unfold ret at 1. unfold bind at 1. rewrite Hdraw.
  set (s2 := set_digits (advance s (1 + length ds)) nif (with_sum (l ++ ds))).
  assert (Hl2 : lists s2 !! nif = Some (with_sum (l ++ ds)))
    by (by apply (lists_set_digits_eq _ _ l)).
  unfold bind at 1, get_list. rewrite Hl2.
  unfold bind, alloc_list, set_attr_nif, bind, get_inst, put_inst.
  cbn [lists insts entropy cursor].
  change (insts s2) with (insts s). rewrite Ho.
  unfold generated, set_inst, extend_lists. cbn [lists insts entropy cursor].
  fold s2. rewrite Hb. do 4 f_equal.
  subst s2. cbn. by rewrite length_insert.
Qed.

(** The first step of [generate] on an instance without a fairness list. *)
Lemma balanced_run (s : store) (self : nat) (o : instance) :
  (13 <= length (lists s))%nat ->
  insts s !! self = Some o ->
  _balanced o = None ->
  exists ext ws,
    balanced self s =
      (set_inst (extend_lists s ext) self {| _nif := _nif o; _balanced := Some ws |},
       inr ws) /\
    Forall (fair_element s _COMBINATIONS ext) ws.
Proof.
  intros H13 Ho Hb.
  destruct (norm_gen_spec _COMBINATIONS s (_COMBINATIONS_in_store s H13))
    as (ext & ws & Hrun & _ & Hall).
  exists ext, ws. split; [|done].
  unfold balanced, bind at 1, get_inst. rewrite Ho, Hb.
  unfold bind at 1, _fair_combinations. by rewrite Hrun.
Qed.

(** Once the fairness list is there, the first step is a no-op: [generate]
    from the store it leaves is [generate] from the store before. *)
Lemma generate_after_balanced (s s1 : store) (self : nat) (o1 : instance)
    (comb : list nat) :
  balanced self s = (s1, inr comb) ->
  insts s1 !! self = Some o1 ->
  _balanced o1 = Some comb ->
  generate self s = generate self s1.
Proof.
  intros Hbal Ho1 Hb1.
  assert (Hbal1 : balanced self s1 = (s1, inr comb)).
  { unfold balanced, bind, get_inst. by rewrite Ho1, Hb1. }
  unfold generate. unfold bind at 1. rewrite Hbal.
  symmetry. unfold bind at 1. by rewrite Hbal1.
Qed.

Lemma fairness_list_Some (s : store) (self : nat) :
  fairness_list s self <> [] ->
  exists o, insts s !! self = Some o /\
            _balanced o = Some (fairness_list s self).
Proof.
  unfold fairness_list. destruct (insts s !! self) as [o|]; [|done].
  destruct (_balanced o) as [comb|] eqn:Hb; [|done]. intros _. by exists o.
Qed.

Lemma draw_index_lt (s : store) (comb : list nat) :
  comb <> [] -> (draw_index s comb < length comb)%nat.
Proof.
  intros Hne. unfold draw_index.
  assert (0 < Z.of_nat (length comb)) by (destruct comb; [done|cbn; lia]).
  pose proof (Z.mod_pos_bound (Z.of_nat (entropy s (cursor s)))
                (Z.of_nat (length comb))). lia.
Qed.

(** What a [generate] call does on an instance that has its fairness list,
    in a store that keeps the invariant. *)
Lemma generate_run_wf (s : store) (self : nat) (o : instance) (comb : list nat) :
  wf s ->
  insts s !! self = Some o ->
  _balanced o = Some comb ->
  exists nif l ds,
    comb !! draw_index s comb = Some nif /\
    entry_ok s nif /\
    lists s !! nif = Some l /\
    generate self s =
      (generated s self comb nif (with_sum (l ++ ds)) (1 + length ds), inr tt) /\
    length ds = Z.to_nat (_BASE_LENGTH - Z.of_nat (length l)) /\
    Forall (fun d => 0 <= d < 9) ds.
Proof.
  intros (Hcat & Hbal & _) Ho Hb.
  destruct (Hbal self o comb Ho Hb) as [Hne Hall].
  destruct (lookup_lt_is_Some_2 comb (draw_index s comb)) as [nif Hnif];
    [by apply draw_index_lt|].
  assert (Hentry : entry_ok s nif).
  { eapply Forall_forall in Hall; [exact Hall|]. by eapply list_elem_of_lookup_2. }
  destruct (entry_ok_lookup s nif Hcat Hentry) as (l & Hl & _).
  destruct (generate_run s self o comb nif l Ho Hb Hnif Hl) as (ds & Hgen & Hlen & Hds).
  by exists nif, l, ds.
Qed.

Lemma generated_backed (s : store) (self : nat) (comb : list nat) (nif : nat)
    (l l2 : list Z) (k : nat) :
  (self < length (insts s))%nat ->
  lists s !! nif = Some l ->
  list_backed (generated s self comb nif l2 k) self (length (lists s)) l2 /\
  lists (generated s self comb nif l2 k) !! nif = Some l2 /\
  fairness_list (generated s self comb nif l2 k) self = comb.
Proof.
  intros Hself Hl. pose proof (lookup_lt_Some _ _ _ Hl) as Hlt.
  split; [|split].
  - exists {| _nif := RList (length (lists s)); _balanced := Some comb |}.
    split; [|split; [reflexivity|]].
    + cbn. by apply list_lookup_insert_eq.
    + cbn. rewrite lookup_app_r by (by rewrite length_insert).
      by rewrite length_insert, Nat.sub_diag.
  - cbn. rewrite lookup_app_l by (by rewrite length_insert).
    by apply list_lookup_insert_eq.
  - unfold fairness_list. cbn. by rewrite list_lookup_insert_eq.
Qed.

(** X16.  [generate] draws are not fresh: the drawn element of the
    instance's fairness list is itself left holding the nine digits, so when
    a later call on the same instance draws the same element again it
    returns the very same NIF, and no digit is drawn. *)
Theorem generate_repeats (s : store) (self : nat) :
  reachable s ->
  fairness_list s self <> [] ->
  exists s1 s2 a1 a2 l1 l2,
    generate self s = (s1, inr tt) /\
    list_backed s1 self a1 l1 /\
    generate self s1 = (s2, inr tt) /\
    list_backed s2 self a2 l2 /\
    (fairness_list s self !! draw_index s1 (fairness_list s self)
     = fairness_list s self !! draw_index s (fairness_list s self) ->
     l2 = l1 /\ cursor s2 = S (cursor s1)).
Proof.
  intros Hreach Hfl.
  destruct (fairness_list_Some s self Hfl) as (o & Ho & Hb).
  set (comb := fairness_list s self) in *.
  pose proof (lookup_lt_Some _ _ _ Ho) as Hself.
  destruct (generate_run_wf s self o comb (reachable_wf s Hreach) Ho Hb)
    as (nif & l & ds & Hnif & _ & Hl & Hgen & Hdslen & _).
  set (l1 := with_sum (l ++ ds)) in *.
  set (s1 := generated s self comb nif l1 (1 + length ds)) in *.
  destruct (generated_backed s self comb nif l l1 (1 + length ds) Hself Hl)
    as (Hb1 & Hl1 & Hfl1). fold s1 in Hb1, Hl1, Hfl1.
  assert (Hreach1 : reachable s1).
  { pose proof (reach_call s 0 (CGenerate self) Hreach I) as Hr.
    cbn [run_call] in Hr. by rewrite Hgen in Hr. }
  assert (Hfl1' : fairness_list s1 self <> []) by (by rewrite Hfl1).
  destruct (fairness_list_Some s1 self Hfl1') as (o1 & Ho1 & Hbo1).
  rewrite Hfl1 in Hbo1.
  pose proof (lookup_lt_Some _ _ _ Ho1) as Hself1.
  destruct (generate_run_wf s1 self o1 comb (reachable_wf s1 Hreach1) Ho1 Hbo1)
    as (nif' & l' & ds' & Hnif' & _ & Hl' & Hgen' & Hdslen' & _).
  destruct (generated_backed s1 self comb nif' l' (with_sum (l' ++ ds'))
              (1 + length ds') Hself1 Hl') as (Hb2 & _ & _).
  exists s1, (generated s1 self comb nif' (with_sum (l' ++ ds')) (1 + length ds')),
    (length (lists s)), (length (lists s1)), l1, (with_sum (l' ++ ds')).
  split; [done|]. split; [done|]. split; [done|]. split; [done|].
  intros Hsame. rewrite Hnif, Hnif' in Hsame. injection Hsame as ->.
  assert (l' = l1) as -> by congruence.
  assert (Hlong : (8 <= length (l ++ ds))%nat).
  { rewrite length_app, Hdslen. unfold _BASE_LENGTH. lia. }
  destruct (with_sum_consistent (l ++ ds) Hlong) as [H9 _]. fold l1 in H9.
  assert (ds' = []) as ->.
  { rewrite H9 in Hdslen'. by destruct ds'. }
  rewrite app_nil_r. split; [by apply with_sum_idempotent | reflexivity].
Qed.

Lemma generate_repeats_witness :
  let s := fst (run_call 0 (CGenerate 0)
                  (fst (run_call 0 (CNif ANone false)
                          (init_store (fun _ => 40%nat))))) in
  exists s1 s2 a1 a2 l1 l2,
    generate 0 s = (s1, inr tt) /\
    list_backed s1 0 a1 l1 /\
    generate 0 s1 = (s2, inr tt) /\
    list_backed s2 0 a2 l2 /\
    l2 = l1 /\ cursor s2 = S (cursor s1).
Proof.
  intros s.
  destruct (generate_repeats s 0)
    as (s1 & s2 & a1 & a2 & l1 & l2 & H1 & B1 & H2 & B2 & Hsame).
  - apply (reach_call _ 0 (CGenerate 0)); [|exact I].
    apply (reach_call _ 0 (CNif ANone false)); [apply reach_init | exact I].
  - by vm_compute.
  - assert (E : s1 = fst (generate 0 s)) by (by rewrite H1).
    exists s1, s2, a1, a2, l1, l2. repeat split; try assumption;
      apply Hsame; rewrite E; vm_compute; reflexivity.
Defined.

(** ** The private lists hold digits *)

Lemma private_digits_same (s0 s : store) :
  private_digits s0 -> same_private s0 s -> private_digits s.
Proof.
  intros HD [Hp Hl] a Ha. apply Hp in Ha.
  unfold digits_at. rewrite (Hl a Ha). by apply HD.
Qed.

Lemma same_private_refl (s : store) : same_private s s.
Proof. by split. Qed.

Lemma same_private_trans (s0 s1 s2 : store) :
  same_private s0 s1 -> same_private s1 s2 -> same_private s0 s2.
Proof.
  intros [Hp1 Hl1] [Hp2 Hl2]. split.
  - intros a. by rewrite Hp2, Hp1.
  - intros a Ha. rewrite Hl2 by (by apply Hp1). by apply Hl1.
Qed.

Lemma same_private_frame (s0 s : store) : frame s0 s -> same_private s0 s.
Proof.
  intros (Hi & _ & Hl). split; [|exact Hl].
  intros a. split; apply private_same; congruence.
Qed.

Lemma same_private_lists (s s' : store) :
  lists s' = lists s -> insts s' = insts s -> same_private s s'.
Proof.
  intros Hl Hi. split.
  - intros a. split; apply private_same; congruence.
  - intros a _. by rewrite Hl.
Qed.

Lemma private_lt (s : store) (a : nat) :
  wf s -> private s a -> (a < length (lists s))%nat.
Proof.
  intros (Hcat & Hbal & _) [Hlt | (self & o & bl & Ho & Hb & Hin)].
  - destruct Hcat as (H14 & _). lia.
  - destruct (Hbal self o bl Ho Hb) as [_ Hall].
    eapply Forall_forall in Hall; [|exact Hin]. by apply entry_ok_lt.
Qed.

Lemma same_private_extend (s : store) (ext : list (list Z)) :
  wf s -> same_private s (extend_lists s ext).
Proof.
  intros Hwf. split; [done|].
  intros a Ha. cbn. apply lookup_app_l. by apply private_lt.
Qed.

Lemma same_private_alloc_inst (s : store) :
  same_private s
    {| lists := lists s;
       insts := insts s ++ [{| _nif := RList class_nif; _balanced := None |}];
       entropy := entropy s; cursor := cursor s |}.
Proof.
  split; [|done]. intros a. split.
  - intros [Hlt | (self & o & bl & Ho & Hb & Hin)]; [by left|].
    cbn in Ho. apply lookup_app_Some in Ho as [Ho | [_ Ho]].
    + right. by exists self, o, bl.
    + destruct (self - length (insts s))%nat; cbn in Ho; [|done].
      injection Ho as <-. done.
  - intros [Hlt | (self & o & bl & Ho & Hb & Hin)]; [by left|].
    right. exists self, o, bl. split; [|done]. cbn. by apply lookup_app_l_Some.
Qed.

(** Replacing an instance by one with the same fairness list. *)
Lemma same_private_set_inst (s : store) (self : nat) (o o' : instance) :
  insts s !! self = Some o ->
  _balanced o' = _balanced o ->
  same_private s (set_inst s self o').
Proof.
  intros Ho Hb. pose proof (lookup_lt_Some _ _ _ Ho) as Hlt.
  split; [|done]. intros a. split.
  - intros [H13 | (self' & o2 & bl & Ho2 & Hb2 & Hin)]; [by left|].
    right. cbn in Ho2. destruct (decide (self' = self)) as [->|Hne].
    + rewrite list_lookup_insert_eq in Ho2 by done. injection Ho2 as <-.
      exists self, o, bl. by rewrite <- Hb.
    + rewrite list_lookup_insert_ne in Ho2 by done. by exists self', o2, bl.
  - intros [H13 | (self' & o2 & bl & Ho2 & Hb2 & Hin)]; [by left|].
    right. destruct (decide (self' = self)) as [->|Hne].
    + exists self, o', bl. cbn. rewrite list_lookup_insert_eq by done.
      split; [done|]. split; [|done]. rewrite Hb. congruence.
    + exists self', o2, bl. cbn. by rewrite list_lookup_insert_ne.
Qed.

Lemma in_frame_fst {A} (m : M A) (s : store) :
  in_frame s m -> frame s (fst (m s)).
Proof.
  intros Hm. specialize (Hm s (frame_refl s)). by destruct (m s) as [s' [e|x]].
Qed.

Section FillPrivate.

Variable s0 : store.

Lemma keeps_fill_inv_pure {A} (m : M A) :
  (forall s, fst (m s) = s) -> keeps_fill_inv s0 m.
Proof.
  intros Hm s Hs. specialize (Hm s).
  destruct (m s) as [s' [e|x]]; cbn in Hm; by subst.
Qed.

Lemma keeps_fill_inv_rand_list (k : nat) : keeps_fill_inv s0 (rand_list 9 k).
Proof.
  intros s [Hwf Hsp]. destruct (rand_list_spec 9 k s) as (ds & -> & _); [lia|].
  split; [by apply wf_advance|].
  eapply same_private_trans; [exact Hsp|]. by apply same_private_lists.
Qed.

Lemma keeps_fill_inv_store_nif (fuel self : nat) (asg : assignment) :
  keeps_fill_inv s0 (let! r := attr_nif self in
                  subscript_store (__setitem__ fuel) r asg).
Proof.
  intros s [Hwf Hsp].
  assert (Hf : in_frame s (let! r := attr_nif self in
                           subscript_store (__setitem__ fuel) r asg)).
  { apply store_nif_frame; [done|]. intros n asg'. by apply __setitem___frame. }
  apply in_frame_fst in Hf.
  destruct ((let! r := attr_nif self in
             subscript_store (__setitem__ fuel) r asg) s) as [s' [e|x]];
    cbn [fst] in Hf;
    (split; [by apply (wf_frame s)
            | eapply same_private_trans; [exact Hsp | by apply same_private_frame]]).
Qed.

Lemma keeps_fill_inv_fill_digits (fuel self : nat) :
  keeps_fill_inv s0 (fill_digits fuel self).
Proof.
  unfold fill_digits.
  eapply triple_bind; [apply keeps_fill_inv_pure, attr_nif_store|]. intros r.
  eapply triple_bind; [apply keeps_fill_inv_pure, len_store|]. intros n.
  eapply triple_bind.
  - destruct (n <? 8); [|by apply keeps_fill_inv_pure].
    eapply triple_bind; [apply keeps_fill_inv_rand_list|]. intros ds.
    apply keeps_fill_inv_store_nif.
  - intros u. destruct (n <? 9); [|by apply keeps_fill_inv_pure].
    eapply triple_bind; [apply keeps_fill_inv_pure, eval_sum_store|]. intros v.
    apply keeps_fill_inv_store_nif.
Qed.

End FillPrivate.

(** The constructor leaves the private lists alone. *)
Lemma Nif_same_private (s : store) (fuel : nat) (num : arg) (fill : bool) :
  wf s ->
  (forall a, num = AList a -> public s a) ->
  same_private s (fst (Nif fuel num fill s)).
Proof.
  intros Hwf Hnum. unfold Nif, bind at 1, alloc_inst.
  set (o := {| _nif := RList class_nif; _balanced := None |}).
  set (s1 := {| lists := lists s; insts := insts s ++ [o];
                entropy := entropy s; cursor := cursor s |}).
  pose proof (wf_alloc_inst s Hwf) as Hwf1. fold o s1 in Hwf1.
  pose proof (same_private_alloc_inst s) as Hsp1. fold o s1 in Hsp1.
  set (self := length (insts s)).
  assert (Ho : insts s1 !! self = Some o).
  { subst s1 self. cbn. by rewrite lookup_app_r, Nat.sub_diag. }
  assert (Hattr : forall r, same_private s (fst (set_attr_nif self r s1))).
  { intros r. unfold set_attr_nif, bind, get_inst. rewrite Ho.
    eapply same_private_trans; [exact Hsp1|].
    by apply (same_private_set_inst s1 self o). }
  assert (Hret : forall m : M unit, same_private s (fst (m s1)) ->
            same_private s (fst ((run! m in ret self) s1))).
  { intros m Hm. unfold bind. by destruct (m s1) as [s' [e|[]]]. }
  apply Hret. destruct num as [|n|a|num]; cbn [__init__].
  - exact Hsp1.
  - apply Hattr.
  - unfold bind, get_list. destruct (lists s1 !! a) as [[|d l]|]; [done| |done].
    apply Hattr.
  - destruct num as [|c rest]; [exact Hsp1|].
    destruct (ints_of_string (String c rest)) as [l|]; [|exact Hsp1].
    unfold bind at 1. unfold ret at 1. unfold bind at 1, alloc_list.
    change {| lists := lists s1 ++ [l]; insts := insts s1;
              entropy := entropy s1; cursor := cursor s1 |}
      with (extend_lists s1 [l]).
    unfold bind at 1, set_attr_nif, bind at 1, get_inst.
    cbn [insts extend_lists]. rewrite Ho. unfold put_inst.
    change {| lists := lists (extend_lists s1 [l]);
              insts := <[self := {| _nif := RList (length (lists s1));
                                     _balanced := _balanced o |}]>
                         (insts (extend_lists s1 [l]));
              entropy := entropy (extend_lists s1 [l]);
              cursor := cursor (extend_lists s1 [l]) |}
      with (set_inst (extend_lists s1 [l]) self
              {| _nif := RList (length (lists s1)); _balanced := _balanced o |}).
    set (s3 := set_inst (extend_lists s1 [l]) self _).
    assert (Hwf3 : wf s3).
    { apply (wf_set_attr_nif (extend_lists s1 [l]) self o).
      - by apply wf_extend.
      - exact Ho.
      - intros a [= <-]. exact (public_fresh s1 l Hwf1). }
    assert (Hsp3 : same_private s s3).
    { eapply same_private_trans; [exact Hsp1|].
      eapply same_private_trans; [by apply (same_private_extend s1 [l])|].
      by apply (same_private_set_inst (extend_lists s1 [l]) self o). }
    destruct fill; [|exact Hsp3].
    pose proof (keeps_fill_inv_fill_digits s3 fuel self s3
                  (conj Hwf3 (same_private_refl s3))) as Hfill.
    eapply same_private_trans; [exact Hsp3|].
    destruct (fill_digits fuel self s3) as [s4 [e|[]]]; by destruct Hfill.
Qed.

Lemma with_sum_digits (l : list Z) :
  Forall is_digit l -> Forall is_digit (with_sum l).
Proof.
  intros Hl. unfold with_sum. apply Forall_app. split.
  - by apply Forall_take.
  - constructor; [apply _eval_sum_range | constructor].
Qed.

Lemma join_str_length (l : list Z) :
  Forall is_digit l -> String.length (join_str l) = length l.
Proof.
  induction 1 as [|d l Hd _ IH]; [done|].
  rewrite join_str_cons. destruct (py_str_digit d Hd) as (c & -> & _).
  cbn. by rewrite IH.
Qed.

(** [generate] on an instance with a fairness list keeps the private lists
    in digits, and returns nine of them. *)
Lemma generate_digits_some (s : store) (self : nat) (o : instance)
    (comb : list nat) :
  wf s -> private_digits s ->
  insts s !! self = Some o ->
  _balanced o = Some comb ->
  exists s' a l,
    generate self s = (s', inr tt) /\
    list_backed s' self a l /\
    length l = 9%nat /\ Forall is_digit l /\
    private_digits s'.
Proof.
  intros Hwf HD Ho Hb.
  pose proof (lookup_lt_Some _ _ _ Ho) as Hself.
  destruct (generate_run_wf s self o comb Hwf Ho Hb)
    as (nif & l & ds & Hnif & _ & Hl & Hgen & Hdslen & Hds).
  assert (Hin : nif ∈ comb) by (by eapply list_elem_of_lookup_2).
  assert (Hpriv : private s nif) by (right; by exists self, o, comb).
  assert (Hldig : Forall is_digit l).
  { specialize (HD nif Hpriv). unfold digits_at in HD. by rewrite Hl in HD. }
  set (l2 := with_sum (l ++ ds)) in *.
  assert (Hl2dig : Forall is_digit l2).
  { apply with_sum_digits, Forall_app. split; [done|].
    eapply Forall_impl; [exact Hds|]. intros d Hd. cbn beta in Hd.
    unfold is_digit. lia. }
  assert (Hlong : (8 <= length (l ++ ds))%nat).
  { rewrite length_app, Hdslen. unfold _BASE_LENGTH. lia. }
  destruct (with_sum_consistent (l ++ ds) Hlong) as [H9 _]. fold l2 in H9.
  destruct (generated_backed s self comb nif l l2 (1 + length ds) Hself Hl)
    as (Hback & _ & _).
  eexists _, _, l2. split; [exact Hgen|]. split; [exact Hback|].
  split; [done|]. split; [done|].
  intros a Ha.
  assert (Ha0 : private s a).
  { destruct Ha as [H13 | (self' & o2 & bl & Ho2 & Hb2 & Hin2)]; [by left|].
    right. cbn in Ho2. destruct (decide (self' = self)) as [->|Hne].
    - rewrite list_lookup_insert_eq in Ho2 by done. injection Ho2 as <-.
      cbn in Hb2. exists self, o, bl. split; [done|]. split; [congruence|done].
    - rewrite list_lookup_insert_ne in Ho2 by done. by exists self', o2, bl. }
  pose proof (private_lt s a Hwf Ha0) as Hlt.
  unfold digits_at, generated. cbn [lists set_inst extend_lists set_digits advance].
  rewrite lookup_app_l by (by rewrite length_insert).
  destruct (decide (nif = a)) as [->|Hne].
  - by rewrite list_lookup_insert_eq.
  - rewrite list_lookup_insert_ne by done. by apply HD.
Qed.

(** The first step of [generate] keeps the private lists in digits. *)
Lemma balanced_digits (s : store) (self : nat) (o : instance) :
  wf s -> private_digits s ->
  insts s !! self = Some o ->
  _balanced o = None ->
  exists s1 ws,
    balanced self s = (s1, inr ws) /\
    private_digits s1 /\
    insts s1 !! self = Some {| _nif := _nif o; _balanced := Some ws |}.
Proof.
  intros Hwf HD Ho Hb. pose proof Hwf as ((H14 & _) & _).
  pose proof (lookup_lt_Some _ _ _ Ho) as Hself.
  destruct (balanced_run s self o) as (ext & ws & Hrun & Hall); [lia|done..|].
  eexists _, ws. split; [exact Hrun|]. split.
  2:{ cbn. by apply list_lookup_insert_eq. }
  assert (Hold : forall a, private s a ->
            Forall is_digit (default [] ((lists s ++ ext) !! a))).
  { intros a Ha. rewrite lookup_app_l by (by apply private_lt). by apply HD. }
  intros a [H13 | (self' & o2 & bl & Ho2 & Hb2 & Hin)];
    unfold digits_at; cbn [lists set_inst extend_lists].
  - apply Hold. by left.
  - cbn in Ho2. destruct (decide (self' = self)) as [->|Hne].
    + rewrite list_lookup_insert_eq in Ho2 by done. injection Ho2 as <-.
      cbn in Hb2. injection Hb2 as <-.
      eapply Forall_forall in Hall; [|exact Hin].
      destruct Hall as [[Hc _] | (_ & c & x & Hc & Hx & Hw)].
      * apply Hold. left. apply elem_of_seq in Hc. lia.
      * rewrite Hw. cbn. constructor; [|constructor].
        assert (Hpc : private s c) by (left; apply elem_of_seq in Hc; lia).
        specialize (HD c Hpc). unfold digits_at in HD. rewrite Hx in HD.
        by apply Forall_inv in HD.
    + rewrite list_lookup_insert_ne in Ho2 by done.
      apply Hold. right. by exists self', o2, bl.
Qed.

Lemma generate_digits (s : store) (self : nat) (o : instance) :
  wf s -> private_digits s ->
  insts s !! self = Some o ->
  exists s' a l,
    generate self s = (s', inr tt) /\
    list_backed s' self a l /\
    length l = 9%nat /\ Forall is_digit l /\
    private_digits s'.
Proof.
  intros Hwf HD Ho. destruct (_balanced o) as [comb|] eqn:Hb.
  - by apply (generate_digits_some s self o comb).
  - destruct (balanced_digits s self o Hwf HD Ho Hb) as (s1 & ws & Hbal & HD1 & Ho1).
    destruct (balanced_spec s self o Hwf Ho)
      as (s1' & comb' & o1' & Hbal' & Hwf1 & _).
    rewrite Hbal in Hbal'. injection Hbal' as <- <-.
    rewrite (generate_after_balanced s s1 self
               {| _nif := _nif o; _balanced := Some ws |} ws Hbal Ho1 eq_refl).
    by apply (generate_digits_some s1 self
                {| _nif := _nif o; _balanced := Some ws |} ws).
Qed.

Lemma run_call_digits (s : store) (fuel : nat) (c : call) :
  wf s -> private_digits s -> allowed s c ->
  private_digits (fst (run_call fuel c s)).
Proof.
  intros Hwf HD Hc.
  assert (Hf : forall m : M unit, in_frame s m -> private_digits (fst (m s))).
  { intros m Hm. apply (private_digits_same s); [done|].
    by apply same_private_frame, in_frame_fst. }
  destruct c as [l|a l|num fill|self asg|self|self|self v]; cbn [run_call].
  - apply (private_digits_same s); [done|]. by apply (same_private_extend s [l]).
  - apply (private_digits_same s); [done|].
    apply same_private_frame, frame_set_digits. by destruct Hc.
  - apply (private_digits_same s); [done|].
    pose proof (Nif_same_private s fuel num fill Hwf) as Hn. unfold bind.
    destruct (Nif fuel num fill s) as [s' [e|x]]; cbn [fst] in *;
      apply Hn; intros a ->; exact Hc.
  - apply Hf. by apply __setitem___frame.
  - destruct (insts s !! self) as [o|] eqn:Ho.
    + by destruct (generate_digits s self o Hwf HD Ho)
        as (s' & a & l & -> & _ & _ & _ & HD').
    + unfold generate, bind at 1, balanced, bind at 1, get_inst. by rewrite Ho.
  - apply Hf. by apply fix_sum_frame.
  - apply Hf. by apply set_sum_digit_frame.
Qed.

Lemma private_digits_init (rng : nat -> nat) : private_digits (init_store rng).
Proof.
  intros a [H13 | (self & o & bl & Ho & _)]; [|by cbn in Ho].
  assert (Hc : a ∈ seq 0 13) by (apply elem_of_seq; lia).
  cbn in Hc. unfold is_digit.
  elem_cases Hc; cbn; repeat (constructor; [lia|]); constructor.
Qed.

Lemma reachable_digits (s : store) : reachable s -> private_digits s.
Proof.
  induction 1 as [rng | s fuel c Hreach IH Hc]; [apply private_digits_init|].
  apply run_call_digits; [by apply reachable_wf | done..].
Qed.

Lemma list_backed_unique (s : store) (self a a' : nat) (l l' : list Z) :
  list_backed s self a l -> list_backed s self a' l' -> a = a' /\ l = l'.
Proof.
  intros (o & Ho & Hr & Hl) (o' & Ho' & Hr' & Hl').
  assert (o' = o) as -> by congruence.
  assert (a' = a) as -> by congruence.
  split; [done|congruence].
Qed.

(** [generate] in a reachable store: the outcome with all that is known of
    it. *)
Lemma generate_reachable (s : store) (fuel self : nat) :
  reachable s ->
  (self < length (insts s))%nat ->
  exists s' a l,
    generate self s = (s', inr tt) /\
    list_backed s' self a l /\
    length l = 9%nat /\ Forall is_digit l /\
    is_valid fuel self s' = (s', inr true).
Proof.
  intros Hreach Hself. pose proof (reachable_wf s Hreach) as Hwf.
  destruct (lookup_lt_is_Some_2 _ _ Hself) as [o Ho].
  destruct (generate_digits s self o Hwf (reachable_digits s Hreach) Ho)
    as (s' & a & l & Hgen & Hl & H9 & Hdig & _).
  destruct (generate_spec s self o Hwf Ho)
    as (s'' & a' & l' & Hgen' & Hwf' & Hl' & Hv & _).
  rewrite Hgen in Hgen'. injection Hgen' as <-.
  destruct (list_backed_unique _ _ _ _ _ _ Hl Hl') as [<- <-].
  exists s', a, l. repeat split; [done..|].
  rewrite (is_valid_list _ _ _ _ fuel Hl), Hv; [done|].
  destruct Hwf' as ((H14 & _) & _). lia.
Qed.

(** X17.  Whatever was done with the class before, a NIF that [generate]
    returns consists of nine decimal digits: its text has nine characters
    and reads back, digit for digit, as the same NIF. *)
Theorem generate_nine_digits (s : store) (fuel self : nat) :
  reachable s ->
  (self < length (insts s))%nat ->
  exists s' a l,
    generate self s = (s', inr tt) /\
    list_backed s' self a l /\
    length l = 9%nat /\
    Forall is_digit l /\
    __str__ fuel self s' = (s', inr (join_str l)) /\
    String.length (join_str l) = 9%nat /\
    ints_of_string (join_str l) = Some l.
Proof.
  intros Hreach Hself.
  destruct (generate_reachable s fuel self Hreach Hself)
    as (s' & a & l & Hgen & Hl & H9 & Hdig & _).
  exists s', a, l. split; [done|]. split; [done|]. split; [done|].
  split; [done|]. split; [by rewrite (__str___list _ _ _ _ Hl)|].
  split; [by rewrite join_str_length | by apply ints_of_join_str].
Qed.

Lemma generate_nine_digits_witness :
  let s := fst (run_call 0 (CNif ANone false) (init_store (fun n => (3 * n + 57)%nat))) in
  exists s' a l,
    generate 0 s = (s', inr tt) /\
    list_backed s' 0 a l /\
    length l = 9%nat /\
    Forall is_digit l /\
    __str__ 0 0 s' = (s', inr (join_str l)) /\
    String.length (join_str l) = 9%nat /\
    ints_of_string (join_str l) = Some l.
Proof.
  apply (generate_nine_digits _ 0 0).
  - apply reach_call; [apply reach_init | exact I].
  - simpl. lia.
Defined.

Lemma generate_nif_reachable (s : store) (fuel : nat) :
  reachable s ->
  exists s' a l,
    generate_nif fuel s = (s', inr (length (insts s))) /\
    list_backed s' (length (insts s)) a l /\
    length l = 9%nat /\ Forall is_digit l /\
    is_valid fuel (length (insts s)) s' = (s', inr true).
Proof.
  intros Hreach.
  destruct (Nif fuel ANone false s) as [s1 r] eqn:Hnif.
  pose proof Hnif as Hnif'. rewrite Nif_falsy_store in Hnif'.
  injection Hnif' as <- <-.
  pose proof (reachable_Nif s fuel ANone false _ _ Hreach I Hnif) as Hreach1.
  set (s1 := {| lists := lists s; insts := _; entropy := _; cursor := _ |}) in *.
  destruct (generate_reachable s1 fuel (length (insts s)) Hreach1)
    as (s' & a & l & Hgen & Hrest).
  { subst s1. cbn. rewrite length_app. cbn. lia. }
  exists s', a, l. split; [|exact Hrest].
  unfold generate_nif. unfold bind at 1. rewrite Hnif.
  unfold bind. by rewrite Hgen.
Qed.

(** X18.  [generate_nif] always returns, with a new instance (none of those
    that existed) holding nine decimal digits that [is_valid] accepts. *)
Theorem generate_nif_valid (s : store) (fuel : nat) :
  reachable s ->
  exists s' n a l,
    generate_nif fuel s = (s', inr n) /\
    n = length (insts s) /\
    list_backed s' n a l /\
    length l = 9%nat /\ Forall is_digit l /\
    is_valid fuel n s' = (s', inr true).
Proof.
  intros Hreach.
  destruct (generate_nif_reachable s fuel Hreach) as (s' & a & l & Hrun & Hrest).
  by exists s', (length (insts s)), a, l.
Qed.

Lemma generate_nif_valid_witness :
  exists s' n a l,
    generate_nif 0 (init_store (fun n => (11 * n + 2)%nat)) = (s', inr n) /\
    n = length (insts (init_store (fun n => (11 * n + 2)%nat))) /\
    list_backed s' n a l /\
    length l = 9%nat /\ Forall is_digit l /\
    is_valid 0 n s' = (s', inr true).
Proof.
  apply (generate_nif_valid (init_store (fun n => (11 * n + 2)%nat)) 0).
  apply reach_init.
Defined.

(** X14.  Called without an argument, in whatever state the class is and
    whatever the draws, [main] returns normally with exit status 0 and
    prints nine characters, the text of nine decimal digits that [is_valid]
    accepts. *)
Theorem main_without_argument (s : store) (fuel : nat) (argv : list string) :
  reachable s ->
  (length argv <= 1)%nat ->
  exists s' n a l,
    main fuel argv s = (s', inr (join_str l, 0)) /\
    String.length (join_str l) = 9%nat /\
    list_backed s' n a l /\
    Forall is_digit l /\
    is_valid fuel n s' = (s', inr true).
Proof.
  intros Hreach Hargv.
  destruct (generate_nif_reachable s fuel Hreach)
    as (s' & a & l & Hrun & Hl & H9 & Hdig & Hv).
  exists s', (length (insts s)), a, l.
  assert (Hmain : (let! n := Nif fuel ANone false in
                   run! generate n in
                   let! out := __str__ fuel n in
                   ret (out, 0)) s = (s', inr (join_str l, 0))).
  { unfold generate_nif in Hrun. unfold bind at 1 in Hrun. unfold bind at 1.
    destruct (Nif fuel ANone false s) as [s1 [e|n]]; [discriminate|].
    unfold bind at 1 in Hrun. unfold bind at 1.
    destruct (generate n s1) as [s2 [e|[]]]; [discriminate|].
    unfold ret in Hrun. injection Hrun as -> ->.
    unfold bind. by rewrite (__str___list _ _ _ _ Hl). }
  split; [|split; [by rewrite join_str_length|by repeat split]].
  destruct argv as [|prog [|arg argv]]; [exact Hmain..|cbn in Hargv; lia].
Qed.

Lemma main_without_argument_witness :
  exists s' n a l,
    main 0 ["nif.py"%string] (init_store (fun k => (5 * k + 41)%nat))
      = (s', inr (join_str l, 0)) /\
    String.length (join_str l) = 9%nat /\
    list_backed s' n a l /\
    Forall is_digit l /\
    is_valid 0 n s' = (s', inr true).
Proof.
  apply (main_without_argument (init_store (fun k => (5 * k + 41)%nat)) 0
           ["nif.py"%string]).
  - apply reach_init.
  - simpl. lia.
Defined.

(** ** A [Nif] built from a [Nif], once more *)

(** X19.  An instance built from another instance reads through it, so its
    text is the other one's; but it can neither be validated nor corrected:
    [is_valid] raises [TypeError] ([Nif] has no [__len__]) and [fix_sum]
    raises [IndexError] (the other instance's guard), both without changing
    anything. *)
Theorem copy_cannot_be_validated (s : store) (fuel a b la : nat)
    (ob : instance) (l : list Z) :
  list_backed s a la l ->
  insts s !! b = Some ob ->
  _nif ob = RNif a ->
  __str__ (S fuel) b s = (s, inr (join_str l)) /\
  is_valid (S fuel) b s = (s, inl TypeError) /\
  fix_sum (S fuel) b s = (s, inl IndexError).
Proof.
  intros Ha Hb Hr.
  assert (Hattr : attr_nif b s = (s, inr (RNif a))).
  { unfold attr_nif, bind, get_inst. by rewrite Hb, Hr. }
  split; [|split].
  - unfold __str__, bind. rewrite Hattr. cbn [iterate __iter__].
    unfold bind. rewrite (attr_nif_list _ _ _ _ Ha). cbn [iterate].
    by rewrite (get_list_digits _ _ _ _ Ha).
  - unfold is_valid, bind. by rewrite Hattr.
  - unfold fix_sum, fix_sum_via, eval_sum. unfold bind at 1. unfold bind at 1.
    rewrite Hattr. cbn [subscript_load]. unfold bind at 1.
    rewrite (__getitem___list _ _ _ _ _ _ Ha).
    cbv beta iota. unfold ret. cbv beta iota.
    unfold set_sum_digit_via, bind. rewrite Hattr. reflexivity.
Qed.

Lemma copy_cannot_be_validated_witness :
  let s := store_with_copy
             (store_with_nif (init_store (fun _ => 0%nat)) [1; 2; 3; 4; 5; 6; 7; 8; 9]) 0 in
  __str__ 1 1 s = (s, inr (join_str [1; 2; 3; 4; 5; 6; 7; 8; 9])) /\
  is_valid 1 1 s = (s, inl TypeError) /\
  fix_sum 1 1 s = (s, inl IndexError).
Proof.
  apply (copy_cannot_be_validated _ 0 0 1 14
           {| _nif := RNif 0; _balanced := None |} [1; 2; 3; 4; 5; 6; 7; 8; 9]).
  - eexists. repeat split; reflexivity.
  - reflexivity.
  - reflexivity.
Defined.

(** ** Reading has no effect *)

Lemma __int___store (fuel self : nat) (s : store) :
  fst (__int__ fuel self s) = s.
Proof.
  unfold __int__, bind, attr_nif, bind, get_inst.
  destruct (insts s !! self) as [o|]; [|done]. cbn [ret].
  destruct (_nif o) as [a|n]; cbn [iterate].
  - unfold get_list. by destruct (lists s !! a).
  - pose proof (__iter___store fuel n s) as Hi.
    destruct (__iter__ fuel n s) as [s1 [e|els]]; cbn in *; by subst.
Qed.

(** X20.  The methods that read ([is_valid], [__str__], [__int__],
    [__getitem__], [__iter__], [eval_sum], [get_sum_digit]) leave every
    list, every instance and the random source as they are, on whatever
    instance they are called and whether they return or raise. *)
Theorem reading_changes_nothing (s : store) (fuel self : nat) (item : index) :
  fst (is_valid fuel self s) = s /\
  fst (__str__ fuel self s) = s /\
  fst (__int__ fuel self s) = s /\
  fst (__getitem__ fuel self item s) = s /\
  fst (__iter__ fuel self s) = s /\
  fst (eval_sum fuel self s) = s /\
  fst (get_sum_digit fuel self s) = s.
Proof.
  split; [apply is_valid_store|]. split; [apply __str___store|].
  split; [apply __int___store|]. split; [apply __getitem___store|].
  split; [apply __iter___store|]. split; [apply eval_sum_store|].
  apply get_sum_digit_store.
Qed.

(** ** Validation after earlier calls *)

(** X21.  Whatever calls came before, a NIF of nine digits that starts with
    1, 2, 5, 6 or 8 and carries the right checksum is valid: the one-digit
    entries of the catalogue are never touched. *)
Theorem one_digit_prefix_stays_valid (s : store) (fuel self a : nat)
    (d : Z) (l : list Z) :
  reachable s ->
  list_backed s self a (d :: l) ->
  length (d :: l) = 9%nat ->
  d ∈ single_digits ->
  nth 8 (d :: l) 0 = _eval_sum (d :: l) ->
  is_valid fuel self s = (s, inr true).
Proof.
  intros Hreach Hself Hlen Hd Hsum.
  destruct (reachable_wf s Hreach) as (Hcat & _).
  rewrite (is_valid_list _ _ _ _ _ Hself) by (destruct Hcat as (H14 & _); lia).
  do 2 f_equal. unfold valid_digits. rewrite Hlen, Hsum.
  change (Z.of_nat 9 =? _BASE_LENGTH + 1) with true. cbn [andb].
  rewrite (rule2_intro _ [d] (d :: l)).
  - cbn [andb]. apply Z.eqb_refl.
  - by apply single_in_catalogue.
  - rewrite (join_str_cons d l). apply prefix_app.
Qed.

Lemma one_digit_prefix_stays_valid_witness :
  let s := fst (run_call 0 (CNif (AStr "123456789") false)
                  (fst (run_call 0 (CGenerate 0)
                          (fst (run_call 0 (CNif ANone false)
                                  (init_store (fun _ => 40%nat))))))) in
  is_valid 0 1 s = (s, inr true).
Proof.
  apply (one_digit_prefix_stays_valid _ 0 1 65 1 [2; 3; 4; 5; 6; 7; 8; 9]).
  - apply (reach_call _ 0 (CNif (AStr "123456789") false)); [|exact I].
    apply (reach_call _ 0 (CGenerate 0)); [|exact I].
    apply (reach_call _ 0 (CNif ANone false)); [apply reach_init | exact I].
  - exists {| _nif := RList 65; _balanced := None |}.
    split; [|split]; vm_compute; reflexivity.
  - reflexivity.
  - apply list_elem_of_In. cbn. tauto.
  - reflexivity.
Defined.
